(** * The repository mirror of fep-mcp ([src/repository.ts])

    A shallow embedding of the module that clones the FEP repository into a
    temporary directory, keeps the pair [currentRepo] / [currentRepoPath],
    and serves [readFile], [fileExists] and [listDirectory] from the clone.

    The TypeScript module is [async] code over two module-level variables.
    It is modelled in a state-and-exception monad: the state holds the two
    variables and the outside world (disk, network, timers, console), the
    exception is the JavaScript value that was thrown.  [await] is
    sequencing: the module never overlaps two of its own calls.

    The code that uses the module is embedded in the same monad: the tools
    of [src/tools.ts] with their scoring and snippet functions, the
    resources of [src/resources.ts], the start and the shutdown of
    [src/main.ts], and the expression with which [src/yaml.ts] cuts the
    frontmatter off a document.  [JSON.parse], [JSON.stringify] and the
    YAML reading of [parseFrontmatter] are not embedded: the definitions
    that call them take them as arguments, and what is proved holds for
    every such argument. *)

From Stdlib Require Import String Ascii NArith Sorted.
From stdpp Require Import base option list strings pretty gmap fin_maps.

Local Open Scope N_scope.
Local Open Scope stdpp_scope.

(** ** JavaScript values that are thrown *)

(** The classes the module tests with [instanceof]. *)
Inductive error_class :=
  | Error                          (* [new Error(..)] and the errors of es-git *)
  | NotFound                       (* [Deno.errors.NotFound] *)
  | DenoError (name : string).     (* any other [Deno.errors.*] *)

Record JsError := mkError { err_class : error_class; message : string }.

Inductive thrown :=
  | ThrownError (e : JsError)      (* [error instanceof Error] holds *)
  | ThrownValue (text : string).   (* any other value; [text] is [String(error)] *)

Definition new_Error (msg : string) : JsError := mkError Error msg.

Definition instanceof_NotFound (error : thrown) : bool :=
  match error with
  | ThrownError (mkError NotFound _) => true
  | _ => false
  end.

(** [error instanceof Error ? error.message : String(error)] *)
Definition message_or_String (error : thrown) : string :=
  match error with
  | ThrownError e => message e
  | ThrownValue text => text
  end.

(** [error instanceof Error ? error : new Error(String(error))] *)
Definition as_Error (error : thrown) : JsError :=
  match error with
  | ThrownError e => e
  | ThrownValue text => new_Error text
  end.

(** [lastError?.message] inside a template literal. *)
Definition optional_message (lastError : option JsError) : string :=
  match lastError with
  | Some e => message e
  | None => "undefined"
  end.

Definition class_name (c : error_class) : string :=
  match c with
  | Error => "Error"
  | NotFound => "NotFound"
  | DenoError name => name
  end.

(** How [console.error] shows a value given as an extra argument. *)
Definition inspect (error : thrown) : string :=
  match error with
  | ThrownError e => class_name (err_class e) +:+ ": " +:+ message e
  | ThrownValue text => text
  end.

(** ** The disk *)

(** The disk maps a path, as the string that is handed to the system
    call, to what is found there.  Paths are not normalised, and a map
    need not hold the parent of each of its entries: every call says what
    it looks at. *)
Inductive node :=
  | File (text : string)
  | Dir.

(** A tree of entries keyed by the path relative to its root. *)
Abbreviation tree := (gmap string node).

(** [below p q]: [q] lies inside the directory [p], at any depth.
    [under p q]: [q] is [p] itself or lies inside it. *)
Definition below (p q : string) : bool := String.prefix (p +:+ "/") q.
Definition under (p q : string) : bool := String.eqb q p || below p q.

(** The disk without the entry [p] and without everything below it. *)
Definition prune (p : string) (d : gmap string node) : gmap string node :=
  filter (λ kv, under p kv.1 = false) d.

(** The entries of [t] placed below [p], on top of what [d] holds. *)
Definition graft (p : string) (t : tree) (d : gmap string node)
  : gmap string node :=
  <[p := Dir]> (kmap (λ rel, p +:+ "/" +:+ rel) t ∪ d).

(** Nothing lies below [p]. *)
Definition vacant (p : string) (d : gmap string node) : bool :=
  bool_decide (map_Forall (λ k _, below p k = false) d).

(** Nothing exists at [p] or below it. *)
Definition free (p : string) (d : gmap string node) : bool :=
  bool_decide (d !! p = None) && vacant p d.

(** What [Deno.readDir] yields for the directory [p]: the entries directly
    inside it, in the order the disk enumerates them. *)
Record DirEntry := mkDirEntry { name : string; isDirectory : bool }.

Definition has_slash (s : string) : bool :=
  existsb (λ c, Ascii.eqb c "/") (list_ascii_of_string s).

Definition is_dir (n : node) : bool :=
  match n with Dir => true | File _ => false end.

Definition entry_of (p : string) (kv : string * node) : option DirEntry :=
  if below p kv.1 then
    let rest := String.substring (String.length p + 1)
                  (String.length kv.1 - (String.length p + 1)) kv.1 in
    if has_slash rest || String.eqb rest "" then None
    else Some (mkDirEntry rest (is_dir kv.2))
  else None.

Definition children (p : string) (d : gmap string node) : list DirEntry :=
  omap (entry_of p) (map_to_list d).

(** ** The es-git repository object *)

(** An open repository: which object it is, and where the repository is. *)
Record Repository := mkRepository { repo_id : nat; repo_path : string }.

(** ** Calls into Deno, es-git and the timer *)

Inductive action :=
  | MakeTempDir (prefix : string)
  | Remove (path : string)
  | ReadTextFile (path : string)
  | Stat (path : string)
  | ReadDir (path : string)
  | SetTimeout (ms : N)
  | CloneRepository (url path : string)
  | GetRemote (repo : Repository) (name : string)
  | Fetch (repo : Repository) (name : string)
  | OpenRepository (path : string).

(** One call as an observer sees it: what was called, what it threw (if it
    threw), and the two module variables at that moment. *)
Record event := mkEvent {
  call : action;
  failure : option thrown;
  seen_repo : option Repository;
  seen_path : option string;
}.

(** What one run of [cloneRepository] does, as far as the network decides:
    it delivers a checkout, or it throws and leaves [residue] in the
    destination ([None]: nothing was written). *)
Inductive clone_outcome :=
  | CloneOk (checkout : tree)
  | CloneFail (residue : option tree) (error : thrown).

(** ** The world outside the module *)

Record World := mkWorld {
  disk : gmap string node;
  (* paths on which a Deno system call fails with the given error,
     whatever the disk holds (permissions, busy files, broken media) *)
  io_error : gmap string thrown;
  (* the serial number of the next temporary directory *)
  temp_serial : nat;
  (* what the remote does to the clone attempts still to come *)
  clone_oracle : nat → clone_outcome;
  (* whether the es-git calls still to come (other than clone) throw *)
  git_fault : nat → option thrown;
  (* the identity of the next Repository object *)
  next_handle : nat;
  (* milliseconds spent waiting in [setTimeout] *)
  clock : N;
  (* the lines written by [console.error] *)
  console : list string;
  (* every call made so far, oldest first *)
  trace : list event;
}.

(** The module-level variables together with the world. *)
Record state := mkState {
  currentRepo : option Repository;
  currentRepoPath : option string;
  world : World;
}.

(** Updates of one field at a time. *)
Definition with_world (f : World → World) (st : state) : state :=
  mkState (currentRepo st) (currentRepoPath st) (f (world st)).

Definition with_disk (f : gmap string node → gmap string node) (w : World)
  : World :=
  mkWorld (f (disk w)) (io_error w) (temp_serial w) (clone_oracle w)
    (git_fault w) (next_handle w) (clock w) (console w) (trace w).

Definition with_console (line : string) (w : World) : World :=
  mkWorld (disk w) (io_error w) (temp_serial w) (clone_oracle w)
    (git_fault w) (next_handle w) (clock w) (console w ++ [line]) (trace w).

Definition with_clock (ms : N) (w : World) : World :=
  mkWorld (disk w) (io_error w) (temp_serial w) (clone_oracle w)
    (git_fault w) (next_handle w) (clock w + ms) (console w) (trace w).

Definition with_event (ev : event) (w : World) : World :=
  mkWorld (disk w) (io_error w) (temp_serial w) (clone_oracle w)
    (git_fault w) (next_handle w) (clock w) (console w) (trace w ++ [ev]).

Definition next_temp (w : World) : World :=
  mkWorld (disk w) (io_error w) (S (temp_serial w)) (clone_oracle w)
    (git_fault w) (next_handle w) (clock w) (console w) (trace w).

Definition next_clone (w : World) : World :=
  mkWorld (disk w) (io_error w) (temp_serial w) (λ n, clone_oracle w (S n))
    (git_fault w) (next_handle w) (clock w) (console w) (trace w).

Definition next_git (w : World) : World :=
  mkWorld (disk w) (io_error w) (temp_serial w) (clone_oracle w)
    (λ n, git_fault w (S n)) (next_handle w) (clock w) (console w) (trace w).

Definition fresh_handle (w : World) : World :=
  mkWorld (disk w) (io_error w) (temp_serial w) (clone_oracle w)
    (git_fault w) (S (next_handle w)) (clock w) (console w) (trace w).

Definition with_git_fault (f : nat → option thrown) (w : World) : World :=
  mkWorld (disk w) (io_error w) (temp_serial w) (clone_oracle w)
    f (next_handle w) (clock w) (console w) (trace w).

(** ** The monad *)

Inductive completion (A : Type) :=
  | Return (a : A)
  | Throw (error : thrown).
Arguments Return {A} a.
Arguments Throw {A} error.

Definition M (A : Type) : Type := state → completion A * state.

Definition ret {A} (a : A) : M A := λ st, (Return a, st).
Definition throw {A} (error : thrown) : M A := λ st, (Throw error, st).

Definition bind {A B} (m : M A) (k : A → M B) : M B := λ st,
  match m st with
  | (Return a, st') => k a st'
  | (Throw error, st') => (Throw error, st')
  end.

(** [try { body } catch (error) { handler }] *)
Definition try_catch {A} (body : M A) (handler : thrown → M A) : M A := λ st,
  match body st with
  | (Return a, st') => (Return a, st')
  | (Throw error, st') => handler error st'
  end.

Global Instance M_ret : MRet M := @ret.
Global Instance M_bind : MBind M := λ A B k m, bind m k.

(** Reading and assigning the module variables. *)
Definition get : M state := λ st, (Return st, st).
Definition set_currentRepo (r : option Repository) : M unit := λ st,
  (Return (), mkState r (currentRepoPath st) (world st)).
Definition set_currentRepoPath (p : option string) : M unit := λ st,
  (Return (), mkState (currentRepo st) p (world st)).

(** Record a call together with the module variables at that moment. *)
Definition observe (c : action) (f : option thrown) (st : state) : state :=
  with_world (with_event (mkEvent c f (currentRepo st) (currentRepoPath st))) st.

(** A call that returns [a] and leaves the world as [f] makes it. *)
Definition returns {A} (c : action) (a : A) (f : World → World) : M A :=
  λ st, (Return a, with_world f (observe c None st)).

(** A call that throws [error] and leaves the world as [f] makes it. *)
Definition throws {A} (c : action) (error : thrown) (f : World → World)
  : M A :=
  λ st, (Throw error, with_world f (observe c (Some error) st)).


(** ** Deno *)

Module Deno.

(** The default directory for temporary files. *)
Definition TMPDIR : string := "/tmp".

Definition not_found (what path : string) : thrown :=
  ThrownError (mkError NotFound
    ("No such file or directory (os error 2): " +:+ what +:+ " '"
     +:+ path +:+ "'")).

Definition deno_error (class text what path : string) : thrown :=
  ThrownError (mkError (DenoError class)
    (text +:+ ": " +:+ what +:+ " '" +:+ path +:+ "'")).

(** [Deno.makeTempDir({ prefix })]: a new directory under [TMPDIR] whose
    name is the prefix followed by a serial that is never handed out
    twice.  The call fails when the name is taken all the same. *)
Definition makeTempDir (prefix : string) : M string := λ st,
  let w := world st in
  let path := TMPDIR +:+ "/" +:+ prefix +:+ pretty (temp_serial w) in
  match io_error w !! TMPDIR with
  | Some error => throws (MakeTempDir prefix) error id st
  | None =>
    if free path (disk w)
    then returns (MakeTempDir prefix) path
           (λ w, next_temp (with_disk (<[path := Dir]>) w)) st
    else throws (MakeTempDir prefix)
           (deno_error "AlreadyExists" "File exists (os error 17)"
              "mkdir" path) next_temp st
  end.

(** [Deno.remove(path, { recursive: true })] *)
Definition remove (path : string) : M unit := λ st,
  let w := world st in
  match io_error w !! path with
  | Some error => throws (Remove path) error id st
  | None =>
    match disk w !! path with
    | Some _ => returns (Remove path) () (with_disk (prune path)) st
    | None => throws (Remove path) (not_found "remove" path) id st
    end
  end.

(** [Deno.readTextFile(path)] *)
Definition readTextFile (path : string) : M string := λ st,
  let w := world st in
  match io_error w !! path with
  | Some error => throws (ReadTextFile path) error id st
  | None =>
    match disk w !! path with
    | Some (File text) => returns (ReadTextFile path) text id st
    | Some Dir =>
        throws (ReadTextFile path)
          (deno_error "IsADirectory" "Is a directory (os error 21)"
             "readfile" path) id st
    | None => throws (ReadTextFile path) (not_found "readfile" path) id st
    end
  end.

(** [Deno.stat(path)]; the module ignores the file information. *)
Definition stat (path : string) : M node := λ st,
  let w := world st in
  match io_error w !! path with
  | Some error => throws (Stat path) error id st
  | None =>
    match disk w !! path with
    | Some n => returns (Stat path) n id st
    | None => throws (Stat path) (not_found "stat" path) id st
    end
  end.

(** [Deno.readDir(path)], iterated to its end. *)
Definition readDir (path : string) : M (list DirEntry) := λ st,
  let w := world st in
  match io_error w !! path with
  | Some error => throws (ReadDir path) error id st
  | None =>
    match disk w !! path with
    | Some Dir => returns (ReadDir path) (children path (disk w)) id st
    | Some (File _) =>
        throws (ReadDir path)
          (deno_error "NotADirectory" "Not a directory (os error 20)"
             "readdir" path) id st
    | None => throws (ReadDir path) (not_found "readdir" path) id st
    end
  end.

End Deno.

(** [setTimeout(resolve, ms)] awaited: at least [ms] milliseconds pass. *)
Definition setTimeout (ms : N) : M unit :=
  returns (SetTimeout ms) () (with_clock ms).

(** [console.error(line)] *)
Definition console_error (line : string) : M unit := λ st,
  (Return (), with_world (with_console line) st).

(** ** es-git *)

Module EsGit.

Record Remote := mkRemote { remote_repo : Repository; remote_name : string }.

(** A clone needs a destination that does not exist or is an empty
    directory. *)
Definition clonable (path : string) (d : gmap string node) : bool :=
  match d !! path with
  | Some (File _) => false
  | _ => vacant path d
  end.

(** [cloneRepository(url, path)] *)
Definition cloneRepository (url path : string) : M Repository := λ st,
  let w := world st in
  if clonable path (disk w) then
    match clone_oracle w 0%nat with
    | CloneOk checkout =>
        returns (CloneRepository url path)
          (mkRepository (next_handle w) path)
          (λ w, fresh_handle (next_clone (with_disk (graft path checkout) w)))
          st
    | CloneFail (Some residue) error =>
        throws (CloneRepository url path) error
          (λ w, next_clone (with_disk (graft path residue) w)) st
    | CloneFail None error =>
        throws (CloneRepository url path) error next_clone st
    end
  else
    throws (CloneRepository url path)
      (ThrownError (new_Error
         ("'" +:+ path +:+ "' exists and is not an empty directory")))
      next_clone st.

(** [repo.getRemote(name)] *)
Definition getRemote (repo : Repository) (name : string) : M Remote := λ st,
  match git_fault (world st) 0%nat with
  | Some error => throws (GetRemote repo name) error next_git st
  | None => returns (GetRemote repo name) (mkRemote repo name) next_git st
  end.

(** [remote.fetch(refspecs)]: the objects and remote-tracking refs it
    brings live inside the repository; no checked-out file changes. *)
Definition fetch (remote : Remote) (refspecs : list string) : M unit :=
  λ st,
  let c := Fetch (remote_repo remote) (remote_name remote) in
  match git_fault (world st) 0%nat with
  | Some error => throws c error next_git st
  | None => returns c () next_git st
  end.

(** [openRepository(path)] *)
Definition openRepository (path : string) : M Repository := λ st,
  let w := world st in
  match git_fault w 0%nat with
  | Some error => throws (OpenRepository path) error next_git st
  | None =>
    match disk w !! path with
    | Some Dir =>
        returns (OpenRepository path) (mkRepository (next_handle w) path)
          (λ w, fresh_handle (next_git w)) st
    | _ =>
        throws (OpenRepository path)
          (ThrownError (new_Error
             ("could not find repository at '" +:+ path +:+ "'")))
          next_git st
    end
  end.

End EsGit.

(** ** [src/repository.ts] *)

(** The FEP repository URL *)
Definition FEP_REPO_URL : string := "https://codeberg.org/fediverse/fep.git".

(** Maximum retry attempts for clone operation *)
Definition MAX_RETRIES : nat := 3.

(** Base delay for exponential backoff (ms) *)
Definition BASE_DELAY_MS : N := 1000.

(** The module as it is when loaded: both variables are [null]. *)
Definition loaded (w : World) : state := mkState None None w.

(** JavaScript truthiness of a [string | null]: [null] and the empty string
    are falsy. *)
Definition truthy (v : option string) : option string :=
  match v with
  | Some s => if String.eqb s "" then None else Some s
  | None => None
  end.

Definition not_initialized : thrown :=
  ThrownError (new_Error
    "Repository not initialized. Call initializeRepository() first.").

(** Creates a unique temporary directory for the FEP repository. *)
Definition createTempDir : M string := Deno.makeTempDir "fep-mcp-".

(** Cleans up the old repository directory if it exists. *)
Definition cleanupOldRepo (path : string) : M unit :=
  try_catch (Deno.remove path)
    (λ error,
      (* Ignore errors if the directory doesn't exist *)
      if negb (instanceof_NotFound error) then
        console_error ("Warning: Failed to cleanup old repo at " +:+ path
                       +:+ ": " +:+ inspect error)
      else mret ()).

(** Delays execution for the specified milliseconds. *)
Definition delay (ms : N) : M unit := setTimeout ms.

(** What one turn of the retry loop ends in: the function returns, or the
    loop goes on with the error it caught. *)
Inductive turn :=
  | Returned (repo : Repository)
  | Caught (lastError : JsError).

(** The body of [for (let attempt = 1; attempt <= MAX_RETRIES; attempt++)]
    run for the attempt numbers still to come, then the [throw] that
    follows the loop. *)
Fixpoint clone_attempts (attempts : list nat) (lastError : option JsError)
    (destPath : string) : M Repository :=
  match attempts with
  | [] =>
      throw (ThrownError (new_Error
        ("Failed to clone FEP repository after " +:+ pretty MAX_RETRIES
         +:+ " attempts: " +:+ optional_message lastError)))
  | attempt :: later =>
      t ← try_catch
            (console_error ("Cloning FEP repository (attempt "
               +:+ pretty attempt +:+ "/" +:+ pretty MAX_RETRIES +:+ ")...");;
             repo ← EsGit.cloneRepository FEP_REPO_URL destPath;
             console_error "FEP repository cloned successfully.";;
             mret (Returned repo))
            (λ error,
              let lastError := as_Error error in
              console_error ("Clone attempt " +:+ pretty attempt
                 +:+ " failed: " +:+ message lastError);;
              (if (attempt <? MAX_RETRIES)%nat then
                 let delayMs :=
                   BASE_DELAY_MS * 2 ^ N.of_nat (attempt - 1) in
                 console_error ("Retrying in " +:+ pretty delayMs
                                +:+ "ms...");;
                 delay delayMs;;
                 (* Clean up failed clone attempt *)
                 cleanupOldRepo destPath
               else mret ());;
              mret (Caught lastError));
      match t with
      | Returned repo => mret repo
      | Caught lastError => clone_attempts later (Some lastError) destPath
      end
  end.

(** Clones the FEP repository with retry logic. *)
Definition cloneWithRetry (destPath : string) : M Repository :=
  clone_attempts (seq 1 MAX_RETRIES) None destPath.

(** Initializes the FEP repository by cloning it to a temporary directory. *)
Definition initializeRepository : M string :=
  st ← get;
  (* Clean up previous repo if exists *)
  match truthy (currentRepoPath st) with
  | Some path =>
      cleanupOldRepo path;;
      set_currentRepo None;;
      set_currentRepoPath None
  | None => mret ()
  end;;
  repoPath ← createTempDir;
  repo ← cloneWithRetry repoPath;
  set_currentRepo (Some repo);;
  set_currentRepoPath (Some repoPath);;
  mret repoPath.

(** Gets the current repository path. *)
Definition getRepositoryPath : M (option string) :=
  st ← get; mret (currentRepoPath st).

(** Refreshes the repository by fetching the latest changes from origin. *)
Definition refreshRepository : M unit :=
  st ← get;
  match currentRepo st, truthy (currentRepoPath st) with
  | Some repo, Some path =>
      try_catch
        (console_error "Fetching latest FEP documents...";;
         remote ← EsGit.getRemote repo "origin";
         EsGit.fetch remote [];;
         (* Re-open the repository to get the latest state *)
         reopened ← EsGit.openRepository path;
         set_currentRepo (Some reopened);;
         console_error "FEP repository refreshed successfully.")
        (λ error,
          let message := message_or_String error in
          throw (ThrownError (new_Error
            ("Failed to refresh repository: " +:+ message))))
  | _, _ => throw not_initialized
  end.

(** Reads a file from the repository. *)
Definition readFile (relativePath : string) : M string :=
  st ← get;
  match truthy (currentRepoPath st) with
  | None => throw not_initialized
  | Some path =>
      let fullPath := path +:+ "/" +:+ relativePath in
      try_catch (Deno.readTextFile fullPath)
        (λ error,
          if instanceof_NotFound error then
            throw (ThrownError (new_Error
              ("File not found: " +:+ relativePath)))
          else throw error)
  end.

(** Checks if a file exists in the repository. *)
Definition fileExists (relativePath : string) : M bool :=
  st ← get;
  match truthy (currentRepoPath st) with
  | None => mret false
  | Some path =>
      let fullPath := path +:+ "/" +:+ relativePath in
      try_catch (Deno.stat fullPath;; mret true) (λ _, mret false)
  end.

(** Lists files in a directory within the repository. *)
Definition listDirectory (relativePath : string) : M (list string) :=
  st ← get;
  match truthy (currentRepoPath st) with
  | None => throw not_initialized
  | Some path =>
      let fullPath := path +:+ "/" +:+ relativePath in
      entries ← try_catch
                  (dir ← Deno.readDir fullPath;
                   mret (foldl (λ entries entry, entries ++ [name entry])
                           [] dir))
                  (λ error,
                    if instanceof_NotFound error then
                      throw (ThrownError (new_Error
                        ("Directory not found: " +:+ relativePath)))
                    else throw error);
      mret entries
  end.

(** Cleans up the repository on shutdown. *)
Definition cleanupRepository : M unit :=
  st ← get;
  match truthy (currentRepoPath st) with
  | Some path =>
      cleanupOldRepo path;;
      set_currentRepo None;;
      set_currentRepoPath None
  | None => mret ()
  end.

(** ** Vocabulary of the statements *)

(** The handle is not usable: [!currentRepoPath] holds. *)
Definition dormant (st : state) : Prop := truthy (currentRepoPath st) = None.

(** Both variables are [null]. *)
Definition cleared (st : state) : Prop :=
  currentRepo st = None ∧ currentRepoPath st = None.

(** The handle holds a repository object and the path [path]. *)
Definition ready_at (path : string) (st : state) : Prop :=
  is_Some (currentRepo st) ∧ currentRepoPath st = Some path ∧ path ≠ "".

(** The invariant of the handle: neither variable is set without the
    other. *)
Definition together (repo : option Repository) (path : option string)
  : Prop :=
  path = None ↔ repo = None.

Global Instance Repository_eq_dec : EqDecision Repository.
Proof. solve_decision. Defined.

Global Instance dormant_dec st : Decision (dormant st).
Proof. unfold dormant. apply _. Defined.

Global Instance cleared_dec st : Decision (cleared st).
Proof. unfold cleared. apply _. Defined.

Global Instance together_dec repo path : Decision (together repo path).
Proof. unfold together. apply _. Defined.

(** The calls made between [st] and a later state [st']. *)
Definition since (st st' : state) : list event :=
  drop (length (trace (world st))) (trace (world st')).

(** A call and how it ended, without the snapshot of the variables. *)
Definition outcome (ev : event) : action * option thrown :=
  (call ev, failure ev).

(** The errors the module raises itself. *)
Definition file_not_found (relativePath : string) : thrown :=
  ThrownError (new_Error ("File not found: " +:+ relativePath)).

Definition directory_not_found (relativePath : string) : thrown :=
  ThrownError (new_Error ("Directory not found: " +:+ relativePath)).

Definition refresh_failed (cause : thrown) : thrown :=
  ThrownError (new_Error
    ("Failed to refresh repository: " +:+ message_or_String cause)).

(** The error of an exhausted retry loop in the words of the
    specification: the attempt count and the last failure. *)
Definition clone_failed (cause : thrown) : thrown :=
  ThrownError (new_Error
    ("Failed to clone FEP repository after 3 attempts: "
     +:+ message_or_String cause)).

(** [needle] occurs in [hay]. *)
Definition includes (hay needle : string) : Prop :=
  ∃ before after, hay = before +:+ needle +:+ after.

(** The invariant holds now and held at every call made so far, which are
    the moments at which other code can look at the variables. *)
Definition steady (st : state) : Prop :=
  together (currentRepo st) (currentRepoPath st) ∧
  Forall (λ ev, together (seen_repo ev) (seen_path ev)) (trace (world st)).

(** The call [ev] saw the variables as they are in [st]. *)
Definition seen_as (st : state) (ev : event) : Prop :=
  seen_repo ev = currentRepo st ∧ seen_path ev = currentRepoPath st.

(** A computation that leaves the two variables alone: it does not assign
    them, and every call it makes sees them as they were on entry. *)
Definition quiet {A} (m : M A) : Prop :=
  ∀ st,
    currentRepo (m st).2 = currentRepo st ∧
    currentRepoPath (m st).2 = currentRepoPath st ∧
    ∃ evs, trace (world (m st).2) = trace (world st) ++ evs ∧
           Forall (seen_as st) evs.

(** A computation that never throws. *)
Definition safe {A} (m : M A) : Prop := ∀ st, ∃ a, (m st).1 = Return a.

(** The operations the module exports, and a session of them. *)
Inductive operation :=
  | Initialize
  | Refresh
  | ReadFile (relativePath : string)
  | FileExists (relativePath : string)
  | ListDirectory (relativePath : string)
  | GetRepositoryPath
  | Teardown.

(** The state an operation leaves, and whether it returned. *)
Definition settle {A} (r : completion A * state) : bool * state :=
  (match r.1 with Return _ => true | Throw _ => false end, r.2).

Definition perform (op : operation) (st : state) : bool * state :=
  match op with
  | Initialize => settle (initializeRepository st)
  | Refresh => settle (refreshRepository st)
  | ReadFile p => settle (readFile p st)
  | FileExists p => settle (fileExists p st)
  | ListDirectory p => settle (listDirectory p st)
  | GetRepositoryPath => settle (getRepositoryPath st)
  | Teardown => settle (cleanupRepository st)
  end.

Definition session (ops : list operation) (st : state) : state :=
  foldl (λ st op, (perform op st).2) st ops.

(** [d'] holds what [d] holds everywhere but at [p] and below it. *)
Definition same_outside (p : string) (d d' : gmap string node) : Prop :=
  ∀ q, under p q = false → d' !! q = d !! q.

(** The delay the loop computes after a failed attempt. *)
Definition backoff (attempt : nat) : N :=
  BASE_DELAY_MS * 2 ^ N.of_nat (attempt - 1).

(** The calls of the attempts that failed and were retried: for each, what
    the clone threw and how the removal after the wait ended. *)
Fixpoint retries (dest : string) (repo : option Repository)
    (path : option string) (attempt : nat)
    (failed : list (thrown * option thrown)) : list event :=
  match failed with
  | [] => []
  | (error, removal) :: later =>
      mkEvent (CloneRepository FEP_REPO_URL dest) (Some error) repo path ::
      mkEvent (SetTimeout (backoff attempt)) None repo path ::
      mkEvent (Remove dest) removal repo path ::
      retries dest repo path (S attempt) later
  end.

(** The calls of a whole run of the loop, [final] being how its last
    attempt ended. *)
Definition course (dest : string) (repo : option Repository)
    (path : option string) (failed : list (thrown * option thrown))
    (final : option thrown) : list event :=
  retries dest repo path 1 failed ++
  [mkEvent (CloneRepository FEP_REPO_URL dest) final repo path].

(** The time spent waiting after [n] failed attempts, the first of which
    was attempt number [attempt]. *)
Fixpoint waited (attempt n : nat) : N :=
  match n with
  | O => 0
  | S n => backoff attempt + waited (S attempt) n
  end.

(** How each clone attempt among [evs] ended. *)
Definition attempts_of (evs : list event) : list (option thrown) :=
  omap (λ ev, match call ev with
              | CloneRepository _ _ => Some (failure ev)
              | _ => None
              end) evs.

(** The retry policy in the words of the specification, as the calls of a
    run of [n] attempts: after failed attempt [k] wait 1000 * 2^(k-1) ms,
    then delete what the attempt left in the destination, then clone into
    the same path again. *)
Definition retry_schedule (dest : string) (n : nat) : list action :=
  CloneRepository FEP_REPO_URL dest ::
  flat_map (λ k, [SetTimeout (1000 * 2 ^ N.of_nat (k - 1));
                  Remove dest;
                  CloneRepository FEP_REPO_URL dest])
    (seq 1 (n - 1)).

(** ** The two long operations in phases *)

(** What [initializeRepository] does once the old copy is forgotten:
    allocate the directory and clone into it. *)
Definition acquire : M (string * Repository) :=
  repoPath ← createTempDir;
  repo ← cloneWithRetry repoPath;
  mret (repoPath, repo).

(** What [refreshRepository] does before it assigns [currentRepo]. *)
Definition renew (repo : Repository) (path : string) : M Repository :=
  console_error "Fetching latest FEP documents...";;
  remote ← EsGit.getRemote repo "origin";
  EsGit.fetch remote [];;
  EsGit.openRepository path.

(** The handle is cleared, or it holds a repository object opened at the
    non-empty path it also holds. *)
Definition coherent (st : state) : Prop :=
  cleared st ∨
  ∃ repo path,
    currentRepo st = Some repo ∧ currentRepoPath st = Some path ∧
    path ≠ "" ∧ repo_path repo = path.

(** Everything in the world but the record of calls is as it was. *)
Definition untouched (w w' : World) : Prop :=
  disk w' = disk w ∧ io_error w' = io_error w ∧
  temp_serial w' = temp_serial w ∧ clone_oracle w' = clone_oracle w ∧
  git_fault w' = git_fault w ∧ next_handle w' = next_handle w ∧
  clock w' = clock w ∧ console w' = console w.

(** The operations that only look at the working copy. *)
Definition reads (op : operation) : bool :=
  match op with
  | ReadFile _ | FileExists _ | ListDirectory _ | GetRepositoryPath => true
  | Initialize | Refresh | Teardown => false
  end.

(** The operations that do not assign [currentRepoPath]. *)
Definition stays (op : operation) : bool :=
  match op with
  | Initialize | Teardown => false
  | _ => true
  end.

(** The warning [cleanupOldRepo] logs. *)
Definition cleanup_warning (path : string) (error : thrown) : string :=
  "Warning: Failed to cleanup old repo at " +:+ path +:+ ": "
  +:+ inspect error.

(** ** Sample worlds *)

(** A small checkout of the FEP repository. *)
Definition sample_checkout : tree :=
  {[ "index.json" := File "[]";
     "fep" := Dir;
     "fep/a4ed" := Dir;
     "fep/a4ed/fep-a4ed.md" := File "# FEP-a4ed" ]}.

(** An empty disk and a remote that always answers. *)
Definition calm : World :=
  mkWorld ∅ ∅ 0 (λ _, CloneOk sample_checkout) (λ _, None) 0 0%N [] [].

(** The module after a first successful [initializeRepository]. *)
Definition served : state := (initializeRepository (loaded calm)).2.

(** The served module, with a remote that cannot be reached any more. *)
Definition unreachable : thrown :=
  ThrownError (new_Error "failed to resolve address for codeberg.org").

Definition offline : state :=
  with_world (with_git_fault (λ n, match n with
                                   | 1%nat => Some unreachable
                                   | _ => None
                                   end)) served.

(** The served module, whose repository cannot be opened again. *)
Definition locked : thrown :=
  ThrownError (new_Error "failed to open repository: resource busy").

Definition stale : state :=
  with_world (with_git_fault (λ n, match n with
                                   | 2%nat => Some locked
                                   | _ => None
                                   end)) served.

(** A remote that fails twice, leaving a partial clone the first time, and
    then answers. *)
Definition timeout : thrown :=
  ThrownError (new_Error "operation timed out").
Definition reset : thrown := ThrownValue "connection reset by peer".

Definition flaky : World :=
  mkWorld ∅ ∅ 0
    (λ n, match n with
          | 0 => CloneFail (Some {[ ".git" := Dir;
                                    ".git/HEAD" := File "ref: " ]}) timeout
          | 1 => CloneFail None reset
          | _ => CloneOk sample_checkout
          end%nat)
    (λ _, None) 0 0 [] [].

(** A remote that never answers; the last attempt leaves a partial clone. *)
Definition hopeless : World :=
  mkWorld ∅ ∅ 0
    (λ n, match n with
          | 0 => CloneFail (Some {[ ".git" := Dir ]}) timeout
          | 1 => CloneFail None reset
          | _ => CloneFail (Some {[ ".git" := Dir;
                                    ".git/config" := File "[core]" ]})
                   unreachable
          end%nat)
    (λ _, None) 0 0 [] [].

(** A disk on which the first working copy cannot be removed. *)
Definition busy : thrown :=
  ThrownError (mkError (DenoError "PermissionDenied")
    "Permission denied (os error 13): remove '/tmp/fep-mcp-0'").

Definition sticky : World :=
  mkWorld ∅ {[ "/tmp/fep-mcp-0" := busy ]} 0
    (λ _, CloneOk sample_checkout) (λ _, None) 0 0 [] [].

(** A system on which no temporary directory can be made. *)
Definition read_only_tmp : thrown :=
  ThrownError (mkError (DenoError "PermissionDenied")
    "Permission denied (os error 13): mkdir '/tmp/fep-mcp-1'").

Definition cramped : state :=
  with_world (λ w, mkWorld (disk w) {[ "/tmp" := read_only_tmp ]}
                     (temp_serial w) (clone_oracle w) (git_fault w)
                     (next_handle w) (clock w) (console w) (trace w))
    served.

(** ** JavaScript strings *)

(** The methods of [String.prototype] that [src/tools.ts] calls, on strings
    of 8-bit code units (U+0000 to U+00FF).  Indices and lengths are
    JavaScript numbers, here integers; [-1] is the index of no match. *)
Module JsString.

(** The lower-case mapping of one code unit: A to Z, and À to Þ but for the
    multiplication sign. *)
Definition lower (c : ascii) : ascii :=
  let n := N_of_ascii c in
  if ((65 <=? n) && (n <=? 90))
     || ((192 <=? n) && (n <=? 222) && negb (n =? 215))
  then ascii_of_N (n + 32)
  else c.

(** [s.toLowerCase()] *)
Fixpoint toLowerCase (s : string) : string :=
  match s with
  | EmptyString => EmptyString
  | String c rest => String (lower c) (toLowerCase rest)
  end.

(** The class [\s] of a regular expression: tab, line feed, vertical tab,
    form feed, carriage return, space and no-break space. *)
Definition is_space (c : ascii) : bool :=
  let n := N_of_ascii c in
  ((9 <=? n) && (n <=? 13)) || (n =? 32) || (n =? 160).

(** [s.split(/\s+/)]: the pieces between the maximal runs of white space.
    [piece] is the piece being read and [gap] tells that the last
    character closed one. *)
Fixpoint split_from (s piece : string) (gap : bool) : list string :=
  match s with
  | EmptyString => [piece]
  | String c rest =>
      if is_space c then
        if gap then split_from rest piece true
        else piece :: split_from rest "" true
      else split_from rest (piece +:+ String c "") false
  end.

Definition split_whitespace (s : string) : list string :=
  split_from s "" false.

(** [s.length] *)
Definition length (s : string) : Z := Z.of_nat (String.length s).

(** [s.indexOf(search)] *)
Definition indexOf (s search : string) : Z :=
  match String.index 0 search s with
  | Some i => Z.of_nat i
  | None => (-1)%Z
  end.

(** [s.includes(search)] *)
Definition includes (s search : string) : bool :=
  match String.index 0 search s with
  | Some _ => true
  | None => false
  end.

(** [s.substring(start, end)]: both indices are clamped to the string and
    swapped when they come in the wrong order. *)
Definition substring (s : string) (start finish : Z) : string :=
  let len := length s in
  let a := Z.min (Z.max start 0) len in
  let b := Z.min (Z.max finish 0) len in
  let from := Z.min a b in
  let to := Z.max a b in
  String.substring (Z.to_nat from) (Z.to_nat (to - from)) s.

End JsString.

(** ** [src/types.ts] *)

Module Types.

(** FEP status values. *)
Inductive FepStatus := DRAFT | FINAL | WITHDRAWN.

Global Instance FepStatus_eq_dec : EqDecision FepStatus.
Proof. solve_decision. Defined.

(** Metadata for a Fediverse Enhancement Proposal.  An optional property
    that is absent is [None]. *)
Record FepMetadata := mkFepMetadata {
  slug : string;
  title : string;
  authors : string;
  status : FepStatus;
  dateReceived : string;
  dateFinalized : option string;
  dateWithdrawn : option string;
  trackingIssue : option string;
  discussionsTo : option string;
  implementations : option Z;
}.

(** The FEP index structure (from index.json). *)
Definition FepIndex : Type := list FepMetadata.

(** Search result for FEP search. *)
Record FepSearchResult := mkFepSearchResult {
  fep : FepMetadata;
  score : Z;
  snippet : option string;
}.

End Types.

(** ** JavaScript arrays *)

Module JsArray.

(** [array.sort(compare)].  The sort of the language is stable: with a
    comparison that orders the elements it returns the one arrangement in
    which an element comes before another when [compare] is negative, and
    elements that compare equal keep their order.  That arrangement is
    computed here by insertion from the right. *)
Fixpoint insert {A} (compare : A → A → Z) (x : A) (sorted : list A)
  : list A :=
  match sorted with
  | [] => [x]
  | y :: rest =>
      if bool_decide (compare x y ≤ 0)%Z then x :: y :: rest
      else y :: insert compare x rest
  end.

Definition sort {A} (compare : A → A → Z) (array : list A) : list A :=
  foldr (insert compare) [] array.

(** [array.slice(0, n)] *)
Definition slice0 {A} (n : nat) (array : list A) : list A := take n array.

(** [array.find(predicate)] *)
Definition find {A} (predicate : A → bool) (array : list A) : option A :=
  List.find predicate array.

End JsArray.

(** ** [src/tools.ts] *)

Module Tools.

(** Simple text search scoring. *)
Definition calculateScore (text query : string) : Z :=
  let lowerText := JsString.toLowerCase text in
  let lowerQuery := JsString.toLowerCase query in
  let words := filter (λ w, (JsString.length w > 0)%Z)
                 (JsString.split_whitespace lowerQuery) in
  foldl (λ score word,
    if JsString.includes lowerText word then
      let score := (score + 1)%Z in
      (* Bonus for exact phrase match *)
      if JsString.includes lowerText lowerQuery then (score + 2)%Z
      else score
    else score) 0%Z words.

(** Gets a text snippet around the first match. *)
Definition getSnippet (text query : string) (maxLength : Z) : string :=
  let lowerText := JsString.toLowerCase text in
  let lowerQuery := JsString.toLowerCase query in
  let words := filter (λ w, (JsString.length w > 0)%Z)
                 (JsString.split_whitespace lowerQuery) in
  let firstMatchIndex :=
    foldl (λ firstMatchIndex word,
      let idx := JsString.indexOf lowerText word in
      if bool_decide (idx ≠ (-1)%Z)
         && (bool_decide (firstMatchIndex = (-1)%Z)
             || bool_decide (idx < firstMatchIndex)%Z)
      then idx
      else firstMatchIndex) (-1)%Z words in
  if bool_decide (firstMatchIndex = (-1)%Z) then
    JsString.substring text 0 maxLength
    +:+ (if bool_decide (JsString.length text > maxLength)%Z then "..."
         else "")
  else
    let start := Z.max 0 (firstMatchIndex - 50) in
    let finish := Z.min (JsString.length text) (start + maxLength) in
    let snippet := JsString.substring text start finish in
    let snippet := if bool_decide (start > 0)%Z then "..." +:+ snippet
                   else snippet in
    let snippet := if bool_decide (finish < JsString.length text)%Z
                   then snippet +:+ "..."
                   else snippet in
    snippet.

(** The default of the parameter [maxLength]. *)
Definition maxLength_default : Z := 200.

(** What a tool hands back: the text of its one content item, and whether
    [isError] is set. *)
Record CallToolResult := mkCallToolResult {
  text : string;
  isError : bool;
}.

(** The catch block of every tool. *)
Definition error_result (error : thrown) : CallToolResult :=
  let message := message_or_String error in
  {| text := "Error: " +:+ message; isError := true |}.

(** The path of the document of a FEP in the repository. *)
Definition docPath (slug : string) : string :=
  "fep/" +:+ slug +:+ "/fep-" +:+ slug +:+ ".md".

(** The body of the loop of [search_feps] for one entry of the index: the
    score and the snippet that it ends with. *)
Definition search_feps_entry (query : string) (fep : Types.FepMetadata)
  : M (Z * option string) :=
  (* Score based on title and authors *)
  let score := (calculateScore (Types.title fep) query * 3)%Z in
  let score := (score + calculateScore (Types.authors fep) query * 2)%Z in
  if bool_decide (score > 0)%Z then
    try_catch
      (let docPath := docPath (Types.slug fep) in
       content ← readFile docPath;
       let contentScore := calculateScore content query in
       if bool_decide (contentScore > 0)%Z then
         mret ((score + contentScore)%Z,
               Some (getSnippet content query maxLength_default))
       else mret (score, None))
      (λ _, (* Ignore if we can't read the content *) mret (score, None))
  else
    (* If no title/author match, still search content *)
    try_catch
      (let docPath := docPath (Types.slug fep) in
       content ← readFile docPath;
       let contentScore := calculateScore content query in
       if bool_decide (contentScore > 0)%Z then
         mret (contentScore,
               Some (getSnippet content query maxLength_default))
       else mret (score, None))
      (λ _, mret (score, None)).

(** The loop of [search_feps] over the index. *)
Fixpoint search_feps_loop (query : string) (index : Types.FepIndex)
    (results : list Types.FepSearchResult)
  : M (list Types.FepSearchResult) :=
  match index with
  | [] => mret results
  | fep :: rest =>
      found ← search_feps_entry query fep;
      let '(score, snippet) := found in
      search_feps_loop query rest
        (if bool_decide (score > 0)%Z
         then results ++ [Types.mkFepSearchResult fep score snippet]
         else results)
  end.

(** The results of [search_feps] before they are serialized. *)
Definition search_feps_results (query : string) (index : Types.FepIndex)
  : M (list Types.FepSearchResult) :=
  results ← search_feps_loop query index [];
  (* Sort by score descending *)
  let results :=
    JsArray.sort (λ a b, (Types.score b - Types.score a)%Z) results in
  (* Return top 20 results *)
  let topResults := JsArray.slice0 20 results in
  mret topResults.

(** Tool: refresh_repository *)
Definition refresh_repository : M CallToolResult :=
  try_catch
    (refreshRepository;;
     mret {| text := "FEP repository refreshed successfully.";
             isError := false |})
    (λ error, mret (error_result error)).

(** What [list_feps] shows of an entry. *)
Record FepListing := mkFepListing {
  listed_slug : string;
  listed_title : string;
  listed_status : Types.FepStatus;
  listed_authors : string;
  listed_dateReceived : string;
  listed_dateFinalized : option string;
  listed_dateWithdrawn : option string;
}.

Section json.

(** [JSON.parse(content) as FepIndex]: the index that is read, or the
    error that is thrown; [JSON.stringify(value, null, 2)]; and
    [parseFrontmatter] of [src/yaml.ts], which returns the metadata and
    the body of a document or throws. *)
Context (JSON_parse : string → thrown + Types.FepIndex).
Context (JSON_stringify : ∀ A : Type, A → string).
Context (parseFrontmatter :
           string → option string → thrown + (Types.FepMetadata * string)).

(** Loads the FEP index from index.json. *)
Definition loadIndex : M Types.FepIndex :=
  content ← readFile "index.json";
  match JSON_parse content with
  | inl error => throw error
  | inr index => mret index
  end.

(** Gets a specific FEP document by slug. *)
Definition getFepDocument (slug : string) (index : Types.FepIndex)
  : M (Types.FepMetadata * string) :=
  match JsArray.find (λ fep, bool_decide (Types.slug fep = slug)) index with
  | None => throw (ThrownError (new_Error ("FEP not found: " +:+ slug)))
  | Some indexEntry =>
      let docPath := docPath slug in
      content ← readFile docPath;
      match parseFrontmatter content (Some (Types.title indexEntry)) with
      | inl error => throw error
      | inr (metadata, body) =>
          (* Merge index metadata with parsed metadata (index is more
             reliable) *)
          let mergedMetadata :=
            Types.mkFepMetadata (Types.slug metadata)
              (Types.title indexEntry) (Types.authors metadata)
              (Types.status metadata) (Types.dateReceived metadata)
              (Types.dateFinalized metadata) (Types.dateWithdrawn metadata)
              (Types.trackingIssue metadata) (Types.discussionsTo metadata)
              (Types.implementations indexEntry) in
          mret (mergedMetadata, body)
      end
  end.

(** Tool: list_feps *)
Definition list_feps (status : option Types.FepStatus) : M CallToolResult :=
  try_catch
    (index ← loadIndex;
     let feps :=
       match status with
       | Some status => filter (λ fep, Types.status fep = status) index
       | None => index
       end in
     let result :=
       (λ fep, mkFepListing (Types.slug fep) (Types.title fep)
                 (Types.status fep) (Types.authors fep)
                 (Types.dateReceived fep) (Types.dateFinalized fep)
                 (Types.dateWithdrawn fep)) <$> feps in
     mret {| text := JSON_stringify _ result; isError := false |})
    (λ error, mret (error_result error)).

(** Tool: get_fep *)
Definition get_fep (slug : string) : M CallToolResult :=
  try_catch
    (index ← loadIndex;
     document ← getFepDocument slug index;
     let '(metadata, content) := document in
     let result := (metadata, content) in
     mret {| text := JSON_stringify _ result; isError := false |})
    (λ error, mret (error_result error)).

(** Tool: search_feps *)
Definition search_feps (query : string) : M CallToolResult :=
  try_catch
    (index ← loadIndex;
     topResults ← search_feps_results query index;
     mret {| text := JSON_stringify _ topResults; isError := false |})
    (λ error, mret (error_result error)).

End json.

End Tools.

(** ** The vocabulary of searching *)

(** The words of a query, as [calculateScore] and [getSnippet] both compute
    them: the non-empty pieces of the lower-cased query. *)
Definition query_words (query : string) : list string :=
  filter (λ w, (JsString.length w > 0)%Z)
    (JsString.split_whitespace (JsString.toLowerCase query)).

(** [needle] is read in [hay] from index [i] on. *)
Definition occurs_at (hay needle : string) (i : nat) : Prop :=
  String.substring i (String.length needle) hay = needle.

(** A string of white space only. *)
Fixpoint blank (s : string) : bool :=
  match s with
  | EmptyString => true
  | String c rest => JsString.is_space c && blank rest
  end.

(** What the loop of [getSnippet] leaves in [firstMatchIndex] for the
    words [ws]: [-1] when none of them occurs in [hay], and otherwise the
    least index at which one of them is read. *)
Definition first_match (hay : string) (ws : list string) (first : Z) : Prop :=
  (first = (-1)%Z ∧ ∀ w, w ∈ ws → ¬ includes hay w) ∨
  (∃ m : nat, first = Z.of_nat m ∧
     (∃ w, w ∈ ws ∧ occurs_at hay w m) ∧
     ∀ w i, w ∈ ws → occurs_at hay w i → (m ≤ i)%nat).

(** ** [src/resources.ts] *)

Module Resources.

(** What a resource hands back: the one item of [contents]. *)
Record ReadResourceResult := mkReadResourceResult {
  uri : string;
  mimeType : string;
  text : string;
}.

(** The class [[0-9a-f]]. *)
Definition is_hex (c : ascii) : bool :=
  let n := N_of_ascii c in
  ((48 <=? n) && (n <=? 57)) || ((97 <=? n) && (n <=? 102)).

(** [href.match(/^fep:\/\/([0-9a-f]{4})$/)]: the group of the match, or
    [None] when the expression does not match. *)
Definition match_slug (href : string) : option string :=
  if String.prefix "fep://" href then
    let rest := String.substring 6 (String.length href - 6) href in
    match rest with
    | String a (String b (String c (String d EmptyString))) =>
        if is_hex a && is_hex b && is_hex c && is_hex d then Some rest
        else None
    | _ => None
    end
  else None.

Section json.

Context (JSON_parse : string → thrown + Types.FepIndex).
Context (JSON_stringify : ∀ A : Type, A → string).
Context (parseFrontmatter :
           string → option string → thrown + (Types.FepMetadata * string)).

(** Loads the FEP index from index.json. *)
Definition loadIndex : M Types.FepIndex :=
  content ← readFile "index.json";
  match JSON_parse content with
  | inl error => throw error
  | inr index => mret index
  end.

(** Resource: fep://index *)
Definition fep_index : M ReadResourceResult :=
  try_catch
    (index ← loadIndex;
     mret {| uri := "fep://index";
             mimeType := "application/json";
             text := JSON_stringify _ index |})
    (λ error,
      let message := message_or_String error in
      throw (ThrownError (new_Error
        ("Failed to load FEP index: " +:+ message)))).

(** Resource template: fep://{slug} *)
Definition fep_document (href : string) : M ReadResourceResult :=
  try_catch
    ((* Extract slug from URI *)
     match match_slug href with
     | None =>
         throw (ThrownError (new_Error
           ("Invalid FEP URI: " +:+ href
            +:+ ". Expected format: fep://{4-char-hex-slug}")))
     | Some slug =>
         (* Load index to get the title *)
         index ← loadIndex;
         match JsArray.find (λ fep, bool_decide (Types.slug fep = slug))
                 index with
         | None =>
             throw (ThrownError (new_Error ("FEP not found: " +:+ slug)))
         | Some indexEntry =>
             (* Read the document *)
             let docPath := "fep/" +:+ slug +:+ "/fep-" +:+ slug +:+ ".md" in
             content ← readFile docPath;
             match parseFrontmatter content
                     (Some (Types.title indexEntry)) with
             | inl error => throw error
             | inr (metadata, body) =>
                 (* Combine metadata and body *)
                 let result :=
                   (Types.mkFepMetadata (Types.slug metadata)
                      (Types.title indexEntry) (Types.authors metadata)
                      (Types.status metadata) (Types.dateReceived metadata)
                      (Types.dateFinalized metadata)
                      (Types.dateWithdrawn metadata)
                      (Types.trackingIssue metadata)
                      (Types.discussionsTo metadata)
                      (Types.implementations indexEntry),
                    body) in
                 mret {| uri := href;
                         mimeType := "application/json";
                         text := JSON_stringify _ result |}
             end
         end
     end)
    (λ error,
      let message := message_or_String error in
      throw (ThrownError (new_Error ("Failed to load FEP: " +:+ message)))).

End json.

End Resources.

(** ** [src/main.ts] *)

Module Main.

Definition SERVER_NAME : string := "fep-mcp".
Definition SERVER_VERSION : string := "0.1.0".

(** How a part of [main] ends: with [Deno.exit(code)], which ends the
    process, or by going on to the next statement. *)
Inductive ending :=
  | Exit (code : Z)
  | GoOn.

(** The start of [main], up to the creation of the server. *)
Definition startup : M ending :=
  (* Initialize the FEP repository *)
  console_error (SERVER_NAME +:+ " v" +:+ SERVER_VERSION +:+ " starting...");;
  try_catch
    (repoPath ← initializeRepository;
     console_error ("FEP repository initialized at: " +:+ repoPath);;
     mret GoOn)
    (λ error,
      let message := message_or_String error in
      console_error ("Failed to initialize FEP repository: " +:+ message);;
      mret (Exit 1)).

(** Handle graceful shutdown *)
Definition shutdown : M ending :=
  console_error "Shutting down...";;
  cleanupRepository;;
  mret (Exit 0).

End Main.


(** ** The vocabulary of the tools *)

(** [st'] is [st] but for the record of the calls that were made. *)
Definition looked (st st' : state) : Prop :=
  currentRepo st' = currentRepo st ∧
  currentRepoPath st' = currentRepoPath st ∧
  untouched (world st) (world st').

(** The score and the snippet of an entry of the index for a query, when
    documents are read in the state [st]: three times the score of the
    title, twice that of the authors, and the score of the document when
    it can be read. *)
Definition entry_found (query : string) (st : state)
    (fep : Types.FepMetadata) : Z * option string :=
  let base := (3 * Tools.calculateScore (Types.title fep) query
               + 2 * Tools.calculateScore (Types.authors fep) query)%Z in
  match (readFile (Tools.docPath (Types.slug fep)) st).1 with
  | Return content =>
      let contentScore := Tools.calculateScore content query in
      if bool_decide (contentScore > 0)%Z then
        ((base + contentScore)%Z, Some (Tools.getSnippet content query 200))
      else (base, None)
  | Throw _ => (base, None)
  end.

(** The entries of the index with a positive score, in the order of the
    index. *)
Definition matches (query : string) (st : state) (index : Types.FepIndex)
  : list Types.FepSearchResult :=
  omap (λ fep,
    let found := entry_found query st fep in
    if bool_decide (found.1 > 0)%Z
    then Some (Types.mkFepSearchResult fep found.1 found.2)
    else None) index.

(** The tools of the server and their arguments. *)
Inductive tool :=
  | ListFeps (status : option Types.FepStatus)
  | GetFep (slug : string)
  | SearchFeps (query : string)
  | RefreshRepository.

(** A call of a tool. *)
Definition call_tool (JSON_parse : string → thrown + Types.FepIndex)
    (JSON_stringify : ∀ A : Type, A → string)
    (parseFrontmatter :
       string → option string → thrown + (Types.FepMetadata * string))
    (t : tool) : M Tools.CallToolResult :=
  match t with
  | ListFeps status => Tools.list_feps JSON_parse JSON_stringify status
  | GetFep slug =>
      Tools.get_fep JSON_parse JSON_stringify parseFrontmatter slug
  | SearchFeps query => Tools.search_feps JSON_parse JSON_stringify query
  | RefreshRepository => Tools.refresh_repository
  end.

(** ** [src/yaml.ts]: the frontmatter of a document *)

Module Yaml.

(** [\r?] at the head of [s]: what follows it. *)
Definition optional_cr (s : string) : string :=
  match s with
  | String c rest => if Ascii.eqb c "013" then rest else s
  | EmptyString => s
  end.

(** The literal [literal] at the head of [s]: what follows it. *)
Definition literally (literal s : string) : option string :=
  if String.prefix literal s
  then Some (String.substring (String.length literal)
               (String.length s - String.length literal) s)
  else None.

(** [\r?\n---\r?\n] at the head of [s]: what follows it. *)
Definition closing (s : string) : option string :=
  rest ← literally (String "010" "---") (optional_cr s);
  literally (String "010" "") (optional_cr rest).

(** The rest of the expression at the head of [s]: a first group that
    takes any characters but as few as possible, the closing marker, and a
    second group that takes all that follows up to the end.  [group] is
    what the first group already holds. *)
Fixpoint lazily (s group : string) : option (string * string) :=
  match closing s with
  | Some body => Some (group, body)
  | None =>
      match s with
      | EmptyString => None
      | String c rest => lazily rest (group +:+ String c "")
      end
  end.

(** [content.match(frontmatterRegex)]: the two groups of the match.  The
    expression reads, from the start of the input, [---\r?\n], the first
    group, the closing marker and the second group. *)
Definition frontmatterRegex (content : string) : option (string * string) :=
  rest ← literally "---" content;
  rest ← literally (String "010" "") (optional_cr rest);
  lazily rest "".

(** The first statements of [parseFrontmatter]: the YAML text and the
    body of the document, or the error of a document without
    frontmatter. *)
Definition parseFrontmatter_split (content : string)
  : thrown + (string * string) :=
  match frontmatterRegex content with
  | None =>
      inl (ThrownError (new_Error
        "Invalid FEP document: missing YAML frontmatter"))
  | Some (yamlContent, body) => inr (yamlContent, body)
  end.

End Yaml.

(** The line feed, the carriage return and the closing marker of the
    frontmatter, as the statements write them. *)
Definition LF : string := String "010" "".
Definition CR : string := String "013" "".
Definition marker : string := LF +:+ "---".

(** An optional carriage return. *)
Definition cr_or_nothing (r : string) : Prop := r = "" ∨ r = CR.

(** ** A sample index *)

(** Three entries, the last of which has no document in the checkout. *)
Definition sample_index : Types.FepIndex :=
  [ Types.mkFepMetadata "a4ed" "The Fediverse Enhancement Proposal Process"
      "pukkamustard <pukkamustard@posteo.net>" Types.FINAL "2020-10-16"
      (Some "2021-01-18") None None None (Some 3%Z);
    Types.mkFepMetadata "8fcf"
      "Followers collection synchronization across servers"
      "Claire" Types.DRAFT "2020-10-24" None None None None None;
    Types.mkFepMetadata "f1d5" "NodeInfo in Fediverse Software"
      "CJ <cjslep@gmail.com>" Types.FINAL "2020-12-13" None None None None
      None ].

Definition library : tree :=
  {[ "index.json" := File "[ a4ed, 8fcf, f1d5 ]";
     "fep" := Dir;
     "fep/a4ed" := Dir;
     "fep/a4ed/fep-a4ed.md" :=
       File "A Fediverse Enhancement Proposal is a document for the fediverse.";
     "fep/8fcf" := Dir;
     "fep/8fcf/fep-8fcf.md" :=
       File "Servers of the Fediverse keep followers collections in sync." ]}.

(** The module after it cloned the library. *)
Definition stocked : state :=
  (initializeRepository
     (loaded (mkWorld ∅ ∅ 0 (λ _, CloneOk library) (λ _, None) 0 0%N [] []))).2.

(** A reader of index.json that knows the text of the library only, and
    writers that say nothing. *)
Definition sample_parse (content : string) : thrown + Types.FepIndex :=
  if String.eqb content "[ a4ed, 8fcf, f1d5 ]" then inr sample_index
  else inl (ThrownError (new_Error "Unexpected token in JSON")).

Definition sample_stringify (A : Type) (value : A) : string := "...".

(** A reader of documents that finds nothing in them: the metadata are
    empty but for the title it was given, and the body is the document. *)
Definition sample_frontmatter (content : string) (title : option string)
  : thrown + (Types.FepMetadata * string) :=
  inr (Types.mkFepMetadata "" (default "" title) "" Types.DRAFT "" None None
         None None None, content).

(** * Proofs *)

(** ** Truthiness and the states of the handle *)

Ltac unfold_monad :=
  unfold mbind, M_bind, mret, M_ret, bind, ret, throw, try_catch, get,
    set_currentRepo, set_currentRepoPath, console_error in *.

Lemma truthy_Some v path : truthy v = Some path → v = Some path ∧ path ≠ "".
Proof.
  destruct v as [s|]; simpl; [|done].
  destruct (String.eqb_spec s ""); [done|].
  intros [= ->]. done.
Qed.

Lemma truthy_ready path : path ≠ "" → truthy (Some path) = Some path.
Proof.
  intros Hne. simpl. destruct (String.eqb_spec path ""); done.
Qed.

Lemma ready_truthy path st :
  ready_at path st → truthy (currentRepoPath st) = Some path.
Proof. intros (_ & -> & Hne). by apply truthy_ready. Qed.

Lemma cleared_dormant st : cleared st → dormant st.
Proof. intros [_ H]. unfold dormant. by rewrite H. Qed.

(** ** Computations that leave the variables alone *)

Create HintDb quiet.

Lemma quiet_here {A} (r : completion A) :
  quiet (λ st, (r, st)).
Proof. intros st. simpl. repeat split. exists []. by rewrite app_nil_r. Qed.

Lemma quiet_ret {A} (a : A) : quiet (mret a).
Proof. apply quiet_here. Qed.

Lemma quiet_throw {A} error : quiet (@throw A error).
Proof. apply quiet_here. Qed.

Lemma quiet_get : quiet get.
Proof. intros st. simpl. repeat split. exists []. by rewrite app_nil_r. Qed.

Lemma seen_as_eq st st' ev :
  currentRepo st' = currentRepo st → currentRepoPath st' = currentRepoPath st →
  seen_as st' ev → seen_as st ev.
Proof. unfold seen_as. intros -> ->. done. Qed.

Lemma quiet_after {A B} (m : M A) (k : completion A → M B) :
  quiet m → (∀ r, quiet (k r)) → quiet (λ st, k (m st).1 (m st).2).
Proof.
  intros Hm Hk st.
  destruct (Hm st) as (Hr & Hp & evs & Ht & Hs).
  destruct (Hk (m st).1 (m st).2) as (Hr' & Hp' & evs' & Ht' & Hs').
  split; [congruence|]. split; [congruence|].
  exists (evs ++ evs'). split.
  - by rewrite Ht', Ht, app_assoc.
  - apply Forall_app. split; [done|].
    eapply Forall_impl; [exact Hs'|]. intros ev. by apply seen_as_eq.
Qed.

Lemma quiet_bind {A B} (m : M A) (k : A → M B) :
  quiet m → (∀ a, quiet (k a)) → quiet (m ≫= k).
Proof.
  intros Hm Hk.
  pose proof (quiet_after m
    (λ r, match r with Return a => k a | Throw e => throw e end) Hm) as H.
  intros st. specialize (H (λ r, match r with
                                 | Return a => Hk a
                                 | Throw e => quiet_throw e end) st).
  unfold mbind, M_bind, bind. simpl in H.
  destruct (m st) as [[a|e] st1]; exact H.
Qed.

Lemma quiet_try_catch {A} (m : M A) (h : thrown → M A) :
  quiet m → (∀ e, quiet (h e)) → quiet (try_catch m h).
Proof.
  intros Hm Hh.
  pose proof (quiet_after m
    (λ r, match r with Return a => mret a | Throw e => h e end) Hm) as H.
  intros st. specialize (H (λ r, match r with
                                 | Return a => quiet_ret a
                                 | Throw e => Hh e end) st).
  unfold try_catch. simpl in H.
  destruct (m st) as [[a|e] st1]; exact H.
Qed.

Ltac quiet_call :=
  let st := fresh "st" in
  intros st; cbv beta delta [returns throws observe with_world]; simpl;
  repeat case_match; simpl;
  (split; [reflexivity|]); (split; [reflexivity|]);
  first [ by (exists []; rewrite app_nil_r)
        | by (eexists [_]; split; [reflexivity|]; repeat constructor) ].

Lemma quiet_makeTempDir prefix : quiet (Deno.makeTempDir prefix).
Proof. unfold Deno.makeTempDir. quiet_call. Qed.
Lemma quiet_remove path : quiet (Deno.remove path).
Proof. unfold Deno.remove. quiet_call. Qed.
Lemma quiet_readTextFile path : quiet (Deno.readTextFile path).
Proof. unfold Deno.readTextFile. quiet_call. Qed.
Lemma quiet_stat path : quiet (Deno.stat path).
Proof. unfold Deno.stat. quiet_call. Qed.
Lemma quiet_readDir path : quiet (Deno.readDir path).
Proof. unfold Deno.readDir. quiet_call. Qed.
Lemma quiet_setTimeout ms : quiet (setTimeout ms).
Proof. unfold setTimeout. quiet_call. Qed.
Lemma quiet_console_error line : quiet (console_error line).
Proof. unfold console_error. quiet_call. Qed.
Lemma quiet_cloneRepository url path : quiet (EsGit.cloneRepository url path).
Proof. unfold EsGit.cloneRepository. quiet_call. Qed.
Lemma quiet_getRemote repo name : quiet (EsGit.getRemote repo name).
Proof. unfold EsGit.getRemote. quiet_call. Qed.
Lemma quiet_fetch remote refspecs : quiet (EsGit.fetch remote refspecs).
Proof. unfold EsGit.fetch. quiet_call. Qed.
Lemma quiet_openRepository path : quiet (EsGit.openRepository path).
Proof. unfold EsGit.openRepository. quiet_call. Qed.

#[export] Hint Resolve quiet_ret quiet_throw quiet_get quiet_makeTempDir
  quiet_remove quiet_readTextFile quiet_stat quiet_readDir quiet_setTimeout
  quiet_console_error quiet_cloneRepository quiet_getRemote quiet_fetch
  quiet_openRepository : quiet.

Ltac quiet_steps :=
  repeat first
    [ apply quiet_bind; [|intros ?]
    | apply quiet_try_catch; [|intros ?]
    | progress eauto with quiet
    | case_match ].

Lemma quiet_cleanupOldRepo path : quiet (cleanupOldRepo path).
Proof. unfold cleanupOldRepo. quiet_steps. Qed.

Lemma quiet_clone_attempts attempts lastError destPath :
  quiet (clone_attempts attempts lastError destPath).
Proof.
  revert lastError. induction attempts as [|attempt later IH]; intros lastError.
  - apply quiet_throw.
  - simpl. unfold delay. quiet_steps.
Qed.

Lemma quiet_cloneWithRetry destPath : quiet (cloneWithRetry destPath).
Proof. apply quiet_clone_attempts. Qed.

Lemma quiet_readFile p : quiet (readFile p).
Proof. unfold readFile. quiet_steps. Qed.
Lemma quiet_fileExists p : quiet (fileExists p).
Proof. unfold fileExists. quiet_steps. Qed.
Lemma quiet_listDirectory p : quiet (listDirectory p).
Proof. unfold listDirectory. quiet_steps. Qed.
Lemma quiet_getRepositoryPath : quiet getRepositoryPath.
Proof. unfold getRepositoryPath. quiet_steps. Qed.

(** ** The handle before it is initialized *)

Lemma readFile_dormant p st :
  dormant st → readFile p st = (Throw not_initialized, st).
Proof. unfold dormant, readFile. unfold_monad. by intros ->. Qed.

Lemma listDirectory_dormant p st :
  dormant st → listDirectory p st = (Throw not_initialized, st).
Proof. unfold dormant, listDirectory. unfold_monad. by intros ->. Qed.

Lemma refreshRepository_dormant st :
  dormant st → refreshRepository st = (Throw not_initialized, st).
Proof.
  unfold dormant, refreshRepository. unfold_monad. intros ->.
  by destruct (currentRepo st).
Qed.

Lemma fileExists_dormant p st :
  dormant st → fileExists p st = (Return false, st).
Proof. unfold dormant, fileExists. unfold_monad. by intros ->. Qed.

Lemma quiet_dormant {A} (m : M A) st : quiet m → dormant st → dormant (m st).2.
Proof. intros Hm. unfold dormant. by destruct (Hm st) as (_ & -> & _). Qed.

Lemma safe_cleanupOldRepo path : safe (cleanupOldRepo path).
Proof.
  intros st. exists (). unfold cleanupOldRepo, Deno.remove, returns, throws.
  unfold_monad. repeat case_match; simplify_eq/=; done.
Qed.

Lemma cleanupRepository_dormant st : dormant (cleanupRepository st).2.
Proof.
  unfold cleanupRepository. unfold_monad.
  destruct (truthy (currentRepoPath st)) as [path|] eqn:E; [|done].
  destruct (safe_cleanupOldRepo path st) as [[] H].
  by destruct (cleanupOldRepo path st) as [[[]|e] st1].
Qed.

Lemma initializeRepository_phases st :
  initializeRepository st =
  match acquire (cleanupRepository st).2 with
  | (Return (repoPath, repo), st') =>
      (Return repoPath, mkState (Some repo) (Some repoPath) (world st'))
  | (Throw error, st') => (Throw error, st')
  end.
Proof.
  unfold initializeRepository, acquire, cleanupRepository. unfold_monad.
  destruct (truthy (currentRepoPath st)) as [path|].
  - destruct (safe_cleanupOldRepo path st) as [[] H].
    destruct (cleanupOldRepo path st) as [[[]|e] st1]; [|done]. simpl.
    destruct (createTempDir _) as [[p|e] st2]; [|done].
    by destruct (cloneWithRetry p st2) as [[r|e] st3].
  - simpl. destruct (createTempDir _) as [[p|e] st2]; [|done].
    by destruct (cloneWithRetry p st2) as [[r|e] st3].
Qed.

Lemma quiet_acquire : quiet acquire.
Proof. unfold acquire, createTempDir. quiet_steps. Qed.

Lemma initializeRepository_throws st error st' :
  initializeRepository st = (Throw error, st') → dormant st'.
Proof.
  rewrite initializeRepository_phases.
  pose proof (quiet_dormant acquire _ quiet_acquire
                (cleanupRepository_dormant st)) as H.
  destruct (acquire _) as [[[p r]|e] st1]; [done|].
  by intros [= _ <-].
Qed.

Lemma dormant_perform op st :
  dormant st → (op = Initialize → (perform op st).1 = false) →
  dormant (perform op st).2.
Proof.
  intros Hd Hop. destruct op; simpl.
  - specialize (Hop eq_refl). simpl in Hop.
    destruct (initializeRepository st) as [[p|e] st'] eqn:E; [done|].
    by eapply initializeRepository_throws.
  - by rewrite refreshRepository_dormant.
  - by rewrite readFile_dormant.
  - by rewrite fileExists_dormant.
  - by rewrite listDirectory_dormant.
  - exact Hd.
  - apply cleanupRepository_dormant.
Qed.

(** C5. [readFile], [listDirectory] and [refreshRepository] called on a
    handle that is not initialized throw the "not initialized" error and
    leave the whole state, the world with its disk and its record of calls
    included, exactly as it was: nothing is read, fetched or written.  The
    handle is in that condition when the module is loaded, after any
    [cleanupRepository], and it stays so through every operation other
    than an [initializeRepository] that returns. *)
Theorem not_initialized_until_initialize :
  (∀ st relativePath, dormant st →
     readFile relativePath st = (Throw not_initialized, st) ∧
     listDirectory relativePath st = (Throw not_initialized, st) ∧
     refreshRepository st = (Throw not_initialized, st)) ∧
  (∀ w, dormant (loaded w)) ∧
  (∀ st, dormant (cleanupRepository st).2) ∧
  (∀ op st, dormant st →
     (op = Initialize → (perform op st).1 = false) →
     dormant (perform op st).2).
Proof.
  split; [|split; [|split]].
  - intros st p Hd.
    auto using readFile_dormant, listDirectory_dormant,
      refreshRepository_dormant.
  - done.
  - apply cleanupRepository_dormant.
  - apply dormant_perform.
Qed.

Lemma not_initialized_until_initialize_witness :
  dormant (cleanupRepository served).2 ∧
  readFile "index.json" (cleanupRepository served).2
  = (Throw not_initialized, (cleanupRepository served).2).
Proof.
  split; [vm_compute; reflexivity|].
  destruct not_initialized_until_initialize as (H & _ & _ & _).
  apply (H (cleanupRepository served).2 "index.json"). vm_compute. reflexivity.
Defined.

(** ** Allocating the directory *)

Lemma temp_name_not_empty prefix (serial : nat) :
  Deno.TMPDIR +:+ "/" +:+ prefix +:+ pretty serial ≠ "".
Proof. done. Qed.

Lemma createTempDir_returns st p st' :
  createTempDir st = (Return p, st') → p ≠ "".
Proof.
  unfold createTempDir, Deno.makeTempDir, returns, throws. cbv zeta.
  destruct (io_error (world st) !! Deno.TMPDIR); [done|].
  destruct (free _ _); [|done].
  intros [= <- _]. apply temp_name_not_empty.
Qed.

Lemma initializeRepository_returns st p st' :
  initializeRepository st = (Return p, st') → ready_at p st'.
Proof.
  rewrite initializeRepository_phases.
  destruct (acquire _) as [[[p' r]|e] st1] eqn:Hacquire; [|done].
  intros [= <- <-]. split; [by eexists|]. split; [done|].
  revert Hacquire. unfold acquire. unfold_monad.
  destruct (createTempDir _) as [[q|e] st2] eqn:Htemp; [|done].
  apply createTempDir_returns in Htemp.
  destruct (cloneWithRetry q st2) as [[r'|e] st3]; [|done].
  by intros [= <- _ _].
Qed.

(** ** Strings *)

Lemma string_app_nil_r (s : string) : s +:+ "" = s.
Proof.
  induction s as [|c s IH]; [done|].
  change (String c (s +:+ "") = String c s). by rewrite IH.
Qed.

Lemma string_app_assoc (a b c : string) : (a +:+ b) +:+ c = a +:+ b +:+ c.
Proof.
  induction a as [|x a IH]; [done|].
  change (String x ((a +:+ b) +:+ c) = String x (a +:+ b +:+ c)).
  by rewrite IH.
Qed.

Lemma prefix_app (a b : string) :
  String.prefix a b = true ↔ ∃ rest, b = a +:+ rest.
Proof.
  revert b. induction a as [|x a IH]; intros b.
  - split; [intros _; by exists b|]. by destruct b.
  - destruct b as [|y b].
    + split; [done|]. by intros [rest [=]].
    + change (String.prefix (String x a) (String y b))
        with (if Ascii.ascii_dec x y then String.prefix a b else false).
      destruct (Ascii.ascii_dec x y) as [->|Hne].
      * rewrite IH. split; intros [rest H]; exists rest.
        -- by rewrite H.
        -- by injection H.
      * split; [done|]. intros [rest H]. injection H as Hxy _. by symmetry in Hxy.
Qed.

Lemma includes_tail (before needle : string) :
  includes (before +:+ needle) needle.
Proof. exists before, "". by rewrite string_app_nil_r. Qed.

(** ** Reading and probing *)

Lemma readFile_ready path p st :
  truthy (currentRepoPath st) = Some path →
  readFile p st =
  match Deno.readTextFile (path +:+ "/" +:+ p) st with
  | (Return text, st') => (Return text, st')
  | (Throw error, st') =>
      (Throw (if instanceof_NotFound error then file_not_found p else error),
       st')
  end.
Proof.
  intros H. unfold readFile. unfold_monad. rewrite H.
  destruct (Deno.readTextFile _ st) as [[text|e] st']; [done|].
  by destruct (instanceof_NotFound e).
Qed.

Lemma fileExists_ready path p st :
  truthy (currentRepoPath st) = Some path →
  fileExists p st =
  match Deno.stat (path +:+ "/" +:+ p) st with
  | (Return _, st') => (Return true, st')
  | (Throw _, st') => (Return false, st')
  end.
Proof.
  intros H. unfold fileExists. unfold_monad. rewrite H.
  by destruct (Deno.stat _ st) as [[n|e] st'].
Qed.


Lemma foldl_push {A B} (f : A → B) (l : list A) (acc : list B) :
  foldl (λ acc x, acc ++ [f x]) acc l = acc ++ (f <$> l).
Proof.
  revert acc. induction l as [|x l IH]; intros acc.
  - by rewrite app_nil_r.
  - cbn [foldl]. rewrite IH, <- app_assoc. done.
Qed.

Lemma listDirectory_ready path p st :
  truthy (currentRepoPath st) = Some path →
  listDirectory p st =
  match Deno.readDir (path +:+ "/" +:+ p) st with
  | (Return dir, st') => (Return (name <$> dir), st')
  | (Throw error, st') =>
      (Throw (if instanceof_NotFound error then directory_not_found p
              else error), st')
  end.
Proof.
  intros H. unfold listDirectory. unfold_monad. rewrite H.
  destruct (Deno.readDir _ st) as [[dir|e] st'].
  - by rewrite foldl_push.
  - by destruct (instanceof_NotFound e).
Qed.

Example listDirectory_served :
  (listDirectory "fep" served).1 = Return ["a4ed"] ∧
  (listDirectory "img" served).1 = Throw (directory_not_found "img").
Proof. by vm_compute. Qed.

(** C4. After an [initializeRepository] that returned, and on any handle
    that is initialized, [readFile] returns exactly the text the disk
    holds at the path inside the working copy; when nothing is there it
    throws "File not found: " followed by the relative path, an error that
    differs from the "not initialized" one; and whatever else
    [Deno.readTextFile] throws reaches the caller unchanged. *)
Theorem readFile_serves_the_disk :
  (∀ st0 path st,
     initializeRepository st0 = (Return path, st) →
     truthy (currentRepoPath st) = Some path) ∧
  (∀ st path relativePath,
     truthy (currentRepoPath st) = Some path →
     let fullPath := path +:+ "/" +:+ relativePath in
     (∀ text,
        io_error (world st) !! fullPath = None →
        disk (world st) !! fullPath = Some (File text) →
        (readFile relativePath st).1 = Return text) ∧
     (io_error (world st) !! fullPath = None →
      disk (world st) !! fullPath = None →
      (readFile relativePath st).1 = Throw (file_not_found relativePath)) ∧
     (∀ error,
        (Deno.readTextFile fullPath st).1 = Throw error →
        instanceof_NotFound error = false →
        (readFile relativePath st).1 = Throw error) ∧
     includes (message_or_String (file_not_found relativePath)) relativePath ∧
     file_not_found relativePath ≠ not_initialized).
Proof.
  split.
  { intros st0 path st Hinit. apply ready_truthy.
    by eapply initializeRepository_returns. }
  intros st path relativePath Hready fullPath.
  rewrite (readFile_ready path) by done. fold fullPath.
  unfold Deno.readTextFile, returns, throws.
  repeat split.
  - by intros text -> ->.
  - by intros -> ->.
  - intros error.
    destruct (io_error (world st) !! fullPath) as [e|]; simpl.
    + by intros [= ->] ->.
    + destruct (disk (world st) !! fullPath) as [[text|]|]; simpl;
        [done| by intros [= <-] | by intros [= <-] ].
  - apply includes_tail.
  - by vm_compute.
Qed.

Lemma readFile_serves_the_disk_witness :
  initializeRepository (loaded calm) = (Return "/tmp/fep-mcp-0", served) ∧
  (readFile "fep/a4ed/fep-a4ed.md" served).1 = Return "# FEP-a4ed" ∧
  (readFile "fep/0000/fep-0000.md" served).1
  = Throw (file_not_found "fep/0000/fep-0000.md").
Proof.
  assert (initializeRepository (loaded calm)
          = (Return "/tmp/fep-mcp-0", served)) as Hinit
    by (vm_compute; reflexivity).
  destruct readFile_serves_the_disk as [Hready Hread].
  specialize (Hready _ _ _ Hinit).
  split; [exact Hinit|].
  destruct (Hread served "/tmp/fep-mcp-0" "fep/a4ed/fep-a4ed.md" Hready)
    as (Hfile & _).
  destruct (Hread served "/tmp/fep-mcp-0" "fep/0000/fep-0000.md" Hready)
    as (_ & Hnone & _).
  split.
  - apply Hfile; vm_compute; reflexivity.
  - apply Hnone; vm_compute; reflexivity.
Defined.

(** C6. [fileExists] returns a boolean from every state and for every
    path.  The answer is [false] when the handle is not initialized (and
    then nothing is probed), when the disk has nothing at the path, and
    whenever [Deno.stat] throws, whatever it throws. *)
Theorem fileExists_never_throws st relativePath :
  ∃ found st',
    fileExists relativePath st = (Return found, st') ∧
    (dormant st → found = false ∧ st' = st) ∧
    (∀ path, truthy (currentRepoPath st) = Some path →
       disk (world st) !! (path +:+ "/" +:+ relativePath) = None →
       found = false) ∧
    (∀ path error, truthy (currentRepoPath st) = Some path →
       (Deno.stat (path +:+ "/" +:+ relativePath) st).1 = Throw error →
       found = false).
Proof.
  destruct (truthy (currentRepoPath st)) as [path|] eqn:Hpath.
  - rewrite (fileExists_ready path) by done.
    unfold dormant. rewrite Hpath.
    destruct (Deno.stat _ st) as [[n|e] st'] eqn:Hstat.
    + exists true, st'. split; [done|]. split; [done|]. split.
      * intros ? [= <-] Hnone. revert Hstat.
        unfold Deno.stat, returns, throws. rewrite Hnone.
        by destruct (io_error _ !! _).
      * intros ? error [= <-]. by rewrite Hstat.
    + by exists false, st'.
  - rewrite fileExists_dormant by done. exists false, st. by repeat split.
Qed.

Lemma fileExists_never_throws_witness :
  (fileExists "index.json" (loaded calm)).1 = Return false ∧
  (fileExists "fep/0000" served).1 = Return false.
Proof.
  split.
  - destruct (fileExists_never_throws (loaded calm) "index.json")
      as (found & st' & Heq & Hd & _).
    rewrite Heq. simpl. f_equal. apply Hd. reflexivity.
  - destruct (fileExists_never_throws served "fep/0000")
      as (found & st' & Heq & _ & Hnone & _).
    rewrite Heq. simpl. f_equal.
    apply (Hnone "/tmp/fep-mcp-0"); vm_compute; reflexivity.
Defined.

(** C9. [fileExists] answers [true] for whatever entry the disk holds at
    the path, a directory as much as a regular file: the kind of the entry
    plays no part in the answer. *)
Theorem fileExists_accepts_directories st path relativePath entry
    (Hready : truthy (currentRepoPath st) = Some path)
    (Hsound : io_error (world st) !! (path +:+ "/" +:+ relativePath) = None)
    (Hentry : disk (world st) !! (path +:+ "/" +:+ relativePath) = Some entry) :
  (fileExists relativePath st).1 = Return true.
Proof.
  rewrite (fileExists_ready path) by done.
  unfold Deno.stat, returns, throws. by rewrite Hsound, Hentry.
Qed.

Lemma fileExists_accepts_directories_witness :
  disk (world served) !! ("/tmp/fep-mcp-0" +:+ "/" +:+ "fep/a4ed") = Some Dir ∧
  (fileExists "fep/a4ed" served).1 = Return true.
Proof.
  split; [vm_compute; reflexivity|].
  apply (fileExists_accepts_directories served "/tmp/fep-mcp-0" "fep/a4ed" Dir);
    vm_compute; reflexivity.
Defined.

(** ** Refreshing *)

(** Running the calls of the model on a state given by its fields. *)
Ltac run_calls :=
  cbv beta iota zeta delta
    [EsGit.getRemote EsGit.fetch EsGit.openRepository EsGit.cloneRepository
     Deno.remove Deno.makeTempDir Deno.stat Deno.readTextFile Deno.readDir
     setTimeout delay returns throws observe with_world with_event with_disk
     with_clock with_console next_git next_clone next_temp fresh_handle
     world currentRepo currentRepoPath disk io_error temp_serial clone_oracle
     git_fault next_handle clock console trace
     EsGit.remote_repo EsGit.remote_name fst snd] in *.

Ltac since_events :=
  unfold since; cbn [world trace]; rewrite <- ?app_assoc;
  rewrite ?drop_app_length; cbn [app fmap list_fmap outcome call failure last].

Lemma readFile_result_ext p st st' :
  currentRepoPath st' = currentRepoPath st →
  disk (world st') = disk (world st) →
  io_error (world st') = io_error (world st) →
  (readFile p st').1 = (readFile p st).1.
Proof.
  intros Hp Hd Hio.
  destruct (truthy (currentRepoPath st)) as [path|] eqn:Hpath.
  - rewrite !(readFile_ready path) by congruence.
    unfold Deno.readTextFile, returns, throws. cbv zeta. rewrite Hd, Hio.
    destruct (io_error (world st) !! _) as [e|]; [done|].
    by destruct (disk (world st) !! _) as [[text|]|].
  - rewrite !readFile_dormant; [done..|]. unfold dormant. congruence.
Qed.

Lemma refreshRepository_outcomes st repo path :
  currentRepo st = Some repo →
  truthy (currentRepoPath st) = Some path →
  let st' := (refreshRepository st).2 in
  currentRepoPath st' = currentRepoPath st ∧
  disk (world st') = disk (world st) ∧
  io_error (world st') = io_error (world st) ∧
  ((∃ reopened,
      (refreshRepository st).1 = Return () ∧
      currentRepo st' = Some reopened ∧
      outcome <$> since st st' =
        [(GetRemote repo "origin", None); (Fetch repo "origin", None);
         (OpenRepository path, None)]) ∨
   (∃ cause,
      (refreshRepository st).1 = Throw (refresh_failed cause) ∧
      currentRepo st' = Some repo ∧
      (outcome <$> since st st' = [(GetRemote repo "origin", Some cause)] ∨
       outcome <$> since st st' =
         [(GetRemote repo "origin", None); (Fetch repo "origin", Some cause)] ∨
       outcome <$> since st st' =
         [(GetRemote repo "origin", None); (Fetch repo "origin", None);
          (OpenRepository path, Some cause)]))).
Proof.
  destruct st as [repo0 path0 [d io ts co gf nh ck cs tr]].
  cbn [currentRepo currentRepoPath world disk io_error].
  intros -> Hpath. unfold refreshRepository. unfold_monad.
  cbn [currentRepo currentRepoPath]. rewrite Hpath.
  run_calls.
  destruct (gf 0%nat) as [e0|]; cbn [fst snd currentRepo currentRepoPath world disk io_error].
  { do 3 (split; [done|]). right. exists e0. do 2 (split; [done|]).
    left. by since_events. }
  destruct (gf 1%nat) as [e1|]; cbn [fst snd currentRepo currentRepoPath world disk io_error].
  { do 3 (split; [done|]). right. exists e1. do 2 (split; [done|]).
    right. left. by since_events. }
  destruct (gf 2%nat) as [e2|]; cbn [fst snd currentRepo currentRepoPath world disk io_error].
  { do 3 (split; [done|]). right. exists e2. do 2 (split; [done|]).
    right. right. by since_events. }
  destruct (d !! path) as [[text|]|]; cbn [fst snd currentRepo currentRepoPath world disk io_error].
  - do 3 (split; [done|]). right. eexists. do 2 (split; [done|]).
    right. right. by since_events.
  - do 3 (split; [done|]). left. eexists. do 2 (split; [done|]).
    by since_events.
  - do 3 (split; [done|]). right. eexists. do 2 (split; [done|]).
    right. right. by since_events.
Qed.

(** C3. When [refreshRepository] throws on an initialized handle, what it
    throws is "Failed to refresh repository: " followed by the message of
    the call that failed (the last call it made); both variables hold what
    they held, so the handle is still initialized at the same path; the
    disk is unchanged; and every [readFile] that returned a text before
    returns the same text afterwards. *)
Theorem refresh_failure_keeps_the_copy st path error st'
    (Hready : ready_at path st)
    (Hfail : refreshRepository st = (Throw error, st')) :
  (∃ cause c, error = refresh_failed cause ∧
              last (outcome <$> since st st') = Some (c, Some cause)) ∧
  currentRepo st' = currentRepo st ∧
  currentRepoPath st' = Some path ∧
  ready_at path st' ∧
  disk (world st') = disk (world st) ∧
  ∀ relativePath text,
    (readFile relativePath st).1 = Return text →
    (readFile relativePath st').1 = Return text.
Proof.
  pose proof (ready_truthy _ _ Hready) as Hpath.
  destruct Hready as ([repo Hrepo] & Hp & Hne).
  destruct (refreshRepository_outcomes st repo path Hrepo Hpath)
    as (Hp' & Hd & Hio & Hcases).
  rewrite Hfail in Hp', Hd, Hio, Hcases. cbn [fst snd] in *.
  destruct Hcases as [(reopened & [=] & _)|(cause & [= ->] & Hrepo' & Hcalls)].
  split; [|split; [|split; [|split; [|split]]]].
  - exists cause.
    destruct Hcalls as [-> | [-> | ->]]; by eexists.
  - congruence.
  - congruence.
  - split; [by rewrite Hrepo'|]. split; [congruence|done].
  - done.
  - intros p text Hread. by rewrite (readFile_result_ext p st st').
Qed.

Lemma refresh_failure_keeps_the_copy_witness :
  ready_at "/tmp/fep-mcp-0" offline ∧
  (refreshRepository offline).1 = Throw (refresh_failed unreachable) ∧
  (readFile "index.json" (refreshRepository offline).2).1 = Return "[]".
Proof.
  assert (ready_at "/tmp/fep-mcp-0" offline) as Hready.
  { split; [by eexists|]. split; [vm_compute; reflexivity|done]. }
  assert (refreshRepository offline
          = (Throw (refresh_failed unreachable), (refreshRepository offline).2))
    as Hfail by (vm_compute; reflexivity).
  destruct (refresh_failure_keeps_the_copy offline "/tmp/fep-mcp-0" _ _
              Hready Hfail) as (_ & _ & _ & _ & _ & Hread).
  split; [exact Hready|]. split; [by rewrite Hfail|].
  apply Hread. vm_compute. reflexivity.
Defined.

(** C10. When [getRemote] and [fetch] succeed and [openRepository] then
    throws, [refreshRepository] throws "Failed to refresh repository: "
    followed by the message of that error, the wrapper it also uses when
    the fetch itself fails, and [currentRepo] still holds the repository
    object it held before the call, with [currentRepoPath] unchanged. *)
Theorem reopen_failure_is_a_refresh_failure st repo path cause
    (Hrepo : currentRepo st = Some repo)
    (Hpath : truthy (currentRepoPath st) = Some path)
    (Hcalls : outcome <$> since st (refreshRepository st).2 =
              [(GetRemote repo "origin", None); (Fetch repo "origin", None);
               (OpenRepository path, Some cause)]) :
  (refreshRepository st).1 = Throw (refresh_failed cause) ∧
  currentRepo (refreshRepository st).2 = Some repo ∧
  currentRepoPath (refreshRepository st).2 = currentRepoPath st ∧
  (∀ st2 repo2 path2 cause2,
     currentRepo st2 = Some repo2 →
     truthy (currentRepoPath st2) = Some path2 →
     outcome <$> since st2 (refreshRepository st2).2 =
       [(GetRemote repo2 "origin", None);
        (Fetch repo2 "origin", Some cause2)] →
     (refreshRepository st2).1 = Throw (refresh_failed cause2)).
Proof.
  destruct (refreshRepository_outcomes st repo path Hrepo Hpath)
    as (Hp' & _ & _ & Hcases).
  split; [|split; [|split]].
  - destruct Hcases as [(? & _ & _ & H)|(c & -> & _ & [H|[H|H]])];
      rewrite H in Hcalls; by simplify_eq.
  - destruct Hcases as [(? & _ & _ & H)|(c & _ & -> & _)]; [|done].
    rewrite H in Hcalls. by simplify_eq.
  - done.
  - intros st2 repo2 path2 cause2 Hrepo2 Hpath2 Hcalls2.
    destruct (refreshRepository_outcomes st2 repo2 path2 Hrepo2 Hpath2)
      as (_ & _ & _ & [(? & _ & _ & H)|(c & -> & _ & [H|[H|H]])]);
      rewrite H in Hcalls2; by simplify_eq.
Qed.

Lemma reopen_failure_is_a_refresh_failure_witness :
  (refreshRepository stale).1 = Throw (refresh_failed locked) ∧
  currentRepo (refreshRepository stale).2 = currentRepo stale.
Proof.
  destruct (reopen_failure_is_a_refresh_failure stale
              (mkRepository 0 "/tmp/fep-mcp-0") "/tmp/fep-mcp-0" locked)
    as (Hthrow & Hkeep & _); [vm_compute; reflexivity..|].
  split; [exact Hthrow|]. rewrite Hkeep. vm_compute. reflexivity.
Defined.

(** ** The invariant of the handle *)

Lemma quiet_steady {A} (m : M A) st : quiet m → steady st → steady (m st).2.
Proof.
  intros Hm [Hnow Hseen]. destruct (Hm st) as (Hr & Hp & evs & Ht & Hevs).
  split; [by rewrite Hr, Hp|].
  rewrite Ht. apply Forall_app. split; [done|].
  eapply Forall_impl; [exact Hevs|]. by intros ev [-> ->].
Qed.

Lemma steady_assign st repo path :
  steady st → together repo path → steady (mkState repo path (world st)).
Proof. by intros [_ Hseen] Hnow. Qed.

Lemma together_None : together None None.
Proof. done. Qed.

Lemma together_Some repo path : together (Some repo) (Some path).
Proof. done. Qed.

Lemma steady_cleanupRepository st : steady st → steady (cleanupRepository st).2.
Proof.
  intros Hst. unfold cleanupRepository. unfold_monad.
  destruct (truthy (currentRepoPath st)) as [path|]; [|done].
  pose proof (quiet_steady _ st (quiet_cleanupOldRepo path) Hst) as H.
  destruct (cleanupOldRepo path st) as [[[]|e] st1]; [|done].
  exact (steady_assign st1 None None H together_None).
Qed.

Lemma quiet_renew repo path : quiet (renew repo path).
Proof. unfold renew. quiet_steps. Qed.

Lemma refreshRepository_phases st repo path :
  currentRepo st = Some repo →
  truthy (currentRepoPath st) = Some path →
  refreshRepository st =
  match renew repo path st with
  | (Return reopened, st') =>
      console_error "FEP repository refreshed successfully."
        (mkState (Some reopened) (currentRepoPath st') (world st'))
  | (Throw error, st') => (Throw (refresh_failed error), st')
  end.
Proof.
  intros Hrepo Hpath. unfold refreshRepository, renew. unfold_monad.
  rewrite Hrepo, Hpath. cbn [fst snd].
  destruct (EsGit.getRemote repo "origin" _) as [[remote|e] st1]; [|done].
  destruct (EsGit.fetch remote [] st1) as [[[]|e] st2]; [|done].
  by destruct (EsGit.openRepository path st2) as [[reopened|e] st3].
Qed.

Lemma steady_refreshRepository st : steady st → steady (refreshRepository st).2.
Proof.
  intros Hst.
  destruct (currentRepo st) as [repo|] eqn:Hrepo;
    [destruct (truthy (currentRepoPath st)) as [path|] eqn:Hpath|].
  - rewrite (refreshRepository_phases st repo path) by done.
    pose proof (quiet_steady _ st (quiet_renew repo path) Hst) as H.
    destruct (quiet_renew repo path st) as (_ & Hp & _).
    destruct (renew repo path st) as [[reopened|e] st1]; [|done].
    cbn [snd] in *. apply truthy_Some in Hpath as [Hpath _].
    rewrite Hp, Hpath. apply (quiet_steady _ (mkState _ _ _)).
    + apply quiet_console_error.
    + exact (steady_assign st1 _ _ H (together_Some reopened path)).
  - rewrite refreshRepository_dormant; done.
  - unfold refreshRepository. unfold_monad. by rewrite Hrepo.
Qed.

Lemma steady_initializeRepository st :
  steady st → steady (initializeRepository st).2.
Proof.
  intros Hst. rewrite initializeRepository_phases.
  pose proof (quiet_steady _ _ quiet_acquire (steady_cleanupRepository st Hst))
    as H.
  destruct (acquire _) as [[[p r]|e] st1]; [|done].
  exact (steady_assign st1 _ _ H (together_Some r p)).
Qed.

Lemma steady_perform op st : steady st → steady (perform op st).2.
Proof.
  intros Hst. destruct op; cbn [perform settle snd].
  - by apply steady_initializeRepository.
  - by apply steady_refreshRepository.
  - by apply quiet_steady; [apply quiet_readFile|].
  - by apply quiet_steady; [apply quiet_fileExists|].
  - by apply quiet_steady; [apply quiet_listDirectory|].
  - by apply quiet_steady; [apply quiet_getRepositoryPath|].
  - by apply steady_cleanupRepository.
Qed.

Lemma steady_session ops st : steady st → steady (session ops st).
Proof.
  revert st. induction ops as [|op ops IH]; intros st Hst; [done|].
  apply IH. by apply steady_perform.
Qed.

(** C7. [currentRepoPath] is [null] exactly when [currentRepo] is [null]:
    this holds when the module is loaded, every exported operation
    preserves it, and it also holds at every call an operation makes on the
    way (the points at which the variables can be observed from outside),
    so it holds throughout every session of operations. *)
Theorem handle_variables_go_together :
  (∀ op st, steady st → steady (perform op st).2) ∧
  (∀ w ops, trace w = [] → steady (session ops (loaded w))).
Proof.
  split; [apply steady_perform|].
  intros w ops Hw. apply steady_session.
  split; [done|]. cbn. rewrite Hw. constructor.
Qed.

Lemma handle_variables_go_together_witness :
  steady (session [Initialize; ReadFile "index.json"; Refresh; Initialize;
                   FileExists "fep"; Teardown; ListDirectory "fep"]
            (loaded calm)).
Proof.
  apply (proj2 handle_variables_go_together calm). reflexivity.
Defined.

(** ** The disk *)

Lemma same_outside_refl p d : same_outside p d d.
Proof. done. Qed.

Lemma same_outside_trans p d1 d2 d3 :
  same_outside p d1 d2 → same_outside p d2 d3 → same_outside p d1 d3.
Proof. intros H12 H23 q Hq. by rewrite H23, H12. Qed.

Lemma under_refl p : under p p = true.
Proof. unfold under. by rewrite String.eqb_refl. Qed.

Lemma under_below p q : below p q = true → under p q = true.
Proof. unfold under. intros ->. by rewrite orb_true_r. Qed.

Lemma below_app p rel : below p (p +:+ "/" +:+ rel) = true.
Proof.
  unfold below. apply prefix_app. exists rel. by rewrite string_app_assoc.
Qed.

Lemma prune_lookup p d q :
  prune p d !! q = if under p q then None else d !! q.
Proof.
  unfold prune. destruct (under p q) eqn:Hq.
  - apply map_lookup_filter_None. right. intros x _. cbn. congruence.
  - destruct (d !! q) as [x|] eqn:Hd.
    + by apply map_lookup_filter_Some.
    + apply map_lookup_filter_None. by left.
Qed.

Lemma same_outside_prune p d : same_outside p d (prune p d).
Proof. intros q Hq. by rewrite prune_lookup, Hq. Qed.

Lemma graft_lookup_outside p t d q :
  under p q = false → graft p t d !! q = d !! q.
Proof.
  intros Hq. unfold graft.
  rewrite lookup_insert_ne.
  2:{ intros <-. by rewrite under_refl in Hq. }
  rewrite lookup_union_r; [done|].
  apply lookup_kmap_None; [apply _|].
  intros rel ->. apply (f_equal negb) in Hq.
  by rewrite (under_below _ _ (below_app p rel)) in Hq.
Qed.

Lemma same_outside_graft p t d : same_outside p d (graft p t d).
Proof. intros q Hq. by apply graft_lookup_outside. Qed.

Lemma vacant_below p d q : vacant p d = true → below p q = true → d !! q = None.
Proof.
  unfold vacant. intros Hv%bool_decide_eq_true Hq.
  destruct (d !! q) as [x|] eqn:Hd; [|done].
  specialize (Hv q x Hd). cbn in Hv. congruence.
Qed.

Lemma graft_lookup_below p t d rel :
  vacant p d = true →
  graft p t d !! (p +:+ "/" +:+ rel) = t !! rel.
Proof.
  intros Hv. unfold graft.
  rewrite lookup_insert_ne.
  2:{ intros H. pose proof (below_app p rel) as Hb. rewrite <- H in Hb.
      unfold below in Hb. apply prefix_app in Hb as [rest Hrest].
      rewrite string_app_assoc in Hrest.
      rewrite <- (string_app_nil_r p) in Hrest at 1.
      by apply (inj (String.app p)) in Hrest. }
  rewrite lookup_union, (vacant_below p d) by auto using below_app.
  rewrite (lookup_kmap (λ rel, p +:+ "/" +:+ rel)).
  by destruct (t !! rel).
Qed.

Lemma graft_lookup_root p t d : graft p t d !! p = Some Dir.
Proof. apply lookup_insert_eq. Qed.

Lemma not_clonable_not_free dest d :
  EsGit.clonable dest d = false → free dest d = false.
Proof.
  unfold EsGit.clonable, free.
  destruct (d !! dest) as [[text|]|]; [done|..]; intros ->;
    by rewrite andb_false_r.
Qed.

(** ** One call at a time, on a state given by its fields *)

(** The world and the variables are given field by field, so that the
    state a call leaves can be written out in full. *)
Section fields.

Context (repo : option Repository) (path : option string)
  (d : gmap string node) (io : gmap string thrown) (ts : nat)
  (co : nat → clone_outcome) (gf : nat → option thrown) (nh : nat)
  (ck : N) (cs : list string) (tr : list event).

Let here : state := mkState repo path (mkWorld d io ts co gf nh ck cs tr).

Lemma cloneRepository_run url dest :
  (∃ checkout,
     co 0%nat = CloneOk checkout ∧ EsGit.clonable dest d = true ∧
     EsGit.cloneRepository url dest here =
     (Return (mkRepository nh dest),
      mkState repo path
        (mkWorld (graft dest checkout d) io ts (λ n, co (S n)) gf (S nh) ck cs
           (tr ++ [mkEvent (CloneRepository url dest) None repo path])))) ∨
  (∃ error d',
     same_outside dest d d' ∧
     (∀ residue e, co 0%nat = CloneFail (Some residue) e →
                   free dest d' = false) ∧
     EsGit.cloneRepository url dest here =
     (Throw error,
      mkState repo path
        (mkWorld d' io ts (λ n, co (S n)) gf nh ck cs
           (tr ++ [mkEvent (CloneRepository url dest) (Some error)
                     repo path])))).
Proof.
  unfold EsGit.cloneRepository, here. run_calls.
  destruct (EsGit.clonable dest d) eqn:Hc.
  - destruct (co 0%nat) as [checkout|[residue|] error] eqn:Hco.
    + left. by exists checkout.
    + right. exists error, (graft dest residue d).
      split; [apply same_outside_graft|]. split; [|done].
      intros _ _ _. unfold free. by rewrite graft_lookup_root.
    + right. exists error, d. split; [apply same_outside_refl|done].
  - right. eexists _, d. split; [apply same_outside_refl|].
    split; [|done]. intros _ _ _. by apply not_clonable_not_free.
Qed.

Lemma cleanupOldRepo_run dest :
  ∃ d' lines failed,
    same_outside dest d d' ∧
    (io !! dest = None → d' !! dest = None) ∧
    cleanupOldRepo dest here =
    (Return (),
     mkState repo path
       (mkWorld d' io ts co gf nh ck (cs ++ lines)
          (tr ++ [mkEvent (Remove dest) failed repo path]))).
Proof.
  unfold cleanupOldRepo, Deno.remove, here. unfold_monad. run_calls.
  destruct (io !! dest) as [error|] eqn:Hio.
  - destruct (instanceof_NotFound error).
    + exists d, [], (Some error). rewrite app_nil_r.
      split; [apply same_outside_refl|done].
    + cbn. eexists d, [_], (Some error).
      split; [apply same_outside_refl|done].
  - destruct (d !! dest) as [n|] eqn:Hd.
    + exists (prune dest d), [], None. rewrite app_nil_r.
      split; [apply same_outside_prune|]. split; [|done].
      intros _. by rewrite prune_lookup, under_refl.
    + cbn. eexists d, [], _. rewrite app_nil_r.
      split; [apply same_outside_refl|done].
Qed.

Lemma createTempDir_run :
  let dest := Deno.TMPDIR +:+ "/" +:+ "fep-mcp-" +:+ pretty ts in
  (d !! dest = None ∧
   createTempDir here =
   (Return dest,
    mkState repo path
      (mkWorld (<[dest := Dir]> d) io (S ts) co gf nh ck cs
         (tr ++ [mkEvent (MakeTempDir "fep-mcp-") None repo path])))) ∨
  (∃ error ts',
     createTempDir here =
     (Throw error,
      mkState repo path
        (mkWorld d io ts' co gf nh ck cs
           (tr ++ [mkEvent (MakeTempDir "fep-mcp-") (Some error)
                     repo path])))).
Proof.
  intros dest. unfold createTempDir, Deno.makeTempDir, here. run_calls.
  fold dest. destruct (io !! Deno.TMPDIR) as [error|].
  - right. by exists error, ts.
  - destruct (free dest d) eqn:Hfree.
    + left. split; [|done]. unfold free in Hfree.
      apply andb_true_iff in Hfree as [Hfree _].
      by apply bool_decide_eq_true in Hfree.
    + right. by eexists _, (S ts).
Qed.

Lemma cleanupRepository_run :
  ∃ repo1 path1 d1 cs1 pre,
    cleanupRepository here =
    (Return (),
     mkState repo1 path1 (mkWorld d1 io ts co gf nh ck cs1 (tr ++ pre))) ∧
    truthy path1 = None ∧
    ((truthy path = None ∧ repo1 = repo ∧ path1 = path ∧ pre = [] ∧ d1 = d) ∨
     (∃ old removal,
        truthy path = Some old ∧ repo1 = None ∧ path1 = None ∧
        pre = [mkEvent (Remove old) removal repo path] ∧
        same_outside old d d1 ∧
        (io !! old = None → d1 !! old = None))).
Proof.
  unfold here, cleanupRepository. unfold_monad.
  cbn [currentRepoPath].
  destruct (truthy path) as [old|] eqn:Hpath.
  - destruct (cleanupOldRepo_run old)
      as (d' & lines & failed & Hsame & Hgone & Hrun).
    unfold here in Hrun. rewrite Hrun. run_calls.
    exists None, None, d', (cs ++ lines), [mkEvent (Remove old) failed repo path].
    split; [done|]. split; [done|]. right. by exists old, failed.
  - exists repo, path, d, cs, []. rewrite app_nil_r.
    split; [done|]. split; [done|]. by left.
Qed.

End fields.

(** ** The retry loop *)

Lemma message_as_Error error : message (as_Error error) = message_or_String error.
Proof. by destruct error. Qed.

Ltac run_state :=
  cbv beta iota zeta delta
    [setTimeout delay returns throws observe with_world with_event with_disk
     with_clock with_console next_git next_clone next_temp fresh_handle
     world currentRepo currentRepoPath disk io_error temp_serial clone_oracle
     git_fault next_handle clock console trace fst snd] in *.

Ltac run_clone :=
  match goal with
  | |- context [EsGit.cloneRepository ?u ?p
                  (mkState ?r ?q (mkWorld ?d ?io ?ts ?co ?gf ?nh ?ck ?cs ?tr))] =>
      let H := fresh "Hrun" in
      destruct (cloneRepository_run r q d io ts co gf nh ck cs tr u p)
        as [(?checkout & ?Hco & ?Hclonable & H)
           |(?error & ?d' & ?Hsame & ?Hleft & H)];
      cbv zeta in H; rewrite H; clear H
  end.

Ltac run_cleanup :=
  match goal with
  | |- context [cleanupOldRepo ?p
                  (mkState ?r ?q (mkWorld ?d ?io ?ts ?co ?gf ?nh ?ck ?cs ?tr))] =>
      let H := fresh "Hrun" in
      destruct (cleanupOldRepo_run r q d io ts co gf nh ck cs tr p)
        as (?d' & ?lines & ?failed & ?Hsame & ?Hgone & H);
      cbv zeta in H; rewrite H; clear H
  end.

Lemma clone_attempts_turn attempt later lastError dest
    repo path d io ts co gf nh ck cs tr :
  let st := mkState repo path (mkWorld d io ts co gf nh ck cs tr) in
  let clone failed :=
    mkEvent (CloneRepository FEP_REPO_URL dest) failed repo path in
  (∃ checkout lines,
     co 0%nat = CloneOk checkout ∧ EsGit.clonable dest d = true ∧
     clone_attempts (attempt :: later) lastError dest st =
     (Return (mkRepository nh dest),
      mkState repo path
        (mkWorld (graft dest checkout d) io ts (λ n, co (S n)) gf (S nh) ck
           (cs ++ lines) (tr ++ [clone None])))) ∨
  (∃ error d' lines failed,
     same_outside dest d d' ∧
     (io !! dest = None → (attempt <? MAX_RETRIES)%nat = true →
      d' !! dest = None) ∧
     ((attempt <? MAX_RETRIES)%nat = false →
      ∀ residue e, co 0%nat = CloneFail (Some residue) e →
                   free dest d' = false) ∧
     clone_attempts (attempt :: later) lastError dest st =
     clone_attempts later (Some (as_Error error)) dest
       (mkState repo path
          (mkWorld d' io ts (λ n, co (S n)) gf nh
             (if (attempt <? MAX_RETRIES)%nat
              then ck + BASE_DELAY_MS * 2 ^ N.of_nat (attempt - 1) else ck)
             (cs ++ lines)
             (tr ++ clone (Some error) ::
                (if (attempt <? MAX_RETRIES)%nat
                 then [mkEvent (SetTimeout
                                  (BASE_DELAY_MS * 2 ^ N.of_nat (attempt - 1)))
                         None repo path;
                       mkEvent (Remove dest) failed repo path]
                 else []))))).
Proof.
  intros st clone. unfold st, clone. cbn [clone_attempts]. unfold_monad.
  run_state. run_clone.
  - left. exists checkout. eexists.
    split; [done|]. split; [done|]. rewrite <- app_assoc. reflexivity.
  - right. destruct (attempt <? MAX_RETRIES)%nat.
    + run_state. run_cleanup.
      exists error, d'0. eexists. exists failed.
      split; [by eapply same_outside_trans|]. split; [auto|].
      split; [done|]. rewrite <- !app_assoc. reflexivity.
    + exists error, d'. eexists. exists None.
      split; [done|]. split; [done|]. split; [auto|].
      rewrite <- ?app_assoc. reflexivity.
Qed.

Lemma clone_attempts_exhausted error dest st :
  clone_attempts [] (Some (as_Error error)) dest st
  = (Throw (clone_failed error), st).
Proof.
  cbn [clone_attempts optional_message]. rewrite message_as_Error.
  unfold throw, clone_failed. do 3 f_equal.
Qed.

Lemma cloneWithRetry_run dest repo path d io ts co gf nh ck cs tr :
  let st := mkState repo path (mkWorld d io ts co gf nh ck cs tr) in
  let clone failed :=
    mkEvent (CloneRepository FEP_REPO_URL dest) failed repo path in
  let wait ms := mkEvent (SetTimeout ms) None repo path in
  let remove failed := mkEvent (Remove dest) failed repo path in
  ∃ d' cs',
    same_outside dest d d' ∧
    ((∃ checkout d0,
        co 0%nat = CloneOk checkout ∧ EsGit.clonable dest d0 = true ∧
        d' = graft dest checkout d0 ∧
        cloneWithRetry dest st =
        (Return (mkRepository nh dest),
         mkState repo path
           (mkWorld d' io ts (λ n, co (S n)) gf (S nh) ck cs'
              (tr ++ [clone None])))) ∨
     (∃ checkout d0 e1 f1,
        co 1%nat = CloneOk checkout ∧ EsGit.clonable dest d0 = true ∧
        d' = graft dest checkout d0 ∧
        cloneWithRetry dest st =
        (Return (mkRepository nh dest),
         mkState repo path
           (mkWorld d' io ts (λ n, co (S (S n))) gf (S nh) (ck + 1000) cs'
              (tr ++ [clone (Some e1); wait 1000; remove f1; clone None])))) ∨
     (∃ checkout d0 e1 f1 e2 f2,
        co 2%nat = CloneOk checkout ∧ EsGit.clonable dest d0 = true ∧
        d' = graft dest checkout d0 ∧
        cloneWithRetry dest st =
        (Return (mkRepository nh dest),
         mkState repo path
           (mkWorld d' io ts (λ n, co (S (S (S n)))) gf (S nh)
              (ck + 1000 + 2000) cs'
              (tr ++ [clone (Some e1); wait 1000; remove f1;
                      clone (Some e2); wait 2000; remove f2;
                      clone None])))) ∨
     (∃ e1 f1 e2 f2 e3,
        (∀ residue e, co 2%nat = CloneFail (Some residue) e →
                      free dest d' = false) ∧
        cloneWithRetry dest st =
        (Throw (clone_failed e3),
         mkState repo path
           (mkWorld d' io ts (λ n, co (S (S (S n)))) gf nh
              (ck + 1000 + 2000) cs'
              (tr ++ [clone (Some e1); wait 1000; remove f1;
                      clone (Some e2); wait 2000; remove f2;
                      clone (Some e3)]))))).
Proof.
  intros st clone wait remove. unfold st, clone, wait, remove, cloneWithRetry.
  change (seq 1 MAX_RETRIES) with [1; 2; 3]%nat.
  pose proof (clone_attempts_turn 1 [2; 3]%nat None dest
                repo path d io ts co gf nh ck cs tr) as H1.
  cbv zeta in H1.
  destruct H1 as [(checkout & lines & Hco & Hcl & ->)
                 |(e1 & d1 & lines1 & f1 & Hs1 & _ & _ & ->)].
  { exists (graft dest checkout d), (cs ++ lines).
    split; [apply same_outside_graft|]. left. by exists checkout, d. }
  change (1 <? MAX_RETRIES)%nat with true. cbv iota.
  change (BASE_DELAY_MS * 2 ^ N.of_nat (1 - 1)) with 1000%N.
  match goal with
  | |- context [clone_attempts _ _ _
                  (mkState ?r ?q (mkWorld ?d ?io ?ts ?co ?gf ?nh ?ck ?cs ?tr))] =>
      pose proof (clone_attempts_turn 2 [3]%nat (Some (as_Error e1)) dest
                    r q d io ts co gf nh ck cs tr) as H2
  end.
  cbv zeta in H2.
  destruct H2 as [(checkout & lines & Hco & Hcl & ->)
                 |(e2 & d2 & lines2 & f2 & Hs2 & _ & _ & ->)].
  { exists (graft dest checkout d1), (cs ++ lines1 ++ lines).
    split; [eapply same_outside_trans; [done|apply same_outside_graft]|].
    right. left. exists checkout, d1, e1, f1.
    rewrite <- !app_assoc. done. }
  change (2 <? MAX_RETRIES)%nat with true. cbv iota.
  change (BASE_DELAY_MS * 2 ^ N.of_nat (2 - 1)) with 2000%N.
  match goal with
  | |- context [clone_attempts _ _ _
                  (mkState ?r ?q (mkWorld ?d ?io ?ts ?co ?gf ?nh ?ck ?cs ?tr))] =>
      pose proof (clone_attempts_turn 3 []%nat (Some (as_Error e2)) dest
                    r q d io ts co gf nh ck cs tr) as H3
  end.
  cbv zeta in H3.
  destruct H3 as [(checkout & lines & Hco & Hcl & ->)
                 |(e3 & d3 & lines3 & f3 & Hs3 & _ & Hleft & ->)].
  { exists (graft dest checkout d2), (cs ++ lines1 ++ lines2 ++ lines).
    split; [do 2 (eapply same_outside_trans; [done|]);
            apply same_outside_graft|].
    right. right. left. exists checkout, d2, e1, f1, e2, f2.
    rewrite <- !app_assoc. done. }
  change (3 <? MAX_RETRIES)%nat with false. cbv iota.
  rewrite clone_attempts_exhausted.
  exists d3, (cs ++ lines1 ++ lines2 ++ lines3).
  split; [by do 2 (eapply same_outside_trans; [done|])|].
  right. right. right. exists e1, f1, e2, f2, e3.
  split; [by apply Hleft|]. rewrite <- !app_assoc. done.
Qed.

Lemma cloneWithRetry_course dest repo path d io ts co gf nh ck cs tr :
  let st := mkState repo path (mkWorld d io ts co gf nh ck cs tr) in
  ∃ failed final d' cs',
    (length failed < MAX_RETRIES)%nat ∧
    same_outside dest d d' ∧
    cloneWithRetry dest st =
    (match final with
     | None => Return (mkRepository nh dest)
     | Some error => Throw (clone_failed error)
     end,
     mkState repo path
       (mkWorld d' io ts (λ n, co (S (length failed) + n)%nat) gf
          (match final with Some _ => nh | None => S nh end)
          (ck + waited 1 (length failed)) cs'
          (tr ++ course dest repo path failed final))) ∧
    match final with
    | None =>
        ∃ checkout d0,
          co (length failed) = CloneOk checkout ∧
          EsGit.clonable dest d0 = true ∧ d' = graft dest checkout d0
    | Some _ =>
        S (length failed) = MAX_RETRIES ∧
        ∀ residue e, co (length failed) = CloneFail (Some residue) e →
                     free dest d' = false
    end.
Proof.
  intros st.
  destruct (cloneWithRetry_run dest repo path d io ts co gf nh ck cs tr)
    as (d' & cs' & Hsame & Hcases).
  fold st in Hcases.
  destruct Hcases as
    [(checkout & d0 & Hco & Hcl & Hd & ->)
    |[(checkout & d0 & e1 & f1 & Hco & Hcl & Hd & ->)
    |[(checkout & d0 & e1 & f1 & e2 & f2 & Hco & Hcl & Hd & ->)
    |(e1 & f1 & e2 & f2 & e3 & Hleft & ->)]]].
  - exists [], None, d', cs'. unfold MAX_RETRIES.
    split; [cbn; lia|]. split; [done|]. split; [|by exists checkout, d0].
    cbn [length waited]. by rewrite N.add_0_r.
  - exists [(e1, f1)], None, d', cs'. unfold MAX_RETRIES.
    split; [cbn; lia|]. split; [done|]. split; [|by exists checkout, d0].
    cbn [length waited]. by rewrite N.add_0_r.
  - exists [(e1, f1); (e2, f2)], None, d', cs'. unfold MAX_RETRIES.
    split; [cbn; lia|]. split; [done|]. split; [|by exists checkout, d0].
    cbn [length waited]. rewrite N.add_0_r.
    by rewrite (N.add_assoc ck).
  - exists [(e1, f1); (e2, f2)], (Some e3), d', cs'. unfold MAX_RETRIES.
    split; [cbn; lia|]. split; [done|]. split; [|done].
    cbn [length waited]. rewrite N.add_0_r.
    by rewrite (N.add_assoc ck).
Qed.

Lemma attempts_of_app evs1 evs2 :
  attempts_of (evs1 ++ evs2) = attempts_of evs1 ++ attempts_of evs2.
Proof. apply omap_app. Qed.

Lemma attempts_of_retries dest repo path attempt failed :
  attempts_of (retries dest repo path attempt failed)
  = (λ x, Some x.1) <$> failed.
Proof.
  revert attempt. induction failed as [|[e f] later IH]; intros attempt.
  - done.
  - cbn. by rewrite IH.
Qed.

Lemma attempts_of_course dest repo path failed final :
  attempts_of (course dest repo path failed final)
  = ((λ x, Some x.1) <$> failed) ++ [final].
Proof.
  unfold course. by rewrite attempts_of_app, attempts_of_retries.
Qed.

Lemma call_retries dest repo path attempt failed final :
  call <$> (retries dest repo path attempt failed ++
            [mkEvent (CloneRepository FEP_REPO_URL dest) final repo path]) =
  CloneRepository FEP_REPO_URL dest ::
  flat_map (λ k, [SetTimeout (1000 * 2 ^ N.of_nat (k - 1));
                  Remove dest;
                  CloneRepository FEP_REPO_URL dest])
    (seq attempt (length failed)).
Proof.
  revert attempt. induction failed as [|[e f] later IH]; intros attempt.
  - done.
  - cbn [retries length seq flat_map app fmap list_fmap call].
    change (list_fmap event action call) with (fmap (M:=list) call).
    by rewrite IH.
Qed.

Example retry_schedule_three dest :
  retry_schedule dest 3 =
  [CloneRepository FEP_REPO_URL dest; SetTimeout 1000; Remove dest;
   CloneRepository FEP_REPO_URL dest; SetTimeout 2000; Remove dest;
   CloneRepository FEP_REPO_URL dest].
Proof. reflexivity. Qed.

Lemma call_course dest repo path failed final :
  call <$> course dest repo path failed final
  = retry_schedule dest (S (length failed)).
Proof.
  unfold course, retry_schedule. rewrite call_retries.
  by rewrite Nat.sub_1_r.
Qed.

Lemma waited_two : waited 1 2 = 3000.
Proof. reflexivity. Qed.

(** ** [initializeRepository] from start to end *)

Lemma initializeRepository_course repo path d io ts co gf nh ck cs tr :
  let st := mkState repo path (mkWorld d io ts co gf nh ck cs tr) in
  let dest := Deno.TMPDIR +:+ "/" +:+ "fep-mcp-" +:+ pretty ts in
  ∃ repo1 path1 d1 cs1 pre,
    truthy path1 = None ∧
    ((truthy path = None ∧ repo1 = repo ∧ path1 = path ∧ pre = [] ∧ d1 = d) ∨
     (∃ old removal,
        truthy path = Some old ∧ repo1 = None ∧ path1 = None ∧
        pre = [mkEvent (Remove old) removal repo path] ∧
        same_outside old d d1 ∧
        (io !! old = None → d1 !! old = None))) ∧
    ((∃ error ts',
        initializeRepository st =
        (Throw error,
         mkState repo1 path1
           (mkWorld d1 io ts' co gf nh ck cs1
              (tr ++ pre ++
               [mkEvent (MakeTempDir "fep-mcp-") (Some error)
                  repo1 path1])))) ∨
     (∃ failed final d' cs',
        (length failed < MAX_RETRIES)%nat ∧
        d1 !! dest = None ∧
        same_outside dest d1 d' ∧
        initializeRepository st =
        (match final with
         | None => Return dest
         | Some error => Throw (clone_failed error)
         end,
         mkState
           (match final with
            | None => Some (mkRepository nh dest)
            | Some _ => repo1
            end)
           (match final with None => Some dest | Some _ => path1 end)
           (mkWorld d' io (S ts) (λ n, co (S (length failed) + n)%nat) gf
              (match final with Some _ => nh | None => S nh end)
              (ck + waited 1 (length failed)) cs'
              (tr ++ pre ++
               mkEvent (MakeTempDir "fep-mcp-") None repo1 path1 ::
               course dest repo1 path1 failed final))) ∧
        match final with
        | None =>
            ∃ checkout d0,
              co (length failed) = CloneOk checkout ∧
              EsGit.clonable dest d0 = true ∧ d' = graft dest checkout d0
        | Some _ =>
            S (length failed) = MAX_RETRIES ∧
            ∀ residue e, co (length failed) = CloneFail (Some residue) e →
                         free dest d' = false
        end)).
Proof.
  intros st dest. rewrite initializeRepository_phases.
  destruct (cleanupRepository_run repo path d io ts co gf nh ck cs tr)
    as (repo1 & path1 & d1 & cs1 & pre & Hclean & Hdormant & Hpre).
  fold st in Hclean. rewrite Hclean. cbn [snd].
  exists repo1, path1, d1, cs1, pre. split; [done|]. split; [done|].
  unfold acquire. unfold_monad.
  destruct (createTempDir_run repo1 path1 d1 io ts co gf nh ck cs1 (tr ++ pre))
    as [[Hfree Hrun]|(error & ts' & Hrun)];
    cbv zeta in Hrun; rewrite Hrun; clear Hrun; fold dest.
  - right.
    destruct (cloneWithRetry_course dest repo1 path1 (<[dest := Dir]> d1)
                io (S ts) co gf nh ck cs1
                (tr ++ pre ++ [mkEvent (MakeTempDir "fep-mcp-") None
                                 repo1 path1]))
      as (failed & final & d' & cs' & Hlen & Hsame & Hrun & Hfinal).
    cbv zeta in Hrun. rewrite <- app_assoc. rewrite Hrun. clear Hrun.
    exists failed, final, d', cs'. split; [done|]. split; [done|]. split.
    { intros q Hq. rewrite Hsame by done. apply lookup_insert_ne.
      intros <-. by rewrite under_refl in Hq. }
    split; [|done].
    rewrite <- !app_assoc. by destruct final.
  - left. exists error, ts'. by rewrite <- app_assoc.
Qed.

Lemma clonable_vacant dest d : EsGit.clonable dest d = true → vacant dest d = true.
Proof.
  unfold EsGit.clonable. by destruct (d !! dest) as [[text|]|].
Qed.

Lemma attempts_of_prelude (pre : list event) path repo :
  pre = [] ∨ (∃ old removal, pre = [mkEvent (Remove old) removal repo path]) →
  attempts_of pre = [].
Proof. by intros [->|(old & removal & ->)]. Qed.

(** C2. A run of the retry loop makes at most 3 clone attempts, all into
    the same destination; its calls follow the schedule of the claim:
    after failed attempt [k] < 3 it waits 1000 * 2^(k-1) ms, then removes
    the destination, then clones again; it returns at the first attempt
    that succeeds and gives up only after a third failure.  When
    [initializeRepository] returns after attempts 1 and 2 failed and
    attempt 3 succeeded, the handle is initialized at the new directory,
    the waits add up to 3000 ms, the directory holds exactly the checkout
    the third attempt delivered (nothing the failed attempts wrote is left
    below it), and nothing else on the disk has changed apart from the
    previous working copy. *)
Theorem clone_retry_schedule :
  (∀ dest st,
     let st' := (cloneWithRetry dest st).2 in
     ∃ failed final,
       (S (length failed) ≤ 3)%nat ∧
       attempts_of (since st st') = (Some <$> failed) ++ [final] ∧
       call <$> since st st' = retry_schedule dest (S (length failed)) ∧
       match final with
       | None =>
           ∃ repo, (cloneWithRetry dest st).1 = Return repo ∧
                   repo_path repo = dest
       | Some error =>
           S (length failed) = 3%nat ∧
           (cloneWithRetry dest st).1 = Throw (clone_failed error)
       end) ∧
  (∀ st dest st' e1 e2,
     initializeRepository st = (Return dest, st') →
     attempts_of (since st st') = [Some e1; Some e2; None] →
     ready_at dest st' ∧
     clock (world st') = clock (world st) + 3000 ∧
     (∃ checkout,
        clone_oracle (world st) 2%nat = CloneOk checkout ∧
        disk (world st') !! dest = Some Dir ∧
        ∀ rel, disk (world st') !! (dest +:+ "/" +:+ rel) = checkout !! rel) ∧
     (∀ q, under dest q = false →
           (∀ old, truthy (currentRepoPath st) = Some old →
                   under old q = false) →
           disk (world st') !! q = disk (world st) !! q)).
Proof.
  split.
  - intros dest [repo path [d io ts co gf nh ck cs tr]] st'.
    destruct (cloneWithRetry_course dest repo path d io ts co gf nh ck cs tr)
      as (failed & final & d' & cs' & Hlen & _ & Hrun & Hfinal).
    cbv zeta in Hrun. unfold st'. rewrite Hrun. clear Hrun st'.
    exists (fst <$> failed), final. rewrite length_fmap.
    unfold since. cbn [world trace snd fst]. rewrite drop_app_length.
    split; [exact Hlen|]. split.
    { rewrite attempts_of_course. by rewrite <- list_fmap_compose. }
    split; [apply call_course|].
    destruct final as [error|]; [by destruct Hfinal|]. by eexists.
  - intros [repo path [d io ts co gf nh ck cs tr]] dest st' e1 e2 Hinit.
    destruct (initializeRepository_course repo path d io ts co gf nh ck cs tr)
      as (repo1 & path1 & d1 & cs1 & pre & _ & Hpre &
          [(error & ts' & Hrun)
          |(failed & final & d' & cs' & _ & Hfree & Hsame & Hrun & Hfinal)]);
      cbv zeta in Hrun; rewrite Hrun in Hinit; clear Hrun; [done|].
    destruct final as [error|]; [done|].
    injection Hinit as <- <-.
    unfold since. cbn [world trace currentRepoPath clock clone_oracle disk].
    rewrite drop_app_length.
    rewrite attempts_of_app.
    rewrite (attempts_of_prelude pre path repo)
      by (destruct Hpre as [(_ & _ & _ & -> & _)
                           |(old & removal & _ & _ & _ & -> & _)]; eauto).
    cbn [app]. change (attempts_of (?ev :: ?l)) with (attempts_of l).
    rewrite attempts_of_course. intros Hattempts.
    assert (length failed = 2%nat) as Hlen.
    { apply (f_equal length) in Hattempts.
      rewrite length_app, length_fmap in Hattempts. cbn in Hattempts. lia. }
    destruct Hfinal as (checkout & d0 & Hco & Hclonable & ->).
    rewrite Hlen in *. split; [|split; [|split]].
    + split; [by eexists|]. split; [done|]. apply temp_name_not_empty.
    + done.
    + exists checkout. split; [done|]. split; [apply graft_lookup_root|].
      intros rel. apply graft_lookup_below. by apply clonable_vacant.
    + intros q Hq Hold. rewrite Hsame by done.
      destruct Hpre as [(_ & _ & _ & _ & ->)
                       |(old & removal & Hpath & _ & _ & _ & Hout & _)];
        [done|].
      apply Hout. by apply Hold.
Qed.

Lemma clone_retry_schedule_witness :
  (initializeRepository (loaded flaky)).1 = Return "/tmp/fep-mcp-0" ∧
  attempts_of (since (loaded flaky) (initializeRepository (loaded flaky)).2)
  = [Some timeout; Some reset; None] ∧
  clock (world (initializeRepository (loaded flaky)).2) = 3000 ∧
  disk (world (initializeRepository (loaded flaky)).2)
    !! ("/tmp/fep-mcp-0" +:+ "/" +:+ ".git/HEAD") = None.
Proof.
  assert (initializeRepository (loaded flaky)
          = (Return "/tmp/fep-mcp-0", (initializeRepository (loaded flaky)).2))
    as Hinit by (vm_compute; reflexivity).
  assert (attempts_of
            (since (loaded flaky) (initializeRepository (loaded flaky)).2)
          = [Some timeout; Some reset; None]) as Hattempts
    by (vm_compute; reflexivity).
  destruct (proj2 clone_retry_schedule _ _ _ _ _ Hinit Hattempts)
    as (_ & Hclock & (checkout & Hco & _ & Hbelow) & _).
  split; [by rewrite Hinit|]. split; [exact Hattempts|].
  split; [exact Hclock|].
  rewrite Hbelow. cbn in Hco. injection Hco as <-. vm_compute. reflexivity.
Defined.

(** ** When every attempt fails *)






(** ** Two initializations in a row *)

Lemma has_slash_cons c s :
  has_slash (String c s) = Ascii.eqb c "/" || has_slash s.
Proof. done. Qed.

Lemma has_slash_app a rest : has_slash (a +:+ "/" +:+ rest) = true.
Proof.
  induction a as [|c a IH]; [done|].
  change (String c a +:+ "/" +:+ rest) with (String c (a +:+ "/" +:+ rest)).
  rewrite has_slash_cons, IH. apply orb_true_r.
Qed.

Lemma pretty_N_char_not_slash x : Ascii.eqb (pretty_N_char x) "/" = false.
Proof.
  destruct x as [|p]; [done|].
  do 4 (destruct p as [p|p|]; try done).
Qed.

Lemma pretty_N_go_no_slash x s :
  has_slash s = false → has_slash (pretty_N_go x s) = false.
Proof.
  revert s. induction (N.lt_wf_0 x) as [x _ IH]; intros s Hs.
  destruct (decide (x = 0)) as [->|Hx].
  - by rewrite pretty_N_go_0.
  - rewrite pretty_N_go_step by lia. apply IH.
    + apply N.div_lt; lia.
    + by rewrite has_slash_cons, pretty_N_char_not_slash.
Qed.

Lemma pretty_nat_no_slash (n : nat) : has_slash (pretty n) = false.
Proof.
  unfold pretty, pretty_nat, pretty, pretty_N.
  case_decide; [done|]. by apply pretty_N_go_no_slash.
Qed.

Lemma temp_names_apart prefix (m n : nat) :
  m ≠ n →
  under (Deno.TMPDIR +:+ "/" +:+ prefix +:+ pretty m)
        (Deno.TMPDIR +:+ "/" +:+ prefix +:+ pretty n) = false.
Proof.
  intros Hmn. unfold under. apply orb_false_iff. split.
  - apply String.eqb_neq. intros H.
    do 3 apply (inj (String.app _)) in H. apply (inj pretty) in H. done.
  - apply not_true_is_false. unfold below. intros [rest H]%prefix_app.
    rewrite !string_app_assoc in H.
    do 3 apply (inj (String.app _)) in H.
    pose proof (pretty_nat_no_slash n) as Hn.
    rewrite H, has_slash_app in Hn. done.
Qed.

(** C8 (as amended). Two calls of [initializeRepository] in a row that
    both return give two different paths; the second call starts by
    removing the first working copy, and when that removal is not refused
    by the system the first path is gone from the disk afterwards, while
    the second path, which did not exist before, is a directory. *)
Theorem reinitialize_moves_the_copy st path1 st1 path2 st2
    (Hfirst : initializeRepository st = (Return path1, st1))
    (Hsecond : initializeRepository st1 = (Return path2, st2)) :
  path1 ≠ path2 ∧
  (∃ removal,
     head (outcome <$> since st1 st2) = Some (Remove path1, removal)) ∧
  (io_error (world st1) !! path1 = None →
   disk (world st2) !! path1 = None) ∧
  disk (world st1) !! path2 = None ∧
  disk (world st2) !! path2 = Some Dir.
Proof.
  destruct st as [repo path [d io ts co gf nh ck cs tr]].
  destruct (initializeRepository_course repo path d io ts co gf nh ck cs tr)
    as (repo1 & p1 & d1 & cs1 & pre & _ & _ &
        [(error' & ts' & Hrun)
        |(failed & final & d' & cs' & _ & _ & _ & Hrun & Hfinal)]);
    cbv zeta in Hrun; rewrite Hrun in Hfirst; clear Hrun; [done|].
  destruct final as [e|]; [done|]. injection Hfirst as <- <-.
  match type of Hsecond with
  | initializeRepository
      (mkState ?r ?q (mkWorld ?d ?io ?ts ?co ?gf ?nh ?ck ?cs ?tr)) = _ =>
      destruct (initializeRepository_course r q d io ts co gf nh ck cs tr)
        as (repo2 & p2 & d2 & cs2 & pre2 & _ & Hpre &
            [(error' & ts' & Hrun)
            |(failed2 & final2 & d2' & cs2' & _ & Hfree & Hsame & Hrun
              & Hfinal2)])
  end;
    cbv zeta in Hrun; rewrite Hrun in Hsecond; clear Hrun; [done|].
  destruct final2 as [e|]; [done|]. injection Hsecond as <- <-.
  rewrite truthy_ready in Hpre by apply temp_name_not_empty.
  destruct Hpre as [([=] & _)
                   |(old & removal & [= <-] & _ & _ & -> & Hout & Hgone)].
  destruct Hfinal2 as (checkout & d0 & _ & _ & ->).
  assert (ts ≠ S ts) as Hserial by lia.
  split; [|split; [|split; [|split]]].
  - intros H. do 3 apply (inj (String.app _)) in H.
    apply (inj pretty) in H. done.
  - exists removal. unfold since. cbn [world trace].
    by rewrite drop_app_length.
  - cbn [world io_error disk]. intros Hio.
    rewrite Hsame by (by apply temp_names_apart). by apply Hgone.
  - cbn [world disk]. rewrite <- Hfree. symmetry.
    apply Hout. by apply temp_names_apart.
  - apply graft_lookup_root.
Qed.

Lemma reinitialize_moves_the_copy_witness :
  (initializeRepository (loaded calm)).1 = Return "/tmp/fep-mcp-0" ∧
  (initializeRepository served).1 = Return "/tmp/fep-mcp-1" ∧
  disk (world (initializeRepository served).2) !! "/tmp/fep-mcp-0" = None.
Proof.
  assert (initializeRepository (loaded calm)
          = (Return "/tmp/fep-mcp-0", served)) as Hfirst
    by (vm_compute; reflexivity).
  assert (initializeRepository served
          = (Return "/tmp/fep-mcp-1", (initializeRepository served).2))
    as Hsecond by (vm_compute; reflexivity).
  destruct (reinitialize_moves_the_copy _ _ _ _ _ Hfirst Hsecond)
    as (_ & _ & Hgone & _).
  split; [by rewrite Hfirst|]. split; [by rewrite Hsecond|].
  apply Hgone. vm_compute. reflexivity.
Defined.

(** C8 (as stated) fails: removal is best-effort.  When the system refuses
    to remove the first working copy, [cleanupOldRepo] logs a warning, the
    second [initializeRepository] still returns a new path, and the first
    path is still on the disk. *)
Lemma reinitialize_can_leave_the_old_copy :
  (initializeRepository (loaded sticky)).1 = Return "/tmp/fep-mcp-0" ∧
  (initializeRepository (initializeRepository (loaded sticky)).2).1
  = Return "/tmp/fep-mcp-1" ∧
  disk (world (initializeRepository
                 (initializeRepository (loaded sticky)).2).2)
    !! "/tmp/fep-mcp-0" = Some Dir.
Proof. vm_compute. done. Qed.

(** ** Tearing down *)

Lemma prune_under p d q : under p q = true → prune p d !! q = None.
Proof. intros Hq. by rewrite prune_lookup, Hq. Qed.

Lemma cleanupOldRepo_cases path repo cur d io ts co gf nh ck cs tr :
  let st := mkState repo cur (mkWorld d io ts co gf nh ck cs tr) in
  let st' failed d' cs' :=
    mkState repo cur
      (mkWorld d' io ts co gf nh ck cs'
         (tr ++ [mkEvent (Remove path) failed repo cur])) in
  match io !! path with
  | Some error =>
      cleanupOldRepo path st =
      (Return (),
       st' (Some error) d
         (if instanceof_NotFound error then cs
          else cs ++ [cleanup_warning path error]))
  | None =>
      match d !! path with
      | Some _ => cleanupOldRepo path st = (Return (), st' None (prune path d) cs)
      | None =>
          cleanupOldRepo path st =
          (Return (), st' (Some (Deno.not_found "remove" path)) d cs)
      end
  end.
Proof.
  intros st st'. unfold st, st', cleanupOldRepo, Deno.remove. unfold_monad.
  run_calls.
  destruct (io !! path) as [error|].
  - by destruct (instanceof_NotFound error).
  - by destruct (d !! path).
Qed.

Lemma cleanupOldRepo_effects path st :
  let st' := (cleanupOldRepo path st).2 in
  (cleanupOldRepo path st).1 = Return () ∧
  currentRepo st' = currentRepo st ∧
  currentRepoPath st' = currentRepoPath st ∧
  (∃ removal, outcome <$> since st st' = [(Remove path, removal)]) ∧
  same_outside path (disk (world st)) (disk (world st')) ∧
  (io_error (world st) !! path = None →
   console (world st') = console (world st) ∧
   disk (world st') !! path = None ∧
   (is_Some (disk (world st) !! path) →
    ∀ q, under path q = true → disk (world st') !! q = None)) ∧
  (∀ error, io_error (world st) !! path = Some error →
     disk (world st') = disk (world st) ∧
     console (world st') =
       console (world st) ++
       (if instanceof_NotFound error then []
        else [cleanup_warning path error])).
Proof.
  destruct st as [repo cur [d io ts co gf nh ck cs tr]].
  pose proof (cleanupOldRepo_cases path repo cur d io ts co gf nh ck cs tr)
    as H. cbv zeta in H. cbv zeta.
  cbn [world disk io_error console currentRepo currentRepoPath].
  destruct (io !! path) as [error|] eqn:Hio.
  - rewrite H. cbn [fst snd world disk console currentRepo currentRepoPath].
    do 3 (split; [done|]).
    split; [exists (Some error); by since_events|].
    split; [done|]. split; [done|].
    intros ? [= <-]. split; [done|].
    destruct (instanceof_NotFound error); [by rewrite app_nil_r|done].
  - destruct (d !! path) as [n|] eqn:Hd; rewrite H;
      cbn [fst snd world disk console currentRepo currentRepoPath];
      do 3 (split; [done|]).
    + split; [exists None; by since_events|].
      split; [apply same_outside_prune|]. split; [|done].
      intros _. split; [done|]. split; [by apply prune_under, under_refl|].
      intros _ q Hq. by apply prune_under.
    + split; [eexists; by since_events|].
      split; [done|]. split; [|done].
      intros _. split; [done|]. split; [done|]. by intros [? [=]].
Qed.



Lemma cleanupRepository_ready path st :
  truthy (currentRepoPath st) = Some path →
  cleanupRepository st =
  (Return (), mkState None None (world (cleanupOldRepo path st).2)).
Proof.
  intros Hpath. unfold cleanupRepository. unfold_monad. rewrite Hpath.
  destruct (cleanupOldRepo_effects path st) as (Hret & _).
  by destruct (cleanupOldRepo path st) as [[[]|e] st1].
Qed.

Lemma cleanupRepository_idle st :
  dormant st → cleanupRepository st = (Return (), st).
Proof.
  unfold dormant, cleanupRepository. unfold_monad. by intros ->.
Qed.

(** X1. [cleanupRepository] never throws and always leaves a handle that
    is not initialized.  On such a handle it does nothing at all, so a
    second teardown is a no-op; on an initialized one it makes the single
    call [Deno.remove] on the working copy, sets both variables to [null],
    and the working copy is gone unless the system refused to remove it. *)
Theorem teardown_is_idempotent st :
  let st' := (cleanupRepository st).2 in
  (cleanupRepository st).1 = Return () ∧
  dormant st' ∧
  (dormant st → st' = st) ∧
  cleanupRepository st' = (Return (), st') ∧
  (∀ path, truthy (currentRepoPath st) = Some path →
     cleared st' ∧
     (∃ removal, outcome <$> since st st' = [(Remove path, removal)]) ∧
     same_outside path (disk (world st)) (disk (world st')) ∧
     (io_error (world st) !! path = None →
      disk (world st') !! path = None)).
Proof.
  cbv zeta. split; [|split; [|split; [|split]]].
  - destruct (truthy (currentRepoPath st)) as [path|] eqn:Hpath.
    + by rewrite (cleanupRepository_ready path).
    + by rewrite cleanupRepository_idle.
  - apply cleanupRepository_dormant.
  - intros Hd. by rewrite cleanupRepository_idle.
  - apply cleanupRepository_idle, cleanupRepository_dormant.
  - intros path Hpath. rewrite (cleanupRepository_ready path) by done.
    destruct (cleanupOldRepo_effects path st)
      as (_ & _ & _ & Hcalls & Hsame & Hgone & _).
    cbn [snd] in *.
    refine (conj (conj eq_refl eq_refl) (conj Hcalls (conj Hsame _))).
    intros Hio. exact (proj1 (proj2 (Hgone Hio))).
Qed.

Lemma teardown_is_idempotent_witness :
  cleared (cleanupRepository served).2 ∧
  disk (world (cleanupRepository served).2) !! "/tmp/fep-mcp-0" = None ∧
  cleanupRepository (cleanupRepository served).2
  = (Return (), (cleanupRepository served).2).
Proof.
  destruct (teardown_is_idempotent served) as (_ & _ & _ & Hagain & Hready).
  destruct (Hready "/tmp/fep-mcp-0") as (Hcleared & _ & _ & Hgone);
    [vm_compute; reflexivity|].
  split; [exact Hcleared|]. split; [|exact Hagain].
  apply Hgone. vm_compute. reflexivity.
Defined.

(** ** Looking without touching *)

Ltac look :=
  cbn [snd]; do 3 (split; [done|]);
  first [ exists []; rewrite app_nil_r; split; [reflexivity|];
          split; [cbn; lia|done]
        | eexists [_]; split; [reflexivity|]; split; [cbn; lia|done] ].

Lemma reads_look op st :
  reads op = true →
  let st' := (perform op st).2 in
  currentRepo st' = currentRepo st ∧
  currentRepoPath st' = currentRepoPath st ∧
  untouched (world st) (world st') ∧
  ∃ evs, trace (world st') = trace (world st) ++ evs ∧
         (length evs ≤ 1)%nat ∧ (dormant st → evs = []).
Proof.
  destruct st as [repo cur [d io ts co gf nh ck cs tr]].
  unfold dormant. cbn [currentRepoPath].
  destruct op; try done; intros _; cbv zeta;
    unfold perform, settle, readFile, fileExists, listDirectory,
      getRepositoryPath;
    unfold_monad; cbn [currentRepoPath snd fst].
  - destruct (truthy cur) as [path|]; run_calls.
    + destruct (io !! _) as [e|]; [destruct (instanceof_NotFound e)|
        destruct (d !! _) as [[text|]|]];
        look.
    + look.
  - destruct (truthy cur) as [path|]; run_calls.
    + destruct (io !! _) as [e|]; [|destruct (d !! _) as [n|]];
        look.
    + look.
  - destruct (truthy cur) as [path|]; run_calls.
    + destruct (io !! _) as [e|]; [destruct (instanceof_NotFound e)|
        destruct (d !! _) as [[text|]|]];
        look.
    + look.
  - look.
Qed.

(** X5. [readFile], [fileExists], [listDirectory] and [getRepositoryPath]
    only look: they leave both variables, the disk, the clock, the console
    and the remote as they were, and make at most one system call (none
    when the handle is not initialized). *)
Theorem reads_leave_the_world_alone op st (Hreads : reads op = true) :
  let st' := (perform op st).2 in
  currentRepo st' = currentRepo st ∧
  currentRepoPath st' = currentRepoPath st ∧
  untouched (world st) (world st') ∧
  ∃ evs, trace (world st') = trace (world st) ++ evs ∧
         (length evs ≤ 1)%nat ∧ (dormant st → evs = []).
Proof. by apply reads_look. Qed.

Lemma reads_leave_the_world_alone_witness :
  reads (ListDirectory "fep") = true ∧
  disk (world (perform (ListDirectory "fep") served).2) = disk (world served).
Proof.
  split; [reflexivity|].
  destruct (reads_leave_the_world_alone (ListDirectory "fep") served eq_refl)
    as (_ & _ & (Hdisk & _) & _).
  exact Hdisk.
Defined.

(** ** A refresh that succeeds *)

Lemma refreshRepository_returns st repo path st' :
  currentRepo st = Some repo →
  truthy (currentRepoPath st) = Some path →
  refreshRepository st = (Return (), st') →
  currentRepo st' = Some (mkRepository (next_handle (world st)) path) ∧
  currentRepoPath st' = currentRepoPath st ∧
  disk (world st') = disk (world st) ∧
  disk (world st) !! path = Some Dir ∧
  clock (world st') = clock (world st) ∧
  temp_serial (world st') = temp_serial (world st) ∧
  console (world st') =
    console (world st) ++
    ["Fetching latest FEP documents...";
     "FEP repository refreshed successfully."] ∧
  outcome <$> since st st' =
    [(GetRemote repo "origin", None); (Fetch repo "origin", None);
     (OpenRepository path, None)].
Proof.
  destruct st as [repo0 path0 [d io ts co gf nh ck cs tr]].
  cbn [currentRepo currentRepoPath world disk next_handle clock temp_serial
       console].
  intros -> Hpath. unfold refreshRepository. unfold_monad.
  cbn [currentRepo currentRepoPath]. rewrite Hpath. run_calls.
  destruct (gf 0%nat) as [e0|]; [done|].
  destruct (gf 1%nat) as [e1|]; [done|].
  destruct (gf 2%nat) as [e2|]; [done|].
  destruct (d !! path) as [[text|]|]; [done| |done].
  intros [= <-]. cbn [currentRepo currentRepoPath world disk clock
                      temp_serial console].
  do 6 (split; [done|]). split; [by rewrite <- app_assoc|].
  by since_events.
Qed.

Lemma refreshRepository_path st :
  currentRepoPath (refreshRepository st).2 = currentRepoPath st.
Proof.
  destruct (currentRepo st) as [repo|] eqn:Hrepo;
    [destruct (truthy (currentRepoPath st)) as [path|] eqn:Hpath|].
  - by destruct (refreshRepository_outcomes st repo path Hrepo Hpath)
      as (Hp & _).
  - by rewrite refreshRepository_dormant.
  - unfold refreshRepository. unfold_monad. by rewrite Hrepo.
Qed.

(** ** The path between two assignments *)

Lemma stays_path op st :
  stays op = true →
  currentRepoPath (perform op st).2 = currentRepoPath st.
Proof.
  destruct op; try done; intros _.
  - apply refreshRepository_path.
  - by destruct (reads_look (ReadFile relativePath) st eq_refl) as (_ & ? & _).
  - by destruct (reads_look (FileExists relativePath) st eq_refl)
      as (_ & ? & _).
  - by destruct (reads_look (ListDirectory relativePath) st eq_refl)
      as (_ & ? & _).
Qed.

Lemma stays_session ops st :
  Forall (λ op, stays op = true) ops →
  currentRepoPath (session ops st) = currentRepoPath st.
Proof.
  revert st. induction ops as [|op ops IH]; intros st Hops; [done|].
  apply Forall_cons in Hops as [Hop Hops].
  cbn [session foldl]. fold (session ops (perform op st).2).
  rewrite IH by done. by apply stays_path.
Qed.

(** X4. After an [initializeRepository] that returned [path], and through
    any number of reads and refreshes, [getRepositoryPath] returns [path]
    and changes nothing; after a [cleanupRepository] it returns [null].
    Only [initializeRepository] and [cleanupRepository] assign the path. *)
Theorem path_is_stable_until_reassigned st0 path st ops
    (Hinit : initializeRepository st0 = (Return path, st))
    (Hops : Forall (λ op, stays op = true) ops) :
  getRepositoryPath (session ops st) = (Return (Some path), session ops st) ∧
  (getRepositoryPath (cleanupRepository (session ops st)).2).1 = Return None.
Proof.
  pose proof (initializeRepository_returns _ _ _ Hinit) as (_ & Hpath & Hne).
  pose proof (stays_session ops st Hops) as Hstable.
  split.
  - unfold getRepositoryPath. unfold_monad. by rewrite Hstable, Hpath.
  - unfold getRepositoryPath. unfold_monad. cbn [fst]. f_equal.
    rewrite (cleanupRepository_ready path).
    + done.
    + rewrite Hstable, Hpath. by apply truthy_ready.
Qed.

Lemma path_is_stable_until_reassigned_witness :
  (getRepositoryPath
     (session [ReadFile "index.json"; Refresh; FileExists "fep";
               ListDirectory "fep"; GetRepositoryPath] served)).1
  = Return (Some "/tmp/fep-mcp-0").
Proof.
  assert (initializeRepository (loaded calm)
          = (Return "/tmp/fep-mcp-0", served)) as Hinit
    by (vm_compute; reflexivity).
  destruct (path_is_stable_until_reassigned _ _ _
              [ReadFile "index.json"; Refresh; FileExists "fep";
               ListDirectory "fep"; GetRepositoryPath] Hinit) as [Hget _].
  - repeat constructor.
  - by rewrite Hget.
Defined.



(** ** The handle and its repository object *)

Lemma coherent_same st st' :
  currentRepo st' = currentRepo st →
  currentRepoPath st' = currentRepoPath st →
  coherent st → coherent st'.
Proof.
  unfold coherent, cleared. intros -> ->. done.
Qed.

Lemma coherent_dormant st : coherent st → dormant st → cleared st.
Proof.
  intros [Hc|(repo & path & _ & Hp & Hne & _)] Hd; [done|].
  unfold dormant in Hd. rewrite Hp, truthy_ready in Hd by done. done.
Qed.

Lemma coherent_cleanupRepository st :
  coherent st → cleared (cleanupRepository st).2.
Proof.
  intros Hst.
  destruct (truthy (currentRepoPath st)) as [path|] eqn:Hpath.
  - by rewrite (cleanupRepository_ready path).
  - rewrite cleanupRepository_idle by done. by apply coherent_dormant.
Qed.

Lemma coherent_refreshRepository st :
  coherent st → coherent (refreshRepository st).2.
Proof.
  intros Hst.
  destruct (currentRepo st) as [repo|] eqn:Hrepo;
    [destruct (truthy (currentRepoPath st)) as [path|] eqn:Hpath|].
  - destruct (refreshRepository st) as [[[]|e] st'] eqn:Hrun.
    + destruct (refreshRepository_returns st repo path st' Hrepo Hpath Hrun)
        as (Hrepo' & Hpath' & _).
      apply truthy_Some in Hpath as [Hpath Hne].
      right. exists (mkRepository (next_handle (world st)) path), path.
      cbn [snd]. by rewrite Hrepo', Hpath', Hpath.
    + destruct (refreshRepository_outcomes st repo path Hrepo Hpath)
        as (Hpath' & _ & _ & [(? & Hret & _)|(cause & _ & Hrepo' & _)]);
        rewrite Hrun in *; [done|].
      cbn [snd] in *. apply (coherent_same st); congruence.
  - by rewrite refreshRepository_dormant.
  - unfold refreshRepository. unfold_monad. by rewrite Hrepo.
Qed.

Lemma coherent_initializeRepository st :
  coherent st → coherent (initializeRepository st).2.
Proof.
  intros Hst. destruct st as [repo path [d io ts co gf nh ck cs tr]].
  destruct (initializeRepository_course repo path d io ts co gf nh ck cs tr)
    as (repo1 & path1 & d1 & cs1 & pre & Hdormant & Hpre &
        [(error & ts' & ->)
        |(failed & final & d' & cs' & _ & _ & _ & -> & _)]).
  - left. destruct Hpre as [(Hd & -> & -> & _)|(_ & _ & _ & -> & -> & _)];
      [|done].
    by apply (coherent_dormant _ Hst).
  - destruct final as [e|]; cbn [snd].
    + left. destruct Hpre as [(Hd & -> & -> & _)|(_ & _ & _ & -> & -> & _)];
        [|done].
      by apply (coherent_dormant _ Hst).
    + right. eexists _, _. split; [done|]. split; [done|].
      split; [apply temp_name_not_empty|done].
Qed.

Lemma coherent_perform op st : coherent st → coherent (perform op st).2.
Proof.
  intros Hst. destruct op; cbn [perform settle snd].
  - by apply coherent_initializeRepository.
  - by apply coherent_refreshRepository.
  - destruct (reads_look (ReadFile relativePath) st eq_refl)
      as (Hr & Hp & _). by apply (coherent_same st).
  - destruct (reads_look (FileExists relativePath) st eq_refl)
      as (Hr & Hp & _). by apply (coherent_same st).
  - destruct (reads_look (ListDirectory relativePath) st eq_refl)
      as (Hr & Hp & _). by apply (coherent_same st).
  - done.
  - left. by apply coherent_cleanupRepository.
Qed.

(** X7. At any time the handle is either cleared, or it holds a non-empty
    path together with a repository object opened at that very path: every
    exported operation preserves this, so it holds throughout any session
    that starts from the loaded module. *)
Theorem handle_points_at_its_repository :
  (∀ op st, coherent st → coherent (perform op st).2) ∧
  (∀ w ops, coherent (session ops (loaded w))).
Proof.
  split; [apply coherent_perform|].
  intros w ops. generalize (loaded w), (or_introl (conj eq_refl eq_refl)
                                          : coherent (loaded w)).
  induction ops as [|op ops IH]; intros st Hst; [done|].
  apply IH. by apply coherent_perform.
Qed.

Lemma handle_points_at_its_repository_witness :
  coherent (session [Initialize; Refresh; ReadFile "index.json"] (loaded calm)) ∧
  (repo_path <$> currentRepo
     (session [Initialize; Refresh; ReadFile "index.json"] (loaded calm)))
  = currentRepoPath
      (session [Initialize; Refresh; ReadFile "index.json"] (loaded calm)).
Proof.
  split; [apply (proj2 handle_points_at_its_repository calm)|].
  vm_compute. reflexivity.
Defined.

(** ** What one initialization costs *)

Lemma length_attempts_of_course dest repo path failed final :
  length (attempts_of (course dest repo path failed final))
  = S (length failed).
Proof.
  rewrite attempts_of_course, length_app, length_fmap. cbn. lia.
Qed.

Lemma initializeRepository_summary st :
  let st' := (initializeRepository st).2 in
  let dest :=
    Deno.TMPDIR +:+ "/" +:+ "fep-mcp-" +:+ pretty (temp_serial (world st)) in
  let n := length (attempts_of (since st st')) in
  (n ≤ 3)%nat ∧
  clock (world st') = clock (world st) + waited 1 (n - 1) ∧
  io_error (world st') = io_error (world st) ∧
  (∀ q, under dest q = false →
        (∀ old, truthy (currentRepoPath st) = Some old →
                under old q = false) →
        disk (world st') !! q = disk (world st) !! q) ∧
  (n = 0%nat →
   ∃ error,
     (initializeRepository st).1 = Throw error ∧
     last (outcome <$> since st st')
     = Some (MakeTempDir "fep-mcp-", Some error) ∧
     dormant st' ∧ (coherent st → cleared st')).
Proof.
  destruct st as [repo path [d io ts co gf nh ck cs tr]]. cbv zeta.
  destruct (initializeRepository_course repo path d io ts co gf nh ck cs tr)
    as (repo1 & path1 & d1 & cs1 & pre & Hdormant & Hpre &
        [(error & ts' & ->)
        |(failed & final & d' & cs' & Hlen & _ & Hsame & -> & _)]);
    unfold since;
    cbn [fst snd world trace clock io_error disk temp_serial currentRepoPath];
    rewrite drop_app_length, attempts_of_app;
    rewrite (attempts_of_prelude pre path repo)
      by (destruct Hpre as [(_ & _ & _ & -> & _)
                           |(old & removal & _ & _ & _ & -> & _)]; eauto).
  - change (attempts_of [?ev]) with (@nil (option thrown)).
    cbn [app length waited Nat.sub].
    split; [lia|]. split; [by rewrite N.add_0_r|]. split; [done|]. split.
    { intros q _ Hold.
      destruct Hpre as [(_ & _ & _ & _ & ->)
                       |(old & removal & Hpath & _ & _ & _ & Hout & _)];
        [done|by apply Hout, Hold]. }
    intros _. exists error. split; [done|].
    split.
    { rewrite fmap_app. change (outcome <$> [?e]) with [outcome e].
      by rewrite last_snoc. }
    split; [done|]. intros Hst.
    destruct Hpre as [(Hd & -> & -> & _)|(_ & _ & _ & -> & -> & _)]; [|done].
    by apply (coherent_dormant _ Hst).
  - cbn [app]. change (attempts_of (?ev :: ?l)) with (attempts_of l).
    rewrite length_attempts_of_course. cbn [Nat.sub]. rewrite Nat.sub_0_r.
    unfold MAX_RETRIES in Hlen.
    split; [lia|]. split; [done|]. split; [done|]. split; [|done].
    intros q Hq Hold. rewrite Hsame by done.
    destruct Hpre as [(_ & _ & _ & _ & ->)
                     |(old & removal & Hpath & _ & _ & _ & Hout & _)];
      [done|by apply Hout, Hold].
Qed.

(** X8. One [initializeRepository] makes at most 3 clone attempts and
    waits 0 ms when it made at most one, 1000 ms when it made two and
    3000 ms when it made three: never more than 3000 ms in all. *)
Theorem initialize_waits_at_most_three_seconds st :
  let st' := (initializeRepository st).2 in
  let n := length (attempts_of (since st st')) in
  (n ≤ 3)%nat ∧
  clock (world st') =
    clock (world st) +
    match n with
    | 0%nat | 1%nat => 0
    | 2%nat => 1000
    | _ => 3000
    end ∧
  clock (world st') ≤ clock (world st) + 3000.
Proof.
  destruct (initializeRepository_summary st) as (Hn & Hclock & _).
  cbv zeta. split; [exact Hn|]. rewrite Hclock.
  assert (waited 1 0 = 0 ∧ waited 1 1 = 1000 ∧ waited 1 2 = 3000)
    as (H0 & H1 & H2) by done.
  destruct (length _) as [|[|[|[|n]]]]; cbn [Nat.sub];
    rewrite ?H0, ?H1, ?H2; lia.
Qed.

(** X9. Whatever its outcome, [initializeRepository] changes the disk only
    inside the new temporary directory and inside the previous working
    copy; every other path holds what it held, and the faults of the
    system are what they were. *)
Theorem initialize_touches_two_directories st q
    (Hnew : under (Deno.TMPDIR +:+ "/" +:+ "fep-mcp-"
                   +:+ pretty (temp_serial (world st))) q = false)
    (Hold : ∀ old, truthy (currentRepoPath st) = Some old →
                   under old q = false) :
  disk (world (initializeRepository st).2) !! q = disk (world st) !! q ∧
  io_error (world (initializeRepository st).2) = io_error (world st).
Proof.
  destruct (initializeRepository_summary st) as (_ & _ & Hio & Hdisk & _).
  split; [by apply Hdisk|exact Hio].
Qed.

(** X10. When [initializeRepository] ends without a single clone attempt,
    it is because [Deno.makeTempDir] threw: that error reaches the caller
    as it is (not wrapped), nothing was waited for, and the handle is left
    not initialized (cleared, for a handle that was coherent). *)
Theorem initialize_without_a_directory st
    (Hnone : attempts_of (since st (initializeRepository st).2) = []) :
  let st' := (initializeRepository st).2 in
  ∃ error,
    (initializeRepository st).1 = Throw error ∧
    last (outcome <$> since st st')
    = Some (MakeTempDir "fep-mcp-", Some error) ∧
    dormant st' ∧ (coherent st → cleared st') ∧
    clock (world st') = clock (world st).
Proof.
  destruct (initializeRepository_summary st) as (_ & Hclock & _ & _ & Hzero).
  cbv zeta in *. rewrite Hnone in *. cbn [length] in *.
  destruct (Hzero eq_refl) as (error & Hthrow & Hlast & Hd & Hc).
  exists error. do 4 (split; [done|]). rewrite Hclock. cbn. lia.
Qed.

Lemma initialize_waits_at_most_three_seconds_witness :
  clock (world (initializeRepository (loaded flaky)).2) = 3000 ∧
  clock (world (initializeRepository (loaded calm)).2) = 0.
Proof.
  split.
  - destruct (initialize_waits_at_most_three_seconds (loaded flaky))
      as (_ & Hclock & _).
    rewrite Hclock. vm_compute. reflexivity.
  - destruct (initialize_waits_at_most_three_seconds (loaded calm))
      as (_ & Hclock & _).
    rewrite Hclock. vm_compute. reflexivity.
Defined.

Lemma initialize_touches_two_directories_witness :
  under "/tmp/fep-mcp-1" "/tmp/fep-mcp-10/index.json" = false ∧
  disk (world (initializeRepository served).2) !! "/tmp/fep-mcp-10/index.json"
  = disk (world served) !! "/tmp/fep-mcp-10/index.json".
Proof.
  split; [reflexivity|].
  apply (initialize_touches_two_directories served).
  - vm_compute. reflexivity.
  - intros old Hold. vm_compute in Hold. injection Hold as <-.
    vm_compute. reflexivity.
Defined.

Lemma initialize_without_a_directory_witness :
  attempts_of (since cramped (initializeRepository cramped).2) = [] ∧
  (initializeRepository cramped).1 = Throw read_only_tmp ∧
  currentRepoPath (initializeRepository cramped).2 = None.
Proof.
  assert (attempts_of (since cramped (initializeRepository cramped).2) = [])
    as Hnone by (vm_compute; reflexivity).
  destruct (initialize_without_a_directory cramped Hnone)
    as (error & Hthrow & Hlast & _ & Hcleared & _).
  split; [exact Hnone|]. split.
  - rewrite Hthrow. f_equal. vm_compute in Hlast. by injection Hlast.
  - apply Hcleared. right.
    exists (mkRepository 0 "/tmp/fep-mcp-0"), "/tmp/fep-mcp-0".
    by repeat split.
Defined.

(** ** Listing a directory *)

Lemma string_length_app (a b : string) :
  String.length (a +:+ b) = (String.length a + String.length b)%nat.
Proof.
  induction a as [|c a IH]; [done|].
  change (String c a +:+ b) with (String c (a +:+ b)). cbn. by rewrite IH.
Qed.

Lemma substring_whole (s : string) : substring 0 (String.length s) s = s.
Proof. induction s as [|c s IH]; [done|]. cbn. by rewrite IH. Qed.

Lemma substring_after (a b : string) :
  substring (String.length a) (String.length b) (a +:+ b) = b.
Proof.
  induction a as [|c a IH]; [apply substring_whole|].
  change (String c a +:+ b) with (String c (a +:+ b)). exact IH.
Qed.

Lemma slash_length (p : string) :
  String.length (p +:+ "/") = (String.length p + 1)%nat.
Proof. apply string_length_app. Qed.

Lemma entry_of_Some p k n e :
  entry_of p (k, n) = Some e ↔
  k = p +:+ "/" +:+ name e ∧ name e ≠ "" ∧ has_slash (name e) = false ∧
  isDirectory e = is_dir n.
Proof.
  unfold entry_of. cbn [fst snd]. split.
  - destruct (below p k) eqn:Hbelow; [|done].
    apply prefix_app in Hbelow as [rest ->].
    rewrite <- (slash_length p), (string_length_app (p +:+ "/") rest).
    rewrite Nat.add_sub', substring_after.
    destruct (has_slash rest) eqn:Hslash; [done|].
    destruct (String.eqb_spec rest ""); [done|].
    intros [= <-]. cbn. by rewrite string_app_assoc.
  - destruct e as [x dir]. cbn [name isDirectory].
    intros (-> & Hne & Hslash & ->).
    rewrite below_app.
    rewrite <- string_app_assoc.
    rewrite <- (slash_length p), (string_length_app (p +:+ "/") x).
    rewrite Nat.add_sub', substring_after, Hslash.
    by destruct (String.eqb_spec x "").
Qed.

Lemma children_names p (d : gmap string node) x :
  x ∈ name <$> children p d ↔
  x ≠ "" ∧ has_slash x = false ∧ is_Some (d !! (p +:+ "/" +:+ x)).
Proof.
  unfold children. rewrite list_elem_of_fmap. split.
  - intros (e & -> & He). apply list_elem_of_omap in He as ([k n] & Hkn & He).
    apply elem_of_map_to_list in Hkn.
    apply entry_of_Some in He as (-> & Hne & Hslash & _).
    by eauto.
  - intros (Hne & Hslash & [n Hn]).
    exists (mkDirEntry x (is_dir n)). split; [done|].
    apply list_elem_of_omap. exists (p +:+ "/" +:+ x, n).
    split; [by apply elem_of_map_to_list|]. by apply entry_of_Some.
Qed.

Lemma NoDup_omap_inj {A B} (f : A → option B) (l : list A) :
  NoDup l →
  (∀ x y b, x ∈ l → y ∈ l → f x = Some b → f y = Some b → x = y) →
  NoDup (omap f l).
Proof.
  induction 1 as [|x l Hx Hl IH]; intros Hinj; [constructor|].
  cbn. destruct (f x) as [b|] eqn:Hfx.
  - constructor.
    + intros (y & Hy & Hfy)%list_elem_of_omap.
      assert (x = y) as -> by (eapply Hinj; [left|by right|done..]). done.
    + apply IH. intros ??????. eapply Hinj; by try right.
  - apply IH. intros ??????. eapply Hinj; by try right.
Qed.

Lemma children_NoDup p (d : gmap string node) : NoDup (name <$> children p d).
Proof.
  unfold children. rewrite list_fmap_omap.
  apply NoDup_omap_inj; [apply NoDup_map_to_list|].
  intros [k1 n1] [k2 n2] x H1 H2 Hx1 Hx2.
  apply elem_of_map_to_list in H1, H2.
  destruct (entry_of p (k1, n1)) as [e1|] eqn:He1; [|done].
  destruct (entry_of p (k2, n2)) as [e2|] eqn:He2; [|done].
  apply entry_of_Some in He1 as (-> & _), He2 as (-> & _).
  cbn in Hx1, Hx2. assert (name e1 = name e2) as Hname by congruence.
  rewrite Hname in H1. rewrite H1 in H2. congruence.
Qed.

(** X3. On an initialized handle [listDirectory] of an existing directory
    returns, without repetition, exactly the names of the entries directly
    inside it (non-empty, without a slash, present on the disk under the
    directory); a missing directory gives "Directory not found: " followed
    by the relative path; and any other error of [Deno.readDir], such as
    listing a regular file, reaches the caller unchanged. *)
Theorem listDirectory_lists_direct_entries st path relativePath
    (Hready : truthy (currentRepoPath st) = Some path) :
  let dir := path +:+ "/" +:+ relativePath in
  (io_error (world st) !! dir = None →
   disk (world st) !! dir = Some Dir →
   ∃ names,
     (listDirectory relativePath st).1 = Return names ∧
     NoDup names ∧
     ∀ x, x ∈ names ↔
          x ≠ "" ∧ has_slash x = false ∧
          is_Some (disk (world st) !! (dir +:+ "/" +:+ x))) ∧
  (io_error (world st) !! dir = None →
   disk (world st) !! dir = None →
   (listDirectory relativePath st).1
   = Throw (directory_not_found relativePath)) ∧
  (∀ error,
     (Deno.readDir dir st).1 = Throw error →
     instanceof_NotFound error = false →
     (listDirectory relativePath st).1 = Throw error) ∧
  includes (message_or_String (directory_not_found relativePath))
    relativePath.
Proof.
  intros dir. rewrite (listDirectory_ready path) by done. fold dir.
  unfold Deno.readDir, returns, throws. cbv zeta.
  split; [|split; [|split]].
  - intros -> ->. eexists. split; [reflexivity|].
    split; [apply children_NoDup|apply children_names].
  - by intros -> ->.
  - intros error.
    destruct (io_error (world st) !! dir) as [e|]; cbn [fst].
    + by intros [= ->] ->.
    + destruct (disk (world st) !! dir) as [[text|]|]; cbn [fst];
        [by intros [= <-] | done | by intros [= <-]].
  - apply includes_tail.
Qed.

Lemma listDirectory_lists_direct_entries_witness :
  (∃ names, (listDirectory "fep" served).1 = Return names ∧
            "a4ed" ∈ names ∧ "a4ed/fep-a4ed.md" ∉ names) ∧
  (listDirectory "fep/a4ed/fep-a4ed.md" served).1
  = Throw (Deno.deno_error "NotADirectory" "Not a directory (os error 20)"
             "readdir" "/tmp/fep-mcp-0/fep/a4ed/fep-a4ed.md").
Proof.
  destruct (listDirectory_lists_direct_entries served "/tmp/fep-mcp-0"
              "fep" eq_refl) as (Hlist & _).
  destruct (listDirectory_lists_direct_entries served "/tmp/fep-mcp-0"
              "fep/a4ed/fep-a4ed.md" eq_refl) as (_ & _ & Hother & _).
  split.
  - destruct Hlist as (names & Hnames & _ & Hin); [vm_compute; reflexivity..|].
    exists names. split; [exact Hnames|]. split.
    + apply Hin. split; [done|]. split; [reflexivity|].
      vm_compute. by eexists.
    + intros (_ & Hslash & _)%Hin. vm_compute in Hslash. done.
  - apply Hother; vm_compute; reflexivity.
Defined.

(** ** Searching in strings *)

Lemma substring_app_head (w b : string) :
  String.substring 0 (String.length w) (w +:+ b) = w.
Proof.
  induction w as [|c w IH]; [by destruct b|].
  change (String c (String.substring 0 (String.length w) (w +:+ b))
          = String c w).
  by rewrite IH.
Qed.

Lemma substring_app_middle (a w b : string) :
  occurs_at (a +:+ w +:+ b) w (String.length a).
Proof.
  unfold occurs_at. induction a as [|c a IH]; [exact (substring_app_head w b)|].
  exact IH.
Qed.

Lemma substring_head_cut (s : string) (n : nat) :
  ∃ after, s = String.substring 0 n s +:+ after.
Proof.
  revert s. induction n as [|n IH]; intros s.
  - exists s. by destruct s.
  - destruct s as [|c s]; [by exists ""|].
    destruct (IH s) as [after H]. exists after.
    change (String c s = String c (String.substring 0 n s +:+ after)).
    by rewrite <- H.
Qed.

Lemma substring_cut (s : string) (m n : nat) :
  ∃ before after, s = before +:+ String.substring m n s +:+ after.
Proof.
  revert s. induction m as [|m IH]; intros s.
  - destruct (substring_head_cut s n) as [after H]. by exists "", after.
  - destruct s as [|c s]; [exists "", ""; by destruct n|].
    destruct (IH s) as (before & after & H).
    exists (String c before), after.
    change (String c s
            = String c (before +:+ String.substring m n s +:+ after)).
    by rewrite <- H.
Qed.

Lemma substring_length_le (s : string) (m n : nat) :
  (String.length (String.substring m n s) ≤ n)%nat.
Proof.
  revert s n. induction m as [|m IH]; intros s n.
  - revert s. induction n as [|n IHn]; intros [|c s]; cbn; try lia.
    specialize (IHn s). lia.
  - destruct s as [|c s]; [destruct n; cbn; lia|]. apply IH.
Qed.

Lemma occurs_at_includes (hay needle : string) (i : nat) :
  occurs_at hay needle i → includes hay needle.
Proof.
  unfold occurs_at. intros H.
  destruct (substring_cut hay i (String.length needle)) as (a & b & Hcut).
  rewrite H in Hcut. by exists a, b.
Qed.

Lemma occurs_at_bound (hay needle : string) (i : nat) :
  occurs_at hay needle i → needle ≠ "" →
  (i < String.length hay)%nat.
Proof.
  unfold occurs_at. revert hay. induction i as [|i IH]; intros hay H Hne.
  - destruct hay as [|c hay]; [|cbn; lia].
    destruct needle; [done|]. discriminate H.
  - destruct hay as [|c hay].
    + destruct needle; [done|]. discriminate H.
    + cbn. apply (IH hay) in Hne; [lia|]. exact H.
Qed.

Lemma JsString_includes_spec (s search : string) :
  JsString.includes s search = true ↔ includes s search.
Proof.
  unfold JsString.includes.
  destruct (String.index 0 search s) as [m|] eqn:E.
  - split; [intros _|done].
    apply index_correct1 in E. by apply (occurs_at_includes _ _ m).
  - split; [done|]. intros (a & b & ->). exfalso.
    destruct search as [|c search].
    + apply index_correct4 in E. lia.
    + eapply (index_correct3 _ (String.length a)) in E; [|done|lia].
      apply E, substring_app_middle.
Qed.

Lemma indexOf_absent (s search : string) :
  JsString.indexOf s search = (-1)%Z ↔ ¬ includes s search.
Proof.
  rewrite <- JsString_includes_spec.
  unfold JsString.indexOf, JsString.includes.
  destruct (String.index 0 search s); split; try done; lia.
Qed.

Lemma indexOf_first (s search : string) :
  includes s search →
  ∃ m : nat, JsString.indexOf s search = Z.of_nat m ∧
    occurs_at s search m ∧ ∀ i, occurs_at s search i → (m ≤ i)%nat.
Proof.
  rewrite <- JsString_includes_spec.
  unfold JsString.indexOf, JsString.includes.
  destruct (String.index 0 search s) as [m|] eqn:E; [intros _|done].
  exists m. split; [done|]. split; [by apply index_correct1 in E|].
  intros i Hi. destruct (decide (m ≤ i)%nat) as [|Hlt]; [done|].
  exfalso. eapply (index_correct2 _ _ _ _ E i); [lia|lia|exact Hi].
Qed.

Lemma includes_trans (a b c : string) :
  includes a b → includes b c → includes a c.
Proof.
  intros (x & y & ->) (u & v & ->). exists (x +:+ u), (v +:+ y).
  by rewrite !string_app_assoc.
Qed.

Lemma toLowerCase_length (s : string) :
  String.length (JsString.toLowerCase s) = String.length s.
Proof. induction s as [|c s IH]; [done|]. cbn. by rewrite IH. Qed.

Lemma is_space_lower (c : ascii) :
  JsString.is_space (JsString.lower c) = JsString.is_space c.
Proof. by destruct c as [[] [] [] [] [] [] [] []]. Qed.

Lemma blank_toLowerCase (s : string) :
  blank (JsString.toLowerCase s) = blank s.
Proof.
  induction s as [|c s IH]; [done|]. cbn. by rewrite is_space_lower, IH.
Qed.

(** ** The words of a query *)

Lemma split_from_pieces (s piece : string) (gap : bool) (w : string) :
  (gap = true → piece = "") →
  w ∈ JsString.split_from s piece gap →
  (∃ a b, w = piece +:+ a ∧ s = a +:+ b) ∨ includes s w.
Proof.
  revert piece gap. induction s as [|c s IH]; intros piece gap Hgap Hw.
  - apply list_elem_of_singleton in Hw as ->. left. exists "", "".
    by rewrite string_app_nil_r.
  - cbn in Hw. destruct (JsString.is_space c).
    + assert (w ∈ JsString.split_from s "" true → includes (String c s) w)
        as Hrest.
      { intros H. apply IH in H; [|done].
        destruct H as [(a & b & -> & ->)|(a & b & ->)].
        - by exists (String c ""), b.
        - by exists (String c a), b. }
      destruct gap.
      * rewrite (Hgap eq_refl) in Hw. right. by apply Hrest.
      * apply elem_of_cons in Hw as [->|Hw]; [|right; by apply Hrest].
        left. exists "", (String c s). by rewrite string_app_nil_r.
    + apply IH in Hw; [|done].
      destruct Hw as [(a & b & -> & ->)|(a & b & ->)].
      * left. exists (String c a), b. by rewrite string_app_assoc.
      * right. by exists (String c a), b.
Qed.

Lemma split_from_blank (s : string) (gap : bool) (w : string) :
  blank s = true → w ∈ JsString.split_from s "" gap → w = "".
Proof.
  revert gap. induction s as [|c s IH]; intros gap Hs Hw.
  - by apply list_elem_of_singleton in Hw.
  - cbn in Hs. apply andb_true_iff in Hs as [Hc Hs].
    cbn in Hw. rewrite Hc in Hw. destruct gap.
    + by apply (IH true).
    + apply elem_of_cons in Hw as [->|Hw]; [done|]. by apply (IH true).
Qed.

Lemma query_words_spec (query w : string) :
  w ∈ query_words query →
  w ≠ "" ∧ includes (JsString.toLowerCase query) w.
Proof.
  unfold query_words. intros [Hlen Hw]%list_elem_of_filter. split.
  - intros ->. unfold JsString.length in Hlen. cbn in Hlen. lia.
  - apply split_from_pieces in Hw; [|done].
    destruct Hw as [(a & b & -> & ->)|H]; [|done]. by exists "", b.
Qed.

Lemma query_words_blank (query : string) :
  blank query = true → query_words query = [].
Proof.
  intros Hblank. unfold query_words, JsString.split_whitespace.
  rewrite <- blank_toLowerCase in Hblank.
  destruct (filter _ _) as [|w ws] eqn:E; [done|]. exfalso.
  assert (w ∈ w :: ws) as Hw by left. rewrite <- E in Hw.
  apply list_elem_of_filter in Hw as [Hlen Hw].
  apply split_from_blank in Hw as ->; [|done].
  unfold JsString.length in Hlen. cbn in Hlen. lia.
Qed.

(** ** Scoring *)

Lemma calculateScore_fold (lowerText lowerQuery : string)
    (words : list string) (score : Z) :
  foldl (λ score word,
    if JsString.includes lowerText word then
      let score := (score + 1)%Z in
      if JsString.includes lowerText lowerQuery then (score + 2)%Z
      else score
    else score) score words
  = (score
     + (if JsString.includes lowerText lowerQuery then 3 else 1)
       * Z.of_nat (length
           (filter (λ w, JsString.includes lowerText w = true) words)))%Z.
Proof.
  revert score. induction words as [|w words IH]; intros score.
  - cbn. lia.
  - cbn [foldl]. rewrite IH, filter_cons.
    destruct (JsString.includes lowerText w) eqn:Hw.
    + rewrite decide_True by done. cbn [length].
      destruct (JsString.includes lowerText lowerQuery); lia.
    + rewrite decide_False by done. lia.
Qed.

Lemma calculateScore_words (text query : string) :
  Tools.calculateScore text query
  = ((if JsString.includes (JsString.toLowerCase text)
           (JsString.toLowerCase query) then 3 else 1)
     * Z.of_nat (length
         (filter (λ w, JsString.includes (JsString.toLowerCase text) w = true)
            (query_words query))))%Z.
Proof.
  unfold Tools.calculateScore. cbv zeta. rewrite calculateScore_fold.
  unfold query_words. lia.
Qed.

(** X11. [calculateScore] counts the words of the lower-cased query, with
    their repetitions, that occur in the lower-cased text: each one counts
    for 3 when the whole lower-cased query occurs in the text as well, and
    for 1 otherwise.  So the score lies between 0 and three times the
    number of words, it is positive exactly when some word occurs, and the
    words are non-empty pieces of the lower-cased query. *)
Theorem score_counts_the_matching_words (text query : string) :
  let lowerText := JsString.toLowerCase text in
  let lowerQuery := JsString.toLowerCase query in
  let hits := filter (λ w, JsString.includes lowerText w = true)
                (query_words query) in
  let score := Tools.calculateScore text query in
  (if JsString.includes lowerText lowerQuery
   then score = (3 * Z.of_nat (length hits))%Z
   else score = Z.of_nat (length hits)) ∧
  (0 ≤ score ≤ 3 * Z.of_nat (length (query_words query)))%Z ∧
  ((score > 0)%Z ↔ ∃ w, w ∈ query_words query ∧ includes lowerText w) ∧
  (∀ w, w ∈ query_words query → w ≠ "" ∧ includes lowerQuery w).
Proof.
  intros lowerText lowerQuery hits score.
  assert (score = ((if JsString.includes lowerText lowerQuery then 3 else 1)
                   * Z.of_nat (length hits))%Z) as Hscore
    by apply calculateScore_words.
  assert (length hits ≤ length (query_words query))%nat as Hle
    by apply length_filter.
  split; [|split; [|split]].
  - destruct (JsString.includes lowerText lowerQuery); lia.
  - destruct (JsString.includes lowerText lowerQuery); lia.
  - split.
    + intros Hpos. destruct hits as [|w ws] eqn:E.
      { cbn in Hscore. lia. }
      assert (w ∈ hits) as Hw by (rewrite E; left).
      apply list_elem_of_filter in Hw as [Hin Hw].
      exists w. split; [done|]. by apply JsString_includes_spec.
    + intros (w & Hw & Hin). apply JsString_includes_spec in Hin.
      assert (w ∈ hits) as Hhit by by apply list_elem_of_filter.
      destruct hits; [by apply elem_of_nil in Hhit|]. cbn in Hscore.
      destruct (JsString.includes lowerText lowerQuery); lia.
  - apply query_words_spec.
Qed.

(** X12. When the lower-cased query as a whole occurs in the lower-cased
    text, every one of its words occurs too, and [calculateScore] is three
    times the number of words of the query. *)
Theorem phrase_match_triples_every_word (text query : string)
    (Hphrase : includes (JsString.toLowerCase text)
                 (JsString.toLowerCase query)) :
  Tools.calculateScore text query
  = (3 * Z.of_nat (length (query_words query)))%Z.
Proof.
  rewrite calculateScore_words.
  apply JsString_includes_spec in Hphrase as Hbool. rewrite Hbool.
  do 3 f_equal.
  assert (∀ w, w ∈ query_words query →
            JsString.includes (JsString.toLowerCase text) w = true) as Hall.
  { intros w [_ Hw]%query_words_spec.
    apply JsString_includes_spec. by apply (includes_trans _ _ _ Hphrase). }
  induction (query_words query) as [|w ws IH]; [done|].
  rewrite filter_cons, decide_True by (apply Hall; left).
  f_equal. apply IH. intros w' Hw'. apply Hall. by right.
Qed.

Lemma phrase_match_triples_every_word_witness :
  includes (JsString.toLowerCase "ActivityPub Object Signatures")
    (JsString.toLowerCase "Pub OBJECT") ∧
  Tools.calculateScore "ActivityPub Object Signatures" "Pub OBJECT" = 6%Z.
Proof.
  assert (includes (JsString.toLowerCase "ActivityPub Object Signatures")
            (JsString.toLowerCase "Pub OBJECT")) as H.
  { by exists "activity", " signatures". }
  split; [done|].
  by rewrite (phrase_match_triples_every_word _ _ H).
Defined.

(** ** Snippets *)

Lemma first_match_step (hay : string) (seen : list string) (first : Z)
    (word : string) :
  first_match hay seen first →
  first_match hay (seen ++ [word])
    (let idx := JsString.indexOf hay word in
     if bool_decide (idx ≠ (-1)%Z)
        && (bool_decide (first = (-1)%Z) || bool_decide (idx < first)%Z)
     then idx
     else first).
Proof.
  intros Hseen. cbv zeta.
  destruct (JsString.includes hay word) eqn:Hword.
  - apply JsString_includes_spec in Hword.
    apply indexOf_first in Hword as (m & Hidx & Hat & Hleast). rewrite Hidx.
    rewrite bool_decide_true by lia. cbn [andb].
    destruct Hseen as [[-> Hnone]|(n & -> & (w & Hw & Hn) & Hmin)].
    + rewrite bool_decide_true by done. cbn [orb]. right.
      exists m. split; [done|]. split.
      * exists word. split; [|done]. apply elem_of_app. right. left.
      * intros w i [Hw|Heq%list_elem_of_singleton]%elem_of_app Hi;
          [|subst w; by apply Hleast].
        exfalso. by apply (Hnone w Hw), (occurs_at_includes _ _ i).
    + rewrite bool_decide_false by lia. cbn [orb]. right.
      destruct (decide (m < n)%nat) as [Hlt|Hge].
      * rewrite bool_decide_true by lia. exists m. split; [done|]. split.
        -- exists word. split; [|done]. apply elem_of_app. right. left.
        -- intros w' i [Hw'|Heq%list_elem_of_singleton]%elem_of_app Hi;
             [|subst w'; by apply Hleast].
           specialize (Hmin w' i Hw' Hi). lia.
      * rewrite bool_decide_false by lia. exists n. split; [done|]. split.
        -- exists w. split; [|done]. apply elem_of_app. by left.
        -- intros w' i [Hw'|Heq%list_elem_of_singleton]%elem_of_app Hi;
             [by apply (Hmin w')|subst w'].
           specialize (Hleast i Hi). lia.
  - assert (¬ includes hay word) as Hno.
    { rewrite <- JsString_includes_spec. by rewrite Hword. }
    apply indexOf_absent in Hno as Hidx. rewrite Hidx.
    rewrite bool_decide_false by lia. cbn [andb].
    destruct Hseen as [[-> Hnone]|(n & -> & (w & Hw & Hn) & Hmin)].
    + left. split; [done|].
      intros w [Hw|Heq%list_elem_of_singleton]%elem_of_app;
        [by apply Hnone|by subst w].
    + right. exists n. split; [done|]. split.
      * exists w. split; [|done]. apply elem_of_app. by left.
      * intros w' i [Hw'|Heq%list_elem_of_singleton]%elem_of_app Hi;
          [by apply (Hmin w')|subst w'].
        exfalso. by apply Hno, (occurs_at_includes _ _ i).
Qed.

Lemma first_match_fold (hay : string) (seen words : list string)
    (first : Z) :
  first_match hay seen first →
  first_match hay (seen ++ words)
    (foldl (λ firstMatchIndex word,
       let idx := JsString.indexOf hay word in
       if bool_decide (idx ≠ (-1)%Z)
          && (bool_decide (firstMatchIndex = (-1)%Z)
              || bool_decide (idx < firstMatchIndex)%Z)
       then idx
       else firstMatchIndex) first words).
Proof.
  revert seen first. induction words as [|w words IH]; intros seen first H.
  - by rewrite app_nil_r.
  - cbn [foldl]. rewrite (assoc_L (++) seen [w] words : seen ++ w :: words = (seen ++ [w]) ++ words).
    apply IH. by apply first_match_step.
Qed.

Lemma JsString_substring_clamped (s : string) (start finish : Z) :
  (0 ≤ start ≤ finish)%Z →
  let len := JsString.length s in
  JsString.substring s start finish
  = String.substring (Z.to_nat (Z.min start len))
      (Z.to_nat (Z.min finish len - Z.min start len)) s.
Proof.
  intros H len. unfold JsString.substring. fold len.
  assert (0 ≤ len)%Z by (unfold len, JsString.length; lia).
  rewrite (Z.max_l start 0), (Z.max_l finish 0) by lia.
  rewrite (Z.min_l (Z.min start len)), (Z.max_r (Z.min start len)) by lia.
  done.
Qed.

Lemma getSnippet_first (text query : string) (maxLength : Z) :
  ∃ first : Z,
    first_match (JsString.toLowerCase text) (query_words query) first ∧
    Tools.getSnippet text query maxLength
    = if bool_decide (first = (-1)%Z) then
        JsString.substring text 0 maxLength
        +:+ (if bool_decide (JsString.length text > maxLength)%Z then "..."
             else "")
      else
        let start := Z.max 0 (first - 50) in
        let finish := Z.min (JsString.length text) (start + maxLength) in
        let snippet := JsString.substring text start finish in
        let snippet := if bool_decide (start > 0)%Z then "..." +:+ snippet
                       else snippet in
        if bool_decide (finish < JsString.length text)%Z
        then snippet +:+ "..."
        else snippet.
Proof.
  eexists. split; [|reflexivity].
  apply (first_match_fold _ [] (query_words query)).
  left. split; [done|]. by intros w Hw%elem_of_nil.
Qed.

Lemma first_match_inside (text query : string) (first : Z) :
  first_match (JsString.toLowerCase text) (query_words query) first →
  (-1 ≤ first < Z.max 1 (JsString.length text))%Z ∧
  (first ≠ (-1)%Z → 0 ≤ first < JsString.length text)%Z.
Proof.
  intros [[-> _]|(m & -> & (w & Hw & Hat) & _)]; [lia|].
  apply query_words_spec in Hw as [Hne _].
  apply occurs_at_bound in Hat; [|done].
  rewrite toLowerCase_length in Hat. unfold JsString.length. lia.
Qed.

(** X13. On texts of characters up to U+00FF, whose lower-cased form has
    the length of the text, and for a [maxLength] that is not negative,
    [getSnippet] returns a window [start, finish) of the text itself (not
    of its lower-cased form), with "..." in front when [start > 0] and
    behind when [finish < text.length]: at most [maxLength + 6]
    characters.  The window
    starts at 0 when no word of the query occurs, and otherwise 50
    characters before the least index at which a word of the query occurs
    in the lower-cased text (at 0 when that is negative); it is
    [maxLength] long unless the text ends before; with [maxLength > 50]
    it holds the place of that first match. *)
Theorem snippet_is_a_window_on_the_text (text query : string)
    (maxLength : Z) (Hmax : (0 ≤ maxLength)%Z) :
  let len := JsString.length text in
  let snippet := Tools.getSnippet text query maxLength in
  ∃ first start finish : Z,
    first_match (JsString.toLowerCase text) (query_words query) first ∧
    start = (if bool_decide (first = -1)%Z then 0 else Z.max 0 (first - 50))%Z ∧
    finish = Z.min len (start + maxLength) ∧
    (0 ≤ start ≤ finish)%Z ∧
    snippet
    = (if bool_decide (0 < start)%Z then "..." else "")
      +:+ String.substring (Z.to_nat start) (Z.to_nat (finish - start)) text
      +:+ (if bool_decide (finish < len)%Z then "..." else "") ∧
    (JsString.length snippet ≤ maxLength + 6)%Z ∧
    (first ≠ (-1)%Z → (50 < maxLength)%Z → (start ≤ first < finish)%Z).
Proof.
  intros len snippet.
  destruct (getSnippet_first text query maxLength) as (first & Hfirst & Hsn).
  fold snippet in Hsn. fold len in Hsn.
  pose proof (first_match_inside _ _ _ Hfirst) as [_ Hin]. fold len in Hin.
  assert (0 ≤ len)%Z as Hlen by (unfold len, JsString.length; lia).
  exists first. eexists. eexists. split; [done|].
  split; [reflexivity|]. split; [reflexivity|].
  assert (∀ start : Z, (0 ≤ start ≤ len)%Z →
    let finish := Z.min len (start + maxLength) in
    let s := (if bool_decide (0 < start)%Z then "..." else "")
      +:+ String.substring (Z.to_nat start) (Z.to_nat (finish - start)) text
      +:+ (if bool_decide (finish < len)%Z then "..." else "") in
    (JsString.length s ≤ maxLength + 6)%Z) as Hbound.
  { intros start Hstart finish s. unfold s, JsString.length.
    rewrite !string_length_app.
    pose proof (substring_length_le text (Z.to_nat start)
                  (Z.to_nat (finish - start))).
    assert (finish - start ≤ maxLength)%Z by (unfold finish; lia).
    destruct (bool_decide (0 < start)%Z), (bool_decide (finish < len)%Z);
      cbn [String.length]; lia. }
  destruct (bool_decide (first = (-1)%Z)) eqn:Hcase.
  - apply bool_decide_eq_true in Hcase.
    assert (snippet = ""
      +:+ String.substring (Z.to_nat 0)
            (Z.to_nat (Z.min len (0 + maxLength) - 0)) text
      +:+ (if bool_decide (Z.min len (0 + maxLength) < len)%Z then "..."
           else "")) as Heq.
    { rewrite Hsn, JsString_substring_clamped by lia. fold len.
      rewrite (Z.min_l 0 len) by lia.
      replace (Z.min maxLength len - 0)%Z
        with (Z.min len (0 + maxLength) - 0)%Z by lia.
      change ("" +:+ ?x) with x. f_equal.
      destruct (decide (len > maxLength)%Z).
      - by rewrite !bool_decide_true by lia.
      - by rewrite !bool_decide_false by lia. }
    split; [lia|]. split; [by rewrite bool_decide_false by lia|].
    split; [|done]. rewrite Heq. apply (Hbound 0%Z). lia.
  - apply bool_decide_eq_false in Hcase. specialize (Hin Hcase).
    set (start := Z.max 0 (first - 50)) in *.
    set (finish := Z.min len (start + maxLength)) in *.
    assert (0 ≤ start ≤ finish)%Z as Horder by (unfold finish, start; lia).
    assert (snippet = (if bool_decide (0 < start)%Z then "..." else "")
      +:+ String.substring (Z.to_nat start) (Z.to_nat (finish - start)) text
      +:+ (if bool_decide (finish < len)%Z then "..." else "")) as Heq.
    { rewrite Hsn. cbv zeta. fold start. fold finish.
      rewrite JsString_substring_clamped by done. fold len.
      rewrite (Z.min_l start len), (Z.min_l finish len)
        by (unfold finish, start; lia).
      destruct (decide (0 < start)%Z).
      - rewrite !(bool_decide_true (start > 0)%Z),
          !(bool_decide_true (0 < start)%Z) by lia.
        destruct (bool_decide (finish < len)%Z);
          [by rewrite string_app_assoc|by rewrite string_app_nil_r].
      - rewrite !(bool_decide_false (start > 0)%Z),
          !(bool_decide_false (0 < start)%Z) by lia.
        change ("" +:+ ?x) with x.
        destruct (bool_decide (finish < len)%Z);
          [done|by rewrite string_app_nil_r]. }
    split; [done|]. split; [done|]. split.
    + rewrite Heq. apply Hbound. unfold start. lia.
    + intros _ Hwide. unfold finish, start. lia.
Qed.

Lemma snippet_is_a_window_on_the_text_witness :
  (0 ≤ 10)%Z ∧
  ∃ first : Z,
    first_match (JsString.toLowerCase "An Actor has an inbox and an OUTBOX")
      (query_words "Outbox  inbox") first ∧
    (JsString.length
       (Tools.getSnippet "An Actor has an inbox and an OUTBOX"
          "Outbox  inbox" 10) ≤ 10 + 6)%Z.
Proof.
  split; [lia|].
  destruct (snippet_is_a_window_on_the_text
              "An Actor has an inbox and an OUTBOX" "Outbox  inbox" 10)
    as (first & start & finish & Hfirst & _ & _ & _ & _ & Hlen & _);
    [lia|].
  by exists first.
Defined.

(** ** A query without words *)

(** X14. A query of white space only, the empty query included, has no
    words: [calculateScore] is 0 on every text and [getSnippet] returns the
    head of the text, [maxLength] characters followed by "..." when the
    text is longer. *)
Theorem blank_query_matches_nothing (text query : string) (maxLength : Z)
    (Hblank : blank query = true) :
  Tools.calculateScore text query = 0%Z ∧
  Tools.getSnippet text query maxLength
  = JsString.substring text 0 maxLength
    +:+ (if bool_decide (JsString.length text > maxLength)%Z then "..."
         else "").
Proof.
  apply query_words_blank in Hblank. split.
  - rewrite calculateScore_words, Hblank. cbn. lia.
  - unfold Tools.getSnippet. cbv zeta.
    unfold query_words in Hblank. by rewrite Hblank.
Qed.

Lemma blank_query_matches_nothing_witness :
  blank (String " " (String "009" "")) = true ∧
  Tools.calculateScore "Object Integrity Proofs"
    (String " " (String "009" "")) = 0%Z ∧
  Tools.getSnippet "Object Integrity Proofs"
    (String " " (String "009" "")) 6 = "Object...".
Proof.
  split; [done|].
  destruct (blank_query_matches_nothing "Object Integrity Proofs"
              (String " " (String "009" "")) 6 eq_refl) as [H0 H1].
  split; [exact H0|]. by rewrite H1.
Defined.

(** ** Sorting *)

Section sorting.
Context {A : Type} (key : A → Z).

Let by_key (a b : A) : Z := (key b - key a)%Z.
Let above (a b : A) : Prop := (key b ≤ key a)%Z.

Lemma insert_Permutation (x : A) (l : list A) :
  JsArray.insert by_key x l ≡ₚ x :: l.
Proof.
  induction l as [|y l IH]; [done|]. cbn.
  case_bool_decide; [done|]. by rewrite IH, Permutation_swap.
Qed.

Lemma sort_Permutation (l : list A) : JsArray.sort by_key l ≡ₚ l.
Proof.
  induction l as [|x l IH]; [done|]. cbn.
  by rewrite insert_Permutation, IH.
Qed.

Lemma insert_sorted (x : A) (l : list A) :
  StronglySorted above l → StronglySorted above (JsArray.insert by_key x l).
Proof.
  induction 1 as [|y l Hl IH Hy]; [by repeat constructor|]. cbn.
  unfold by_key at 1. case_bool_decide as Hxy.
  - constructor; [by constructor|]. constructor; [unfold above; lia|].
    eapply Forall_impl; [exact Hy|]. unfold above. intros z Hz. lia.
  - constructor; [done|]. rewrite insert_Permutation.
    constructor; [unfold above; lia|done].
Qed.

Lemma sort_sorted (l : list A) : StronglySorted above (JsArray.sort by_key l).
Proof.
  induction l as [|x l IH]; [constructor|]. by apply insert_sorted.
Qed.

Lemma insert_stable (k : Z) (x : A) (l : list A) :
  filter (λ a, key a = k) (JsArray.insert by_key x l)
  = filter (λ a, key a = k) (x :: l).
Proof.
  induction l as [|y l IH]; [done|]. cbn.
  unfold by_key at 1. case_bool_decide as Hxy; [done|].
  rewrite filter_cons, IH, !filter_cons.
  destruct (decide (key y = k)), (decide (key x = k)); try done. lia.
Qed.

Lemma sort_stable (k : Z) (l : list A) :
  filter (λ a, key a = k) (JsArray.sort by_key l)
  = filter (λ a, key a = k) l.
Proof.
  induction l as [|x l IH]; [done|]. cbn [JsArray.sort foldr].
  fold (JsArray.sort by_key l). by rewrite insert_stable, !filter_cons, IH.
Qed.

End sorting.

(** ** Searching the index *)

Lemma calculateScore_nonneg (text query : string) :
  (0 ≤ Tools.calculateScore text query)%Z.
Proof. rewrite calculateScore_words. destruct (JsString.includes _ _); lia. Qed.

Lemma looked_refl st : looked st st.
Proof. by repeat split. Qed.

Lemma looked_trans st1 st2 st3 : looked st1 st2 → looked st2 st3 → looked st1 st3.
Proof.
  unfold looked, untouched. intros H12 H23.
  destruct_and!. repeat split; congruence.
Qed.

Lemma looked_readFile p st : looked st (readFile p st).2.
Proof. by destruct (reads_look (ReadFile p) st eq_refl) as (? & ? & ? & _). Qed.

Lemma readFile_looked p st0 st :
  looked st0 st → (readFile p st).1 = (readFile p st0).1.
Proof. intros (_ & ? & ? & ? & _). by apply readFile_result_ext. Qed.

Lemma search_feps_entry_found query fep st :
  Tools.search_feps_entry query fep st
  = (Return (entry_found query st fep),
     (readFile (Tools.docPath (Types.slug fep)) st).2).
Proof.
  unfold Tools.search_feps_entry, entry_found, Tools.maxLength_default.
  cbv zeta.
  pose proof (calculateScore_nonneg (Types.title fep) query) as Ht.
  pose proof (calculateScore_nonneg (Types.authors fep) query) as Ha.
  replace (Tools.calculateScore (Types.title fep) query * 3
           + Tools.calculateScore (Types.authors fep) query * 2)%Z
    with (3 * Tools.calculateScore (Types.title fep) query
          + 2 * Tools.calculateScore (Types.authors fep) query)%Z by lia.
  set (base := (3 * _ + 2 * _)%Z) in *.
  unfold_monad.
  case_bool_decide as Hbase; cbv beta;
    destruct (readFile _ st) as [[content|e] st']; cbn [fst snd]; try done.
  - by case_bool_decide.
  - case_bool_decide; [|done]. do 3 f_equal. lia.
Qed.

Lemma search_feps_loop_matches query index results st0 st :
  looked st0 st →
  ∃ st',
    Tools.search_feps_loop query index results st
    = (Return (results ++ matches query st0 index), st') ∧
    looked st0 st'.
Proof.
  revert results st. induction index as [|fep index IH]; intros results st Hst.
  - exists st. cbn. by rewrite app_nil_r.
  - cbn [Tools.search_feps_loop]. unfold mbind, M_bind, bind.
    rewrite search_feps_entry_found.
    assert (entry_found query st fep = entry_found query st0 fep) as Hsame.
    { unfold entry_found. by rewrite (readFile_looked _ st0 st). }
    rewrite Hsame.
    destruct (entry_found query st0 fep) as [score snippet] eqn:E.
    edestruct IH as (st' & -> & Hst').
    { eapply looked_trans; [exact Hst|apply looked_readFile]. }
    exists st'. split; [|done]. do 2 f_equal.
    unfold matches. cbn [omap list_omap]. rewrite E. cbn [fst snd].
    case_bool_decide; [by rewrite <- app_assoc|done].
Qed.

Lemma search_feps_results_matches query index st :
  ∃ st',
    Tools.search_feps_results query index st
    = (Return (take 20 (JsArray.sort
                          (λ a b, (Types.score b - Types.score a)%Z)
                          (matches query st index))), st') ∧
    looked st st'.
Proof.
  unfold Tools.search_feps_results. unfold mbind, M_bind, bind.
  destruct (search_feps_loop_matches query index [] st st (looked_refl st))
    as (st' & -> & Hst').
  by exists st'.
Qed.

Lemma matches_spec query st index r :
  r ∈ matches query st index ↔
  Types.fep r ∈ index ∧ (Types.score r > 0)%Z ∧
  (Types.score r, Types.snippet r) = entry_found query st (Types.fep r).
Proof.
  unfold matches. rewrite list_elem_of_omap. split.
  - intros (fep & Hfep & Hr). case_bool_decide; [|done].
    injection Hr as <-. cbn. split; [done|]. split; [done|].
    by destruct (entry_found query st fep).
  - intros (Hfep & Hpos & Hfound). exists (Types.fep r). split; [done|].
    rewrite <- Hfound. cbn. rewrite bool_decide_true by done. by destruct r.
Qed.

Lemma StronglySorted_lookup {A} (R : A → A → Prop) (l : list A) i j a b :
  StronglySorted R l → l !! i = Some a → l !! j = Some b → (i < j)%nat →
  R a b.
Proof.
  intros Hl. revert i j. induction Hl as [|x l Hl IH Hx]; intros i j Ha Hb Hij.
  - done.
  - destruct j as [|j]; [lia|]. destruct i as [|i].
    + injection Ha as ->. cbn in Hb.
      rewrite Forall_forall in Hx. apply Hx. by eapply list_elem_of_lookup_2.
    + apply (IH i j); [done..|lia].
Qed.

Lemma StronglySorted_take {A} (R : A → A → Prop) (l : list A) n :
  StronglySorted R l → StronglySorted R (take n l).
Proof.
  intros Hl. revert n. induction Hl as [|x l Hl IH Hx]; intros [|n]; cbn;
    try constructor; [apply IH|].
  eapply Forall_forall. intros y Hy. rewrite Forall_forall in Hx.
  apply Hx. revert Hy. apply subseteq_take.
Qed.

Lemma filter_take_prefix {A} (P : A → Prop) `{∀ x, Decision (P x)}
    (l : list A) n :
  filter P (take n l) `prefix_of` filter P l.
Proof.
  rewrite <- (take_drop n l) at 2. rewrite filter_app. by apply prefix_app_r.
Qed.

(** X15. For one entry of the index the loop of [search_feps] never
    throws, whether the document can be read or not, and only looks at the
    working copy.  The score it ends with is 3 times the score of the
    title plus 2 times the score of the authors, plus the score of the
    document when it could be read: the two branches of the loop compute
    the same sum.  There is a snippet, taken from the document with the
    default length 200, exactly when the document was read and its score
    is positive. *)
Theorem search_score_is_a_weighted_sum (query : string)
    (fep : Types.FepMetadata) (st : state) :
  let read := readFile (Tools.docPath (Types.slug fep)) st in
  let titleScore := Tools.calculateScore (Types.title fep) query in
  let authorScore := Tools.calculateScore (Types.authors fep) query in
  ∃ score snippet,
    Tools.search_feps_entry query fep st = (Return (score, snippet), read.2) ∧
    looked st read.2 ∧
    (0 ≤ score)%Z ∧
    match read.1 with
    | Return content =>
        let contentScore := Tools.calculateScore content query in
        score = (3 * titleScore + 2 * authorScore + contentScore)%Z ∧
        snippet = (if bool_decide (contentScore > 0)%Z
                   then Some (Tools.getSnippet content query 200)
                   else None)
    | Throw _ =>
        score = (3 * titleScore + 2 * authorScore)%Z ∧ snippet = None
    end.
Proof.
  intros read titleScore authorScore.
  exists (entry_found query st fep).1, (entry_found query st fep).2.
  rewrite search_feps_entry_found, <- surjective_pairing.
  split; [done|]. split; [apply looked_readFile|].
  pose proof (calculateScore_nonneg (Types.title fep) query).
  pose proof (calculateScore_nonneg (Types.authors fep) query).
  unfold entry_found. fold read titleScore authorScore.
  destruct (read.1) as [content|e]; cbn [fst snd].
  - pose proof (calculateScore_nonneg content query).
    case_bool_decide; cbn [fst snd]; (split; [lia|]); (split; [lia|done]).
  - split; [unfold titleScore, authorScore; lia|done].
Qed.

(** X16. The results of [search_feps], for any index and in any state, are
    computed without an exception and without a change to the variables,
    the disk, the clock or the console.  They are at most 20, in
    descending order of score; each one is an entry of the index with its
    positive score and its snippet; results of equal score come in the
    order of the index; and when fewer than 20 are returned they are all
    the entries with a positive score. *)
Theorem search_results_are_ranked (query : string) (index : Types.FepIndex)
    (st : state) :
  ∃ top st',
    Tools.search_feps_results query index st = (Return top, st') ∧
    looked st st' ∧
    (length top ≤ 20)%nat ∧
    (∀ i j a b, top !! i = Some a → top !! j = Some b → (i < j)%nat →
       (Types.score b ≤ Types.score a)%Z) ∧
    (∀ r, r ∈ top →
       Types.fep r ∈ index ∧ (Types.score r > 0)%Z ∧
       (Types.score r, Types.snippet r)
       = entry_found query st (Types.fep r)) ∧
    (∀ k, filter (λ r, Types.score r = k) top
          `prefix_of` filter (λ r, Types.score r = k)
                        (matches query st index)) ∧
    ((length top < 20)%nat → top ≡ₚ matches query st index).
Proof.
  destruct (search_feps_results_matches query index st) as (st' & Hrun & Hst').
  set (sorted := JsArray.sort (λ a b, (Types.score b - Types.score a)%Z)
                   (matches query st index)) in Hrun.
  assert (sorted ≡ₚ matches query st index) as Hperm
    by apply (sort_Permutation Types.score).
  exists (take 20 sorted), st'. split; [done|]. split; [done|].
  split; [rewrite length_take; lia|]. split; [|split; [|split]].
  - intros i j a b Ha Hb Hij.
    apply (StronglySorted_lookup (λ a b, (Types.score b ≤ Types.score a)%Z)
             (take 20 sorted) i j a b); [|done..].
    apply StronglySorted_take, (sort_sorted Types.score).
  - intros r Hr. apply matches_spec. rewrite <- Hperm.
    revert Hr. apply subseteq_take.
  - intros k.
    rewrite <- (sort_stable Types.score k (matches query st index)).
    apply (filter_take_prefix _).
  - intros Hlen. rewrite length_take in Hlen.
    rewrite take_ge by lia. done.
Qed.

(** ** The tools *)

Section tools.
Context (JSON_parse : string → thrown + Types.FepIndex).
Context (JSON_stringify : ∀ A : Type, A → string).
Context (parseFrontmatter :
           string → option string → thrown + (Types.FepMetadata * string)).

Lemma loadIndex_run st :
  Tools.loadIndex JSON_parse st
  = (match (readFile "index.json" st).1 with
     | Return content =>
         match JSON_parse content with
         | inl error => Throw error
         | inr index => Return index
         end
     | Throw error => Throw error
     end, (readFile "index.json" st).2).
Proof.
  unfold Tools.loadIndex. unfold_monad.
  destruct (readFile _ st) as [[content|e] st']; [|done].
  cbn [fst snd]. by destruct (JSON_parse content).
Qed.

Lemma getFepDocument_looked slug index st :
  looked st (Tools.getFepDocument parseFrontmatter slug index st).2.
Proof.
  unfold Tools.getFepDocument.
  destruct (JsArray.find _ index) as [indexEntry|]; [|apply looked_refl].
  unfold_monad. pose proof (looked_readFile (Tools.docPath slug) st) as H.
  destruct (readFile _ st) as [[content|e] st']; [|done].
  by destruct (parseFrontmatter content _) as [e|[metadata body]].
Qed.

Lemma readFile_missing path p st :
  truthy (currentRepoPath st) = Some path →
  io_error (world st) !! (path +:+ "/" +:+ p) = None →
  disk (world st) !! (path +:+ "/" +:+ p) = None →
  (readFile p st).1 = Throw (file_not_found p).
Proof.
  intros Hpath Hio Hdisk. rewrite (readFile_ready path) by done.
  unfold Deno.readTextFile. cbv zeta. by rewrite Hio, Hdisk.
Qed.

Lemma call_tool_returns t st :
  ∃ r, (call_tool JSON_parse JSON_stringify parseFrontmatter t st).1
       = Return r.
Proof.
  destruct t; cbn [call_tool];
    unfold Tools.list_feps, Tools.get_fep, Tools.search_feps,
      Tools.refresh_repository; unfold_monad.
  - destruct (Tools.loadIndex _ st) as [[index|e] st']; by eexists.
  - destruct (Tools.loadIndex _ st) as [[index|e] st']; [|by eexists].
    destruct (Tools.getFepDocument _ _ _ st') as [[[metadata content]|e] st2];
      by eexists.
  - destruct (Tools.loadIndex _ st) as [[index|e] st']; [|by eexists].
    destruct (search_feps_results_matches query index st') as (st2 & -> & _).
    by eexists.
  - destruct (refreshRepository st) as [[[]|e] st']; by eexists.
Qed.

Lemma call_tool_looked t st :
  t ≠ RefreshRepository →
  looked st (call_tool JSON_parse JSON_stringify parseFrontmatter t st).2.
Proof.
  intros Ht. pose proof (looked_readFile "index.json" st) as Hindex.
  pose proof (loadIndex_run st) as Hload.
  destruct t; cbn [call_tool]; [| | |done];
    unfold Tools.list_feps, Tools.get_fep, Tools.search_feps;
    unfold_monad;
    destruct (Tools.loadIndex _ st) as [[index|e] st'];
    injection Hload as _ ->; try done.
  - pose proof (getFepDocument_looked slug index
                  (readFile "index.json" st).2) as Hdoc.
    destruct (Tools.getFepDocument _ _ _ _) as [[[metadata content]|e] st2];
      by apply (looked_trans _ _ _ Hindex).
  - destruct (search_feps_results_matches query index
                (readFile "index.json" st).2) as (st2 & -> & Hst2).
    by apply (looked_trans _ _ _ Hindex).
Qed.

Lemma call_tool_index_error t st error :
  t ≠ RefreshRepository →
  (readFile "index.json" st).1 = Throw error →
  (call_tool JSON_parse JSON_stringify parseFrontmatter t st).1
  = Return (Tools.error_result error).
Proof.
  intros Ht Hread. pose proof (loadIndex_run st) as Hload.
  rewrite Hread in Hload.
  destruct t; cbn [call_tool]; [| | |done];
    unfold Tools.list_feps, Tools.get_fep, Tools.search_feps;
    unfold_monad; by rewrite Hload.
Qed.

End tools.

Lemma find_first {A} (predicate : A → bool) (before : list A) (x : A)
    (after : list A) :
  predicate x = true →
  (∀ y, y ∈ before → predicate y = false) →
  JsArray.find predicate (before ++ x :: after) = Some x.
Proof.
  intros Hx. unfold JsArray.find.
  induction before as [|y before IH]; intros Hbefore; cbn.
  - by rewrite Hx.
  - rewrite (Hbefore y) by left. apply IH. intros z Hz. apply Hbefore. by right.
Qed.

Lemma find_nothing {A} (predicate : A → bool) (array : list A) :
  (∀ y, y ∈ array → predicate y = false) →
  JsArray.find predicate array = None.
Proof.
  unfold JsArray.find. induction array as [|y array IH]; intros H; [done|].
  cbn. rewrite (H y) by left. apply IH. intros z Hz. apply H. by right.
Qed.

(** X17. No tool throws: [list_feps], [get_fep], [search_feps] and
    [refresh_repository] always return a result, and the first three only
    look at the working copy.  Called before the repository is
    initialized, each of them returns the error text "Error: Repository
    not initialized. Call initializeRepository() first." with [isError]
    set and does nothing else.  When index.json cannot be read, the three
    reading tools return "Error: " followed by the message of that error,
    which is "File not found: index.json" when the file is missing. *)
Theorem tools_answer_instead_of_throwing
    (JSON_parse : string → thrown + Types.FepIndex)
    (JSON_stringify : ∀ A : Type, A → string)
    (parseFrontmatter :
       string → option string → thrown + (Types.FepMetadata * string))
    (t : tool) (st : state) :
  let run := call_tool JSON_parse JSON_stringify parseFrontmatter t st in
  (∃ r, run.1 = Return r) ∧
  (t ≠ RefreshRepository → looked st run.2) ∧
  (dormant st →
   run = (Return
            {| Tools.text :=
                 "Error: Repository not initialized. Call initializeRepository() first.";
               Tools.isError := true |}, st)) ∧
  (∀ path,
     t ≠ RefreshRepository →
     truthy (currentRepoPath st) = Some path →
     io_error (world st) !! (path +:+ "/index.json") = None →
     disk (world st) !! (path +:+ "/index.json") = None →
     run.1 = Return {| Tools.text := "Error: File not found: index.json";
                       Tools.isError := true |}) ∧
  (∀ error,
     t ≠ RefreshRepository →
     (readFile "index.json" st).1 = Throw error →
     run.1 = Return {| Tools.text := "Error: " +:+ message_or_String error;
                       Tools.isError := true |}).
Proof.
  intros run. split; [apply call_tool_returns|].
  split; [apply call_tool_looked|]. split; [|split].
  - intros Hdormant. unfold run.
    destruct t; cbn [call_tool];
      unfold Tools.list_feps, Tools.get_fep, Tools.search_feps,
        Tools.refresh_repository, Tools.loadIndex; unfold_monad;
      by rewrite ?readFile_dormant, ?refreshRepository_dormant by done.
  - intros path Ht Hpath Hio Hdisk.
    apply (call_tool_index_error _ _ _ _ _ (file_not_found "index.json"));
      [done|].
    by apply (readFile_missing path).
  - intros error Ht Hread. by apply call_tool_index_error.
Qed.

(** X18. [getFepDocument] only looks at the working copy.  For a slug that
    no entry of the index has, it throws "FEP not found: " followed by the
    slug without reading anything.  Otherwise it takes the first entry
    with that slug and reads fep/<slug>/fep-<slug>.md; an error of that
    read reaches the caller as it is; and in the metadata that is returned
    the title and the number of implementations are those of the index
    entry, all other properties those that [parseFrontmatter] found in the
    document. *)
Theorem getFepDocument_follows_the_index
    (parseFrontmatter :
       string → option string → thrown + (Types.FepMetadata * string))
    (slug : string) (index : Types.FepIndex) (st : state) :
  let run := Tools.getFepDocument parseFrontmatter slug index st in
  looked st run.2 ∧
  ((∀ fep, fep ∈ index → Types.slug fep ≠ slug) →
   run = (Throw (ThrownError (new_Error ("FEP not found: " +:+ slug))), st)) ∧
  (∀ before indexEntry after,
     index = before ++ indexEntry :: after →
     Types.slug indexEntry = slug →
     (∀ fep, fep ∈ before → Types.slug fep ≠ slug) →
     let read :=
       readFile ("fep/" +:+ slug +:+ "/fep-" +:+ slug +:+ ".md") st in
     run.2 = read.2 ∧
     (∀ error, read.1 = Throw error → run.1 = Throw error) ∧
     (∀ metadata body, run.1 = Return (metadata, body) →
        Types.title metadata = Types.title indexEntry ∧
        Types.implementations metadata = Types.implementations indexEntry ∧
        ∃ content parsed,
          read.1 = Return content ∧
          parseFrontmatter content (Some (Types.title indexEntry))
          = inr (parsed, body) ∧
          Types.slug metadata = Types.slug parsed ∧
          Types.authors metadata = Types.authors parsed ∧
          Types.status metadata = Types.status parsed ∧
          Types.dateReceived metadata = Types.dateReceived parsed ∧
          Types.dateFinalized metadata = Types.dateFinalized parsed ∧
          Types.dateWithdrawn metadata = Types.dateWithdrawn parsed ∧
          Types.trackingIssue metadata = Types.trackingIssue parsed ∧
          Types.discussionsTo metadata = Types.discussionsTo parsed)).
Proof.
  intros run. split; [apply getFepDocument_looked|]. split.
  - intros Hnone. unfold run, Tools.getFepDocument.
    rewrite find_nothing; [done|].
    intros fep Hfep. apply bool_decide_eq_false. by apply Hnone.
  - intros before indexEntry after -> Hslug Hbefore read.
    unfold run, Tools.getFepDocument.
    rewrite find_first;
      [|by apply bool_decide_eq_true
       |intros fep Hfep; apply bool_decide_eq_false; by apply Hbefore].
    unfold_monad. fold (Tools.docPath slug) in read.
    change (readFile (Tools.docPath slug) st) with read.
    destruct read as [[content|e] st']; cbn [fst snd].
    + destruct (parseFrontmatter content _) as [e|[parsed body]] eqn:Hparse;
        cbn [fst snd]; (split; [done|]); (split; [done|]);
        intros metadata body' [=]; subst.
      cbn. do 2 (split; [done|]). by exists content, parsed.
    + split; [done|]. split; [by intros error [= ->]|done].
Qed.

(** X19. The tool [refresh_repository] leaves the state that
    [refreshRepository] leaves.  It answers "FEP repository refreshed
    successfully." when the refresh returned, and otherwise "Error: "
    followed by the message of what was thrown, with [isError] set: that
    message is the one of the handle that is not initialized, or "Failed
    to refresh repository: " followed by the cause. *)
Theorem refresh_tool_reports_the_outcome (st : state) :
  let run := refreshRepository st in
  ∃ r,
    Tools.refresh_repository st = (Return r, run.2) ∧
    match run.1 with
    | Return _ =>
        r = {| Tools.text := "FEP repository refreshed successfully.";
               Tools.isError := false |}
    | Throw error =>
        r = {| Tools.text := "Error: " +:+ message_or_String error;
               Tools.isError := true |} ∧
        (error = not_initialized ∨
         ∃ cause,
           error = ThrownError (new_Error
             ("Failed to refresh repository: " +:+ message_or_String cause)))
    end.
Proof.
  intros run. unfold Tools.refresh_repository. unfold_monad. fold run.
  destruct run as [[[]|error] st'] eqn:Hrun; cbn [fst snd].
  - by eexists.
  - eexists. split; [done|]. split; [done|].
    unfold run in Hrun.
    destruct (currentRepo st) as [repo|] eqn:Hrepo;
      [destruct (truthy (currentRepoPath st)) as [path|] eqn:Hpath|].
    + destruct (refreshRepository_outcomes st repo path Hrepo Hpath)
        as (_ & _ & _ & [(r & Hret & _)|(cause & Hthrow & _)]);
        rewrite Hrun in *; [done|].
      injection Hthrow as ->. right. by exists cause.
    + rewrite refreshRepository_dormant in Hrun by done.
      injection Hrun as <- _. by left.
    + left. revert Hrun. unfold refreshRepository. unfold_monad.
      rewrite Hrepo. by intros [= <- _].
Qed.

(** ** The resources *)

(** X20. The expression that the resource fep://{slug} matches its URI
    against accepts exactly "fep://" followed by four characters among 0-9
    and a-f, and the slug is those four characters. *)
Theorem slug_of_a_resource_uri (href slug : string) :
  Resources.match_slug href = Some slug ↔
  href = "fep://" +:+ slug ∧
  ∃ a b c d,
    slug = String a (String b (String c (String d ""))) ∧
    Resources.is_hex a = true ∧ Resources.is_hex b = true ∧
    Resources.is_hex c = true ∧ Resources.is_hex d = true.
Proof.
  unfold Resources.match_slug. split.
  - destruct (String.prefix "fep://" href) eqn:Hprefix; [|done].
    apply prefix_app in Hprefix as [rest ->].
    rewrite (string_length_app "fep://" rest).
    change (String.length "fep://") with 6%nat.
    rewrite Nat.add_sub'.
    rewrite (substring_after "fep://" rest : substring 6 _ _ = rest).
    destruct rest as [|a [|b [|c [|d [|]]]]]; try done.
    destruct (Resources.is_hex a) eqn:Ha, (Resources.is_hex b) eqn:Hb,
      (Resources.is_hex c) eqn:Hc, (Resources.is_hex d) eqn:Hd; try done.
    intros [= <-]. split; [done|]. by exists a, b, c, d.
  - intros [-> (a & b & c & d & -> & Ha & Hb & Hc & Hd)].
    rewrite (proj2 (prefix_app "fep://" _)) by by eexists.
    rewrite (string_length_app "fep://" _).
    change (String.length "fep://") with 6%nat.
    rewrite Nat.add_sub'.
    rewrite (substring_after "fep://" _ : substring 6 _ _ = _).
    cbv beta iota zeta. by rewrite Ha, Hb, Hc, Hd.
Qed.

Section resources.
Context (JSON_parse : string → thrown + Types.FepIndex).
Context (JSON_stringify : ∀ A : Type, A → string).
Context (parseFrontmatter :
           string → option string → thrown + (Types.FepMetadata * string)).

Lemma Resources_loadIndex_run st :
  Resources.loadIndex JSON_parse st
  = (match (readFile "index.json" st).1 with
     | Return content =>
         match JSON_parse content with
         | inl error => Throw error
         | inr index => Return index
         end
     | Throw error => Throw error
     end, (readFile "index.json" st).2).
Proof.
  unfold Resources.loadIndex. unfold_monad.
  destruct (readFile _ st) as [[content|e] st']; [|done].
  cbn [fst snd]. by destruct (JSON_parse content).
Qed.

Lemma fep_document_run href st :
  let run :=
    Resources.fep_document JSON_parse JSON_stringify parseFrontmatter href st in
  looked st run.2 ∧
  ((∃ result, run.1 = Return result ∧ Resources.uri result = href ∧
      Resources.mimeType result = "application/json") ∨
   (∃ cause,
      run.1 = Throw (ThrownError (new_Error
                ("Failed to load FEP: " +:+ message_or_String cause))))).
Proof.
  cbv zeta. unfold Resources.fep_document. unfold_monad.
  destruct (Resources.match_slug href) as [slug|].
  - pose proof (looked_readFile "index.json" st) as Hindex.
    pose proof (Resources_loadIndex_run st) as Hload.
    destruct (Resources.loadIndex _ st) as [[index|e] st1];
      injection Hload as _ ->; [|split; [done|right; by exists e]].
    destruct (JsArray.find _ index) as [indexEntry|];
      [|split; [done|right; by eexists]].
    pose proof (looked_readFile
                  ("fep/" +:+ slug +:+ "/fep-" +:+ slug +:+ ".md")
                  (readFile "index.json" st).2) as Hdoc.
    destruct (readFile _ (readFile "index.json" st).2) as [[content|e] st2];
      [|split; [by apply (looked_trans _ _ _ Hindex)|right; by exists e]].
    destruct (parseFrontmatter content _) as [e|[metadata body]];
      (split; [by apply (looked_trans _ _ _ Hindex)|]).
    + right. by exists e.
    + left. by eexists.
  - split; [apply looked_refl|]. right. by eexists.
Qed.

End resources.

(** X21. Both resources only look at the working copy, and whatever goes
    wrong in them reaches the caller as a new [Error].  fep://index returns
    the serialized index, or throws "Failed to load FEP index: " followed
    by the message of the error of reading or parsing index.json (before
    initialization, the message of the handle that is not initialized).
    fep://{slug} returns an item with the URI it was asked for, or throws
    "Failed to load FEP: " followed by the message of the cause; for a URI
    that is not of the expected form this is the "Invalid FEP URI" message
    and nothing is read. *)
Theorem resources_wrap_every_failure
    (JSON_parse : string → thrown + Types.FepIndex)
    (JSON_stringify : ∀ A : Type, A → string)
    (parseFrontmatter :
       string → option string → thrown + (Types.FepMetadata * string))
    (href : string) (st : state) :
  let index := Resources.fep_index JSON_parse JSON_stringify st in
  let document :=
    Resources.fep_document JSON_parse JSON_stringify parseFrontmatter href st in
  looked st index.2 ∧ looked st document.2 ∧
  match (readFile "index.json" st).1 with
  | Return content =>
      match JSON_parse content with
      | inr entries =>
          index.1 = Return {| Resources.uri := "fep://index";
                              Resources.mimeType := "application/json";
                              Resources.text := JSON_stringify _ entries |}
      | inl error =>
          index.1 = Throw (ThrownError (new_Error
            ("Failed to load FEP index: " +:+ message_or_String error)))
      end
  | Throw error =>
      index.1 = Throw (ThrownError (new_Error
        ("Failed to load FEP index: " +:+ message_or_String error)))
  end ∧
  ((∃ result, document.1 = Return result ∧ Resources.uri result = href ∧
      Resources.mimeType result = "application/json") ∨
   (∃ cause,
      document.1 = Throw (ThrownError (new_Error
        ("Failed to load FEP: " +:+ message_or_String cause))))) ∧
  (Resources.match_slug href = None →
   document
   = (Throw (ThrownError (new_Error
        ("Failed to load FEP: Invalid FEP URI: " +:+ href
         +:+ ". Expected format: fep://{4-char-hex-slug}"))), st)) ∧
  (dormant st →
   index
   = (Throw (ThrownError (new_Error
        "Failed to load FEP index: Repository not initialized. Call initializeRepository() first.")),
      st)).
Proof.
  intros index document.
  destruct (fep_document_run JSON_parse JSON_stringify parseFrontmatter
              href st) as [Hlooked Hdocument].
  pose proof (Resources_loadIndex_run JSON_parse st) as Hload.
  pose proof (looked_readFile "index.json" st) as Hindex.
  assert (index = match Resources.loadIndex JSON_parse st with
                  | (Return entries, st') =>
                      (Return {| Resources.uri := "fep://index";
                                 Resources.mimeType := "application/json";
                                 Resources.text := JSON_stringify _ entries |},
                       st')
                  | (Throw error, st') =>
                      (Throw (ThrownError (new_Error
                         ("Failed to load FEP index: "
                          +:+ message_or_String error))), st')
                  end) as Hrun.
  { unfold index, Resources.fep_index. unfold_monad.
    by destruct (Resources.loadIndex _ st) as [[entries|e] st']. }
  rewrite Hload in Hrun.
  split; [|split; [done|split; [|split; [done|split]]]].
  - rewrite Hrun. by repeat case_match.
  - rewrite Hrun.
    destruct (readFile "index.json" st) as [[content|e] st'];
      cbn [fst snd]; [by destruct (JSON_parse content)|done].
  - intros Hnone. unfold document, Resources.fep_document. unfold_monad.
    by rewrite Hnone.
  - intros Hdormant. rewrite Hrun, readFile_dormant by done. done.
Qed.

(** ** Starting and stopping the server *)

Lemma initializeRepository_failure st error st' :
  initializeRepository st = (Throw error, st') →
  dormant st' ∧ (cleared st → cleared st') ∧
  ((∃ cause, error = clone_failed cause) ∨
   last (outcome <$> trace (world st'))
   = Some (MakeTempDir "fep-mcp-", Some error)).
Proof.
  destruct st as [repo path [d io ts co gf nh ck cs tr]].
  destruct (initializeRepository_course repo path d io ts co gf nh ck cs tr)
    as (repo1 & path1 & d1 & cs1 & pre & Hdormant & Hpre &
        [(e & ts' & ->)
        |(failed & final & d' & cs' & _ & _ & _ & -> & _)]).
  - intros [= <- <-]. split; [done|]. split.
    + intros [Hr Hp]. cbn in Hr, Hp. subst.
      destruct Hpre as [(_ & -> & -> & _)|(old & removal & _ & -> & -> & _)];
        by split.
    + right. cbn [world trace]. rewrite !fmap_app, app_assoc.
      change (outcome <$> [?ev]) with [outcome ev]. by rewrite last_snoc.
  - destruct final as [e|]; [|done]. intros [= <- <-].
    split; [done|]. split; [|left; by exists e].
    intros [Hr Hp]. cbn in Hr, Hp. subst.
    destruct Hpre as [(_ & -> & -> & _)|(old & removal & _ & -> & -> & _)];
      by split.
Qed.

(** X22. The start of [main] logs the name and the version, then calls
    [initializeRepository] and never throws.  When that call returns a
    path, one line with the path is logged, [main] goes on and the handle
    is ready at that path.  When it throws, one line "Failed to
    initialize FEP repository: " with the message is logged and the
    process exits with code 1; the handle is then not initialized (cleared
    if it was cleared before), and the message is that of the three failed
    clone attempts unless the temporary directory could not be made. *)
Theorem startup_goes_on_or_exits_with_1 (st : state) :
  let st1 := (console_error "fep-mcp v0.1.0 starting..." st).2 in
  let init := initializeRepository st1 in
  match init.1 with
  | Return repoPath =>
      Main.startup st
      = (Return Main.GoOn,
         (console_error ("FEP repository initialized at: " +:+ repoPath)
            init.2).2) ∧
      ready_at repoPath (Main.startup st).2
  | Throw error =>
      Main.startup st
      = (Return (Main.Exit 1),
         (console_error
            ("Failed to initialize FEP repository: "
             +:+ message_or_String error) init.2).2) ∧
      dormant (Main.startup st).2 ∧
      (cleared st → cleared (Main.startup st).2) ∧
      ((∃ cause,
          message_or_String error
          = "Failed to clone FEP repository after 3 attempts: "
            +:+ message_or_String cause) ∨
       last (outcome <$> trace (world (Main.startup st).2))
       = Some (MakeTempDir "fep-mcp-", Some error))
  end.
Proof.
  intros st1 init.
  assert (Main.startup st
          = match init with
            | (Return repoPath, st') =>
                (Return Main.GoOn,
                 (console_error
                    ("FEP repository initialized at: " +:+ repoPath) st').2)
            | (Throw error, st') =>
                (Return (Main.Exit 1),
                 (console_error
                    ("Failed to initialize FEP repository: "
                     +:+ message_or_String error) st').2)
            end) as Hrun.
  { unfold init, st1, Main.startup. unfold_monad. cbn [snd].
    by destruct (initializeRepository _) as [[repoPath|error] st']. }
  destruct init as [[repoPath|error] st'] eqn:Hinit; cbn [fst snd];
    rewrite Hrun; (split; [done|]).
  - by apply initializeRepository_returns in Hinit.
  - apply initializeRepository_failure in Hinit as (Hdormant & Hcleared & Hwhy).
    split; [done|]. split; [intros Hst; by apply Hcleared|].
    destruct Hwhy as [[cause ->]|Hlast]; [left; by exists cause|by right].
Qed.

(** X23. [shutdown] logs "Shutting down...", calls [cleanupRepository] and
    always reaches [Deno.exit(0)]: no failure of the removal prevents the
    exit.  Afterwards the handle is not initialized.  On a handle that
    was not initialized nothing but the log line happens; otherwise the
    variables are cleared and [Deno.remove] is called once, on the working
    copy, which is gone unless the system refused. *)
Theorem shutdown_always_exits_with_0 (st : state) :
  let st1 := (console_error "Shutting down..." st).2 in
  let st' := (Main.shutdown st).2 in
  Main.shutdown st = (Return (Main.Exit 0), (cleanupRepository st1).2) ∧
  dormant st' ∧
  (dormant st → st' = st1) ∧
  (∀ path, truthy (currentRepoPath st) = Some path →
     cleared st' ∧
     console (world st') = console (world (cleanupOldRepo path st1).2) ∧
     (∃ removal, outcome <$> since st st' = [(Remove path, removal)]) ∧
     same_outside path (disk (world st)) (disk (world st')) ∧
     (io_error (world st) !! path = None →
      disk (world st') !! path = None)).
Proof.
  intros st1 st'.
  assert (Main.shutdown st = (Return (Main.Exit 0), (cleanupRepository st1).2))
    as Hrun.
  { unfold Main.shutdown, mbind, M_bind, mret, M_ret, bind, ret.
    change (console_error "Shutting down..." st) with (Return (), st1).
    cbv beta iota.
    destruct (truthy (currentRepoPath st1)) as [path|] eqn:Hpath.
    - by rewrite (cleanupRepository_ready path).
    - by rewrite cleanupRepository_idle. }
  unfold st'. rewrite Hrun. cbn [snd]. split; [done|].
  split; [apply cleanupRepository_dormant|]. split.
  - intros Hdormant. by rewrite cleanupRepository_idle.
  - intros path Hpath. rewrite (cleanupRepository_ready path) by done.
    cbn [snd].
    destruct (cleanupOldRepo_effects path st1)
      as (_ & _ & _ & Hcall & Hsame & Hgone & _).
    split; [by split|].
    split; [reflexivity|].
    split; [exact Hcall|].
    split; [exact Hsame|].
    intros Hio. exact (proj1 (proj2 (Hgone Hio))).
Qed.

(** ** What is read or listed exists *)

(** X24. The three ways to look at a path agree.  When [readFile] returns
    a text, or [listDirectory] returns names, [fileExists] of the same path
    returns [true]; every name that [listDirectory] returns is the name of
    something that [fileExists] finds under the directory, unless the
    system refuses to look at it; and no path is both read by [readFile]
    and listed by [listDirectory]. *)
Theorem what_is_read_or_listed_exists (st : state) (p : string) :
  (∀ text, (readFile p st).1 = Return text →
     (fileExists p st).1 = Return true) ∧
  (∀ names, (listDirectory p st).1 = Return names →
     (fileExists p st).1 = Return true ∧
     ∀ path x,
       truthy (currentRepoPath st) = Some path → x ∈ names →
       io_error (world st) !! (path +:+ "/" +:+ p +:+ "/" +:+ x) = None →
       (fileExists (p +:+ "/" +:+ x) st).1 = Return true) ∧
  ¬ ((∃ text, (readFile p st).1 = Return text) ∧
     (∃ names, (listDirectory p st).1 = Return names)).
Proof.
  destruct (truthy (currentRepoPath st)) as [path|] eqn:Hpath.
  - rewrite (readFile_ready path), (listDirectory_ready path),
      (fileExists_ready path) by done.
    unfold Deno.readTextFile, Deno.readDir, Deno.stat, returns, throws.
    cbv zeta.
    destruct (io_error (world st) !! (path +:+ "/" +:+ p)) as [e|] eqn:Hio;
      [by repeat split; try done; intros [[] []]|].
    destruct (disk (world st) !! (path +:+ "/" +:+ p)) as [[text|]|] eqn:Hd;
      cbn [fst snd].
    + repeat split; try done. by intros [_ []].
    + split; [done|]. split; [|by intros [[] _]].
      intros names [= <-]. split; [done|].
      intros path' x [= <-] Hx Hno.
      apply children_names in Hx as (_ & _ & [n Hn]).
      rewrite (fileExists_ready path) by done.
      unfold Deno.stat, returns, throws. cbv zeta.
      rewrite <- !string_app_assoc in Hno.
      rewrite <- !string_app_assoc.
      rewrite <- !string_app_assoc in Hn.
      by rewrite Hno, Hn.
    + repeat split; try done. by intros [[] _].
  - rewrite readFile_dormant, listDirectory_dormant by done.
    repeat split; try done. by intros [[] _].
Qed.

(** ** A text and its parts *)

Lemma toLowerCase_app (a b : string) :
  JsString.toLowerCase (a +:+ b)
  = JsString.toLowerCase a +:+ JsString.toLowerCase b.
Proof.
  induction a as [|c a IH]; [done|].
  change (String c a +:+ b) with (String c (a +:+ b)). cbn. by rewrite IH.
Qed.

Lemma includes_toLowerCase (text part : string) :
  includes text part →
  includes (JsString.toLowerCase text) (JsString.toLowerCase part).
Proof.
  intros (before & after & ->). rewrite !toLowerCase_app. by eexists _, _.
Qed.

Lemma length_filter_mono {A} (P Q : A → Prop) `{∀ x, Decision (P x)}
    `{∀ x, Decision (Q x)} (l : list A) :
  (∀ x, x ∈ l → P x → Q x) →
  (length (filter P l) ≤ length (filter Q l))%nat.
Proof.
  induction l as [|x l IH]; intros HPQ; [done|].
  rewrite !filter_cons.
  assert (length (filter P l) ≤ length (filter Q l))%nat as Hl.
  { apply IH. intros y Hy. apply HPQ. by right. }
  destruct (decide (P x)) as [HP|]; destruct (decide (Q x)) as [|HQ];
    cbn [length]; try lia.
  exfalso. apply HQ, HPQ; [left|done].
Qed.

(** X25. On texts of characters up to U+00FF, which [toLowerCase] maps
    one by one, a text scores at least as much as any text it contains:
    when [part] occurs in [text], [calculateScore] of [part] is at most
    that of [text], for every query. *)
Theorem a_text_scores_at_least_its_parts (part text query : string)
    (Hpart : includes text part) :
  (Tools.calculateScore part query ≤ Tools.calculateScore text query)%Z.
Proof.
  apply includes_toLowerCase in Hpart.
  rewrite !calculateScore_words.
  set (words := query_words query).
  assert (length (filter (λ w, JsString.includes (JsString.toLowerCase part) w
                               = true) words)
          ≤ length (filter (λ w, JsString.includes (JsString.toLowerCase text) w
                                 = true) words))%nat as Hhits.
  { apply length_filter_mono. intros w _ Hw.
    apply JsString_includes_spec. apply JsString_includes_spec in Hw.
    by apply (includes_trans _ _ _ Hpart). }
  destruct (JsString.includes (JsString.toLowerCase part) _) eqn:Hphrase.
  - apply JsString_includes_spec in Hphrase.
    rewrite (proj2 (JsString_includes_spec _ _)
               (includes_trans _ _ _ Hpart Hphrase)).
    lia.
  - destruct (JsString.includes (JsString.toLowerCase text) _); lia.
Qed.

Lemma a_text_scores_at_least_its_parts_witness :
  includes "ActivityPub Client" "Pub" ∧
  (Tools.calculateScore "Pub" "pub client"
   ≤ Tools.calculateScore "ActivityPub Client" "pub client")%Z.
Proof.
  assert (includes "ActivityPub Client" "Pub") as H
    by by exists "Activity", " Client".
  split; [done|]. exact (a_text_scores_at_least_its_parts _ _ _ H).
Defined.

(** ** The frontmatter *)

Lemma string_app_cons (c : ascii) (s t : string) :
  String c s +:+ t = String c (s +:+ t).
Proof. done. Qed.

Lemma literally_Some (literal s rest : string) :
  Yaml.literally literal s = Some rest ↔ s = literal +:+ rest.
Proof.
  unfold Yaml.literally. split.
  - destruct (String.prefix literal s) eqn:Hprefix; [|done].
    apply prefix_app in Hprefix as [rest' ->].
    rewrite string_length_app, Nat.add_sub', substring_after.
    by intros [= ->].
  - intros ->. rewrite (proj2 (prefix_app literal _)) by by eexists.
    by rewrite string_length_app, Nat.add_sub', substring_after.
Qed.

Lemma optional_cr_spec (s : string) :
  ∃ r, cr_or_nothing r ∧ s = r +:+ Yaml.optional_cr s.
Proof.
  destruct s as [|c s]; [exists ""; split; [by left|done]|].
  cbn. destruct (Ascii.eqb_spec c "013") as [->|_].
  - exists CR. split; [by right|done].
  - exists "". split; [by left|done].
Qed.

Lemma closing_Some (s body : string) :
  Yaml.closing s = Some body →
  ∃ r2 r3, cr_or_nothing r2 ∧ cr_or_nothing r3 ∧
    s = r2 +:+ marker +:+ r3 +:+ LF +:+ body.
Proof.
  unfold Yaml.closing.
  destruct (Yaml.literally _ (Yaml.optional_cr s)) as [rest|] eqn:H1; [|done].
  cbn. intros H2.
  apply literally_Some in H1, H2.
  destruct (optional_cr_spec s) as (r2 & Hr2 & Hs).
  destruct (optional_cr_spec rest) as (r3 & Hr3 & Hrest).
  exists r2, r3. split; [done|]. split; [done|].
  rewrite Hs, H1, Hrest, H2. done.
Qed.

Lemma lazily_Some (s group yaml body : string) :
  Yaml.lazily s group = Some (yaml, body) →
  ∃ mid r2 r3, cr_or_nothing r2 ∧ cr_or_nothing r3 ∧
    yaml = group +:+ mid ∧
    s = mid +:+ r2 +:+ marker +:+ r3 +:+ LF +:+ body.
Proof.
  revert group. induction s as [|c s IH]; intros group; cbn [Yaml.lazily].
  - destruct (Yaml.closing "") as [b|] eqn:Hclosing; [|done].
    intros [= <- <-]. apply closing_Some in Hclosing as (r2 & r3 & ? & ? & ->).
    exists "", r2, r3. by rewrite string_app_nil_r.
  - destruct (Yaml.closing (String c s)) as [b|] eqn:Hclosing.
    + intros [= <- <-].
      apply closing_Some in Hclosing as (r2 & r3 & ? & ? & ->).
      exists "", r2, r3. by rewrite string_app_nil_r.
    + intros H. apply IH in H as (mid & r2 & r3 & ? & ? & -> & ->).
      exists (String c mid), r2, r3. split; [done|]. split; [done|].
      by rewrite string_app_assoc.
Qed.

Lemma frontmatterRegex_Some (content yaml body : string) :
  Yaml.frontmatterRegex content = Some (yaml, body) →
  ∃ r1 r2 r3, cr_or_nothing r1 ∧ cr_or_nothing r2 ∧ cr_or_nothing r3 ∧
    content = "---" +:+ r1 +:+ LF +:+ yaml +:+ r2 +:+ marker +:+ r3
              +:+ LF +:+ body.
Proof.
  unfold Yaml.frontmatterRegex.
  destruct (Yaml.literally "---" content) as [rest|] eqn:H1; [|done]. cbn.
  destruct (Yaml.literally _ (Yaml.optional_cr rest)) as [rest'|] eqn:H2;
    [|done]. cbn.
  intros (mid & r2 & r3 & ? & ? & -> & ->)%lazily_Some.
  apply literally_Some in H1, H2.
  destruct (optional_cr_spec rest) as (r1 & Hr1 & Hrest).
  exists r1, r2, r3. do 3 (split; [done|]).
  rewrite H1, Hrest, H2. done.
Qed.

Lemma includes_cons (c : ascii) (s needle : string) :
  includes s needle → includes (String c s) needle.
Proof. intros (a & b & ->). by exists (String c a), b. Qed.

Lemma marker_not_ahead (y rest : string) :
  y ≠ "" → ¬ includes y marker →
  String.prefix marker (y +:+ marker +:+ rest) = false.
Proof.
  intros Hne Hno. destruct (String.prefix _ _) eqn:Hprefix; [|done].
  exfalso. apply prefix_app in Hprefix as [tail Htail].
  destruct y as [|a [|b [|c [|d y]]]]; [done|..];
    rewrite ?string_app_cons in Htail;
    change ("" +:+ ?x) with x in Htail;
    unfold marker, LF in Htail; rewrite ?string_app_cons in Htail;
    change ("" +:+ ?x) with x in Htail;
    try (injection Htail as; simplify_eq; done).
  injection Htail as -> -> -> -> _. apply Hno. by exists "", y.
Qed.

Lemma closing_not_ahead (y body : string) :
  y ≠ "" → ¬ includes y marker → (∀ y0, y ≠ y0 +:+ CR) →
  Yaml.closing (y +:+ marker +:+ LF +:+ body) = None.
Proof.
  intros Hne Hno Hcr. unfold Yaml.closing.
  assert (Yaml.literally (String "010" "---")
            (Yaml.optional_cr (y +:+ marker +:+ LF +:+ body)) = None) as ->;
    [|done].
  unfold Yaml.literally.
  destruct y as [|c y]; [done|]. rewrite string_app_cons.
  cbn [Yaml.optional_cr]. destruct (Ascii.eqb_spec c "013") as [->|_].
  - destruct y as [|d y]; [by destruct (Hcr "")|].
    rewrite (marker_not_ahead (String d y)); [done..|].
    intros H. by apply Hno, includes_cons.
  - rewrite <- string_app_cons.
    by rewrite (marker_not_ahead (String c y)).
Qed.

Lemma closing_here (body : string) :
  Yaml.closing (marker +:+ LF +:+ body) = Some body.
Proof.
  unfold Yaml.closing.
  rewrite (proj2 (literally_Some (String "010" "---")
                    (Yaml.optional_cr (marker +:+ LF +:+ body))
                    (LF +:+ body))) by done.
  cbn [mbind option_bind].
  by rewrite (proj2 (literally_Some (String "010" "")
                       (Yaml.optional_cr (LF +:+ body)) body)).
Qed.

Lemma lazily_round_trip (yaml group body : string) :
  ¬ includes yaml marker → (∀ y0, yaml ≠ y0 +:+ CR) →
  Yaml.lazily (yaml +:+ marker +:+ LF +:+ body) group
  = Some (group +:+ yaml, body).
Proof.
  revert group. induction yaml as [|c yaml IH]; intros group Hno Hcr.
  - change ("" +:+ ?x) with x.
    assert (Yaml.lazily (marker +:+ LF +:+ body) group = Some (group, body))
      as ->; [|by rewrite string_app_nil_r].
    unfold marker, LF. rewrite !string_app_cons. cbn [Yaml.lazily].
    rewrite <- !string_app_cons. fold LF. fold marker.
    by rewrite closing_here.
  - rewrite string_app_cons. cbn [Yaml.lazily]. rewrite <- string_app_cons.
    rewrite closing_not_ahead by done.
    rewrite IH.
    + by rewrite string_app_assoc.
    + intros H. by apply Hno, includes_cons.
    + intros y0 ->. by apply (Hcr (String c y0)).
Qed.

(** X26. What [parseFrontmatter] takes as YAML text and as body.  When its
    expression matches, the document is "---", a line end, the YAML text,
    a line end, "---", a line end and the body, where a line end is a line
    feed that a carriage return may precede.  A document that does not
    start with "---" is refused with "Invalid FEP document: missing YAML
    frontmatter".  And a document written as "---", the YAML text and the
    body, with line feeds as line ends, is split into the same YAML text
    and body again, provided the YAML text has no line that starts with
    "---" after its first one and does not end in a carriage return. *)
Theorem frontmatter_is_cut_at_the_marker :
  (∀ content yaml body,
     Yaml.parseFrontmatter_split content = inr (yaml, body) →
     ∃ r1 r2 r3, cr_or_nothing r1 ∧ cr_or_nothing r2 ∧ cr_or_nothing r3 ∧
       content = "---" +:+ r1 +:+ LF +:+ yaml +:+ r2 +:+ marker +:+ r3
                 +:+ LF +:+ body) ∧
  (∀ content,
     String.prefix "---" content = false →
     Yaml.parseFrontmatter_split content
     = inl (ThrownError (new_Error
         "Invalid FEP document: missing YAML frontmatter"))) ∧
  (∀ yaml body,
     ¬ includes yaml marker → (∀ y0, yaml ≠ y0 +:+ CR) →
     Yaml.parseFrontmatter_split
       ("---" +:+ LF +:+ yaml +:+ marker +:+ LF +:+ body)
     = inr (yaml, body)).
Proof.
  unfold Yaml.parseFrontmatter_split. split; [|split].
  - intros content yaml body.
    destruct (Yaml.frontmatterRegex content) as [[y b]|] eqn:Hmatch; [|done].
    intros [= -> ->]. by apply frontmatterRegex_Some.
  - intros content Hprefix. unfold Yaml.frontmatterRegex, Yaml.literally.
    by rewrite Hprefix.
  - intros yaml body Hno Hcr.
    assert (Yaml.frontmatterRegex
              ("---" +:+ LF +:+ yaml +:+ marker +:+ LF +:+ body)
            = Some (yaml, body)) as ->; [|done].
    unfold Yaml.frontmatterRegex.
    rewrite (proj2 (literally_Some "---" _
                      (LF +:+ yaml +:+ marker +:+ LF +:+ body))) by done.
    cbn [mbind option_bind].
    rewrite (proj2 (literally_Some (String "010" "")
                      (Yaml.optional_cr
                         (LF +:+ yaml +:+ marker +:+ LF +:+ body))
                      (yaml +:+ marker +:+ LF +:+ body))) by done.
    cbn [mbind option_bind].
    by rewrite lazily_round_trip.
Qed.

(** ** What a successful initialization serves *)

(** X27. After an [initializeRepository] that returned, the working copy is
    the checkout that the remote delivered on the attempt that succeeded,
    and nothing else: at every relative path the disk holds below the
    returned path exactly what the checkout holds there, so that nothing
    of an earlier failed attempt is left.  [readFile] then returns the
    text of each file of the checkout and throws "File not found" for a
    path that the checkout does not have, unless the system refuses to
    read there. *)
Theorem initialize_serves_what_was_cloned (st : state) (path : string)
    (st' : state)
    (Hinit : initializeRepository st = (Return path, st')) :
  ∃ failed checkout,
    (failed < 3)%nat ∧
    length (attempts_of (since st st')) = S failed ∧
    clone_oracle (world st) failed = CloneOk checkout ∧
    disk (world st') !! path = Some Dir ∧
    (∀ rel, disk (world st') !! (path +:+ "/" +:+ rel) = checkout !! rel) ∧
    (∀ rel text,
       checkout !! rel = Some (File text) →
       io_error (world st') !! (path +:+ "/" +:+ rel) = None →
       (readFile rel st').1 = Return text) ∧
    (∀ rel,
       checkout !! rel = None →
       io_error (world st') !! (path +:+ "/" +:+ rel) = None →
       (readFile rel st').1 = Throw (file_not_found rel)).
Proof.
  destruct st as [repo cur [d io ts co gf nh ck cs tr]].
  destruct (initializeRepository_course repo cur d io ts co gf nh ck cs tr)
    as (repo1 & path1 & d1 & cs1 & pre & Hdormant & Hpre &
        [(e & ts' & Hrun)
        |(failed & final & d' & cs' & Hlen & _ & _ & Hrun & Hfinal)]);
    rewrite Hrun in Hinit; [done|].
  destruct final as [e|]; [done|].
  destruct Hfinal as (checkout & d0 & Hco & Hclonable & ->).
  injection Hinit as <- <-.
  set (dest := Deno.TMPDIR +:+ "/" +:+ "fep-mcp-" +:+ pretty ts).
  assert (∀ rel, graft dest checkout d0 !! (dest +:+ "/" +:+ rel)
                 = checkout !! rel) as Hlookup.
  { intros rel. by apply graft_lookup_below, clonable_vacant. }
  exists (length failed), checkout. split; [exact Hlen|]. split.
  { unfold since. cbn [world trace]. rewrite drop_app_length, attempts_of_app.
    rewrite (attempts_of_prelude pre cur repo).
    2:{ destruct Hpre as [(_ & _ & _ & -> & _)|(old & removal & _ & _ & _ & -> & _)];
          [by left|right; by eauto]. }
    cbn [app]. change (attempts_of (?ev :: ?l)) with (attempts_of l).
    by rewrite length_attempts_of_course. }
  split; [done|]. cbn [world disk io_error].
  split; [apply graft_lookup_root|]. split; [done|].
  assert (truthy (Some dest) = Some dest) as Hready
    by apply truthy_ready, temp_name_not_empty.
  split.
  - intros rel text Hrel Hio. rewrite (readFile_ready dest) by done.
    unfold Deno.readTextFile, returns, throws. cbv zeta.
    cbn [world disk io_error]. by rewrite Hio, Hlookup, Hrel.
  - intros rel Hrel Hio. rewrite (readFile_ready dest) by done.
    unfold Deno.readTextFile, returns, throws. cbv zeta.
    cbn [world disk io_error]. by rewrite Hio, Hlookup, Hrel.
Qed.

Lemma initialize_serves_what_was_cloned_witness :
  ∃ path st',
    initializeRepository (loaded flaky) = (Return path, st') ∧
    disk (world st') !! (path +:+ "/" +:+ ".git/HEAD") = None ∧
    (readFile "fep/a4ed/fep-a4ed.md" st').1 = Return "# FEP-a4ed".
Proof.
  destruct (initializeRepository (loaded flaky)) as [[path|e] st'] eqn:Hrun;
    [|by vm_compute in Hrun].
  exists path, st'. split; [done|].
  destruct (initialize_serves_what_was_cloned _ _ _ Hrun)
    as (failed & checkout & Hlt & _ & Hco & _ & Hdisk & Hread & _).
  assert (checkout = sample_checkout) as ->.
  { assert (failed = 2%nat) as ->.
    { destruct failed as [|[|[|?]]]; try lia; try done. }
    cbn in Hco. by injection Hco. }
  split; [by rewrite Hdisk|].
  apply Hread; [done|].
  assert (io_error (world st') = ∅) as ->; [|done].
  by vm_compute in Hrun; injection Hrun as _ <-.
Defined.

(** ** Sample runs of the tools *)

Example search_feps_stocked :
  match (Tools.search_feps_results "fediverse PROCESS" sample_index
           stocked).1 with
  | Return top =>
      (λ r, (Types.slug (Types.fep r), Types.score r,
             from_option (λ _, true) false (Types.snippet r))) <$> top
      = [("a4ed", 7%Z, true); ("f1d5", 3%Z, false); ("8fcf", 1%Z, true)]
  | Throw _ => False
  end.
Proof. by vm_compute. Qed.

Example getFepDocument_stocked :
  (Tools.getFepDocument sample_frontmatter "a4ed" sample_index stocked).1
  = Return
      (Types.mkFepMetadata "" "The Fediverse Enhancement Proposal Process" ""
         Types.DRAFT "" None None None None (Some 3%Z),
       "A Fediverse Enhancement Proposal is a document for the fediverse.") ∧
  (Tools.getFepDocument sample_frontmatter "f1d5" sample_index stocked).1
  = Throw (file_not_found "fep/f1d5/fep-f1d5.md").
Proof. by vm_compute. Qed.

Example tools_stocked :
  (call_tool sample_parse sample_stringify sample_frontmatter
     (GetFep "ffff") stocked).1
  = Return {| Tools.text := "Error: FEP not found: ffff";
              Tools.isError := true |} ∧
  (call_tool sample_parse sample_stringify sample_frontmatter
     (SearchFeps "nodeinfo") served).1
  = Return {| Tools.text := "Error: Unexpected token in JSON";
              Tools.isError := true |} ∧
  (call_tool sample_parse sample_stringify sample_frontmatter
     RefreshRepository offline).1
  = Return {| Tools.text :=
                "Error: Failed to refresh repository: failed to resolve address for codeberg.org";
              Tools.isError := true |}.
Proof. by vm_compute. Qed.

Example fep_document_stocked :
  (Resources.fep_document sample_parse sample_stringify sample_frontmatter
     "fep://A4ED" stocked).1
  = Throw (ThrownError (new_Error
      "Failed to load FEP: Invalid FEP URI: fep://A4ED. Expected format: fep://{4-char-hex-slug}")) ∧
  (Resources.fep_document sample_parse sample_stringify sample_frontmatter
     "fep://f1d5" stocked).1
  = Throw (ThrownError (new_Error
      "Failed to load FEP: File not found: fep/f1d5/fep-f1d5.md")).
Proof. by vm_compute. Qed.

Example startup_hopeless :
  (Main.startup (loaded hopeless)).1 = Return (Main.Exit 1) ∧
  last (console (world (Main.startup (loaded hopeless)).2))
  = Some "Failed to initialize FEP repository: Failed to clone FEP repository after 3 attempts: failed to resolve address for codeberg.org" ∧
  (Main.startup (loaded calm)).1 = Return Main.GoOn ∧
  (Main.shutdown (Main.startup (loaded calm)).2).1 = Return (Main.Exit 0).
Proof. by vm_compute. Qed.

Example parseFrontmatter_split_crlf :
  Yaml.parseFrontmatter_split
    ("---" +:+ CR +:+ LF +:+ "slug: a4ed" +:+ CR +:+ LF +:+ "---" +:+ LF
     +:+ "# FEP-a4ed")
  = inr ("slug: a4ed", "# FEP-a4ed") ∧
  Yaml.parseFrontmatter_split "# FEP-a4ed"
  = inl (ThrownError (new_Error
      "Invalid FEP document: missing YAML frontmatter")).
Proof. by vm_compute. Qed.
